(** * Red-black tree and heap sort: a shallow embedding of
      [Python/red_black_tree.py] and [Python/heap_sort.py].

    The red-black tree of the source is a pointer structure: every node
    object carries references to its parent and to its two children, one
    shared sentinel object [NIL] stands for every absent child, and all
    operations mutate the objects in place.  The embedding keeps that shape:
    an object store indexed by references, a small state-and-exception
    monad, and one definition per method of the source.  A purely functional
    tree (with the references written in the nodes) is used as the abstract
    view of a store, and the methods are related to functions on it. *)

From Stdlib Require Import ZArith List Lia Bool Arith Permutation Sorted String.
From Equations Require Import Equations.
Import ListNotations.

Set Implicit Arguments.

(** ** Part I.  The object store and the monad *)

Inductive Color : Type := RED | BLACK.

Definition Color_eqb (c d : Color) : bool :=
  match c, d with
  | RED, RED | BLACK, BLACK => true
  | _, _ => false
  end.

(** [Color.X.name] of the source's enumeration. *)
Definition Color_name (c : Color) : string :=
  match c with RED => "RED"%string | BLACK => "BLACK"%string end.

(** A reference is the identity of an allocated object; a value stored in a
    field or a local variable is either Python's [None] or a reference. *)
Definition ref := nat.
Definition val := option ref.

Definition val_eqb (v w : val) : bool :=
  match v, w with
  | Some a, Some b => Nat.eqb a b
  | None, None => true
  | _, _ => false
  end.

(** [class RBNode]: the five attributes set by [__init__]. *)
Record RBNode : Type := mkNode {
  data : option Z;
  color : Color;
  parent : val;
  left : val;
  right : val
}.

Definition set_color (c : Color) (n : RBNode) : RBNode :=
  mkNode (data n) c (parent n) (left n) (right n).
Definition set_parent (v : val) (n : RBNode) : RBNode :=
  mkNode (data n) (color n) v (left n) (right n).
Definition set_left (v : val) (n : RBNode) : RBNode :=
  mkNode (data n) (color n) (parent n) v (right n).
Definition set_right (v : val) (n : RBNode) : RBNode :=
  mkNode (data n) (color n) (parent n) (left n) v.

(** The store maps every reference to the object it denotes. *)
Definition upd (h : ref -> RBNode) (a : ref) (n : RBNode) : ref -> RBNode :=
  fun x => if Nat.eqb x a then n else h x.

(** [class RedBlackTree]: the attributes [NIL] and [root], together with the
    objects allocated so far ([next_id] is the next fresh reference). *)
Record RedBlackTree : Type := mkTree {
  objs : ref -> RBNode;
  next_id : ref;
  NIL : ref;
  root : val
}.

(** The sentinel as [RBNode(color=Color.BLACK)] builds it: no key, and
    [None] in the three reference attributes. *)
Definition NIL_node : RBNode := mkNode None BLACK None None None.

(** [RedBlackTree.__init__]. *)
Definition new_tree : RedBlackTree :=
  mkTree (fun _ => NIL_node) 1 0 (Some 0).

(** Attribute access on [None] raises [AttributeError]; ordering a key
    against [None] raises [TypeError].  A loop or a recursion that has used
    up its fuel is reported apart from both. *)
Inductive PyExn : Type := AttributeError | TypeError.

Inductive Res (A : Type) : Type :=
| Ok (a : A)
| Raise (e : PyExn)
| OutOfFuel.
Arguments Raise {A} e.
Arguments OutOfFuel {A}.

Definition M (A : Type) : Type := RedBlackTree -> Res (A * RedBlackTree).

Definition ret {A} (a : A) : M A := fun s => Ok (a, s).
Definition raise {A} (e : PyExn) : M A := fun _ => Raise e.
Definition timeout {A} : M A := fun _ => OutOfFuel.
Definition bind {A B} (m : M A) (f : A -> M B) : M B :=
  fun s => match m s with
           | Ok (a, s') => f a s'
           | Raise e => Raise e
           | OutOfFuel => OutOfFuel
           end.

Notation "x <- m ;; f" := (bind m (fun x => f))
  (at level 61, m at next level, right associativity).
Notation "m ;;; f" := (bind m (fun _ => f))
  (at level 61, right associativity).

(** [v.attr] *)
Definition getattr {A} (f : RBNode -> A) (v : val) : M A :=
  fun s => match v with
           | Some a => Ok (f (objs s a), s)
           | None => Raise AttributeError
           end.

(** [v.attr = ...] *)
Definition setattr (f : RBNode -> RBNode) (v : val) : M unit :=
  fun s => match v with
           | Some a =>
               Ok (tt, mkTree (upd (objs s) a (f (objs s a)))
                              (next_id s) (NIL s) (root s))
           | None => Raise AttributeError
           end.

Definition self_NIL : M val := fun s => Ok (Some (NIL s), s).
Definition self_root : M val := fun s => Ok (root s, s).
Definition set_root (v : val) : M unit :=
  fun s => Ok (tt, mkTree (objs s) (next_id s) (NIL s) v).

(** [RBNode(...)]: a fresh object. *)
Definition alloc (n : RBNode) : M val :=
  fun s => Ok (Some (next_id s),
               mkTree (upd (objs s) (next_id s) n) (S (next_id s))
                      (NIL s) (root s)).

(** [x < y] on keys. *)
Definition py_lt (x y : option Z) : M bool :=
  match x, y with
  | Some a, Some b => ret (Z.ltb a b)
  | _, _ => raise TypeError
  end.

(** [x == y] on keys: never raises, and [None] equals only [None]. *)
Definition py_eq (x y : option Z) : bool :=
  match x, y with
  | Some a, Some b => Z.eqb a b
  | None, None => true
  | _, _ => false
  end.

(** ** Part II.  The methods of [RedBlackTree] *)

(** [_left_rotate(x)] *)
Definition _left_rotate (x : val) : M unit :=
  y <- getattr right x ;;
  yl <- getattr left y ;;
  setattr (set_right yl) x ;;;
  nil <- self_NIL ;;
  yl <- getattr left y ;;
  (if negb (val_eqb yl nil) then setattr (set_parent x) yl else ret tt) ;;;
  xp <- getattr parent x ;;
  setattr (set_parent xp) y ;;;
  xp <- getattr parent x ;;
  nil <- self_NIL ;;
  (if val_eqb xp nil then set_root y
   else
     xp <- getattr parent x ;;
     xpl <- getattr left xp ;;
     if val_eqb x xpl then
       xp <- getattr parent x ;; setattr (set_left y) xp
     else
       xp <- getattr parent x ;; setattr (set_right y) xp) ;;;
  setattr (set_left x) y ;;;
  setattr (set_parent y) x.

(** [_right_rotate(x)] *)
Definition _right_rotate (x : val) : M unit :=
  y <- getattr left x ;;
  yr <- getattr right y ;;
  setattr (set_left yr) x ;;;
  nil <- self_NIL ;;
  yr <- getattr right y ;;
  (if negb (val_eqb yr nil) then setattr (set_parent x) yr else ret tt) ;;;
  xp <- getattr parent x ;;
  setattr (set_parent xp) y ;;;
  xp <- getattr parent x ;;
  nil <- self_NIL ;;
  (if val_eqb xp nil then set_root y
   else
     xp <- getattr parent x ;;
     xpr <- getattr right xp ;;
     if val_eqb x xpr then
       xp <- getattr parent x ;; setattr (set_right y) xp
     else
       xp <- getattr parent x ;; setattr (set_left y) xp) ;;;
  setattr (set_right x) y ;;;
  setattr (set_parent y) x.

(** The test of the [while] of [_fix_insert]:
    [node.parent.color == Color.RED]. *)
Definition fix_guard (node : val) : M bool :=
  p <- getattr parent node ;;
  c <- getattr color p ;;
  ret (Color_eqb c RED).

(** One pass through the body of that [while]; the result is the value of
    the local variable [node] at the end of the pass. *)
Definition fix_body (node : val) : M val :=
  p <- getattr parent node ;;
  g <- getattr parent p ;;
  gl <- getattr left g ;;
  if val_eqb p gl then
    p <- getattr parent node ;;
    g <- getattr parent p ;;
    uncle <- getattr right g ;;
    uc <- getattr color uncle ;;
    if Color_eqb uc RED then
      p <- getattr parent node ;;
      setattr (set_color BLACK) p ;;;
      setattr (set_color BLACK) uncle ;;;
      p <- getattr parent node ;;
      g <- getattr parent p ;;
      setattr (set_color RED) g ;;;
      p <- getattr parent node ;;
      g <- getattr parent p ;;
      ret g
    else
      p <- getattr parent node ;;
      pr <- getattr right p ;;
      node <- (if val_eqb node pr then
                 p <- getattr parent node ;;
                 _left_rotate p ;;;
                 ret p
               else ret node) ;;
      p <- getattr parent node ;;
      setattr (set_color BLACK) p ;;;
      p <- getattr parent node ;;
      g <- getattr parent p ;;
      setattr (set_color RED) g ;;;
      p <- getattr parent node ;;
      g <- getattr parent p ;;
      _right_rotate g ;;;
      ret node
  else
    p <- getattr parent node ;;
    g <- getattr parent p ;;
    uncle <- getattr left g ;;
    uc <- getattr color uncle ;;
    if Color_eqb uc RED then
      p <- getattr parent node ;;
      setattr (set_color BLACK) p ;;;
      setattr (set_color BLACK) uncle ;;;
      p <- getattr parent node ;;
      g <- getattr parent p ;;
      setattr (set_color RED) g ;;;
      p <- getattr parent node ;;
      g <- getattr parent p ;;
      ret g
    else
      p <- getattr parent node ;;
      pl <- getattr left p ;;
      node <- (if val_eqb node pl then
                 p <- getattr parent node ;;
                 _right_rotate p ;;;
                 ret p
               else ret node) ;;
      p <- getattr parent node ;;
      setattr (set_color BLACK) p ;;;
      p <- getattr parent node ;;
      g <- getattr parent p ;;
      setattr (set_color RED) g ;;;
      p <- getattr parent node ;;
      g <- getattr parent p ;;
      _left_rotate g ;;;
      ret node.

Fixpoint fix_loop (fuel : nat) (node : val) : M unit :=
  match fuel with
  | O => timeout
  | S fuel' =>
      go <- fix_guard node ;;
      if go then node' <- fix_body node ;; fix_loop fuel' node'
      else ret tt
  end.

(** [_fix_insert(node)] *)
Definition _fix_insert (fuel : nat) (node : val) : M unit :=
  fix_loop fuel node ;;;
  r <- self_root ;;
  setattr (set_color BLACK) r.

(** The [while current != self.NIL] of [insert]; the result is the final
    value of the local variable [parent]. *)
Fixpoint descend (fuel : nat) (new_node par current : val) : M val :=
  match fuel with
  | O => timeout
  | S fuel' =>
      nil <- self_NIL ;;
      if negb (val_eqb current nil) then
        nd <- getattr data new_node ;;
        cd <- getattr data current ;;
        lt <- py_lt nd cd ;;
        next <- (if lt then getattr left current
                 else getattr right current) ;;
        descend fuel' new_node current next
      else ret par
  end.

(** [insert], up to the call of [_fix_insert]: allocation of the node and
    its attachment below the last node of the descent.  The result is the
    new node. *)
Definition bst_attach (fuel : nat) (k : Z) : M val :=
  nil <- self_NIL ;;
  new_node <- alloc (mkNode (Some k) RED nil nil nil) ;;
  r <- self_root ;;
  par <- descend fuel new_node nil r ;;
  setattr (set_parent par) new_node ;;;
  nil <- self_NIL ;;
  (if val_eqb par nil then set_root new_node
   else
     nd <- getattr data new_node ;;
     pd <- getattr data par ;;
     lt <- py_lt nd pd ;;
     if lt then setattr (set_left new_node) par
     else setattr (set_right new_node) par) ;;;
  ret new_node.

(** [insert(data)] *)
Definition insert (fuel : nat) (k : Z) : M unit :=
  new_node <- bst_attach fuel k ;;
  _fix_insert fuel new_node.

(** [_search_helper(node, data)] *)
Fixpoint _search_helper (fuel : nat) (node : val) (k : Z) : M val :=
  match fuel with
  | O => timeout
  | S fuel' =>
      nil <- self_NIL ;;
      if val_eqb node nil then ret node
      else
        d <- getattr data node ;;
        if py_eq (Some k) d then ret node
        else
          d <- getattr data node ;;
          lt <- py_lt (Some k) d ;;
          if lt then
            l <- getattr left node ;; _search_helper fuel' l k
          else
            r <- getattr right node ;; _search_helper fuel' r k
  end.

(** [search(data)] *)
Definition search (fuel : nat) (k : Z) : M val :=
  r <- self_root ;;
  _search_helper fuel r k.

(** [_inorder_helper(node, result)]: [result] is the list being appended
    to, passed on from call to call. *)
Fixpoint _inorder_helper (fuel : nat) (node : val)
    (result : list (option Z * string)) : M (list (option Z * string)) :=
  match fuel with
  | O => timeout
  | S fuel' =>
      nil <- self_NIL ;;
      if negb (val_eqb node nil) then
        l <- getattr left node ;;
        result <- _inorder_helper fuel' l result ;;
        d <- getattr data node ;;
        c <- getattr color node ;;
        r <- getattr right node ;;
        _inorder_helper fuel' r (result ++ [(d, Color_name c)])
      else ret result
  end.

(** [inorder_traversal()] *)
Definition inorder_traversal (fuel : nat) : M (list (option Z * string)) :=
  r <- self_root ;;
  _inorder_helper fuel r [].

(** [get_black_height(node=None)]: [None] stands for the root. *)
Fixpoint get_black_height (fuel : nat) (node : val) : M Z :=
  match fuel with
  | O => timeout
  | S fuel' =>
      node <- (match node with
               | None => self_root
               | Some _ => ret node
               end) ;;
      nil <- self_NIL ;;
      if val_eqb node nil then ret 0%Z
      else
        l <- getattr left node ;;
        left_black_height <- get_black_height fuel' l ;;
        r <- getattr right node ;;
        right_black_height <- get_black_height fuel' r ;;
        c <- getattr color node ;;
        let add_black := if Color_eqb c BLACK then 1%Z else 0%Z in
        ret (Z.max left_black_height right_black_height + add_black)%Z
  end.

(** The local function [validate_helper] of [validate_rb_properties]. *)
Fixpoint validate_helper (fuel : nat) (node : val)
    (black_count expected_black_count : Z) : M bool :=
  match fuel with
  | O => timeout
  | S fuel' =>
      nil <- self_NIL ;;
      if val_eqb node nil then
        ret (Z.eqb black_count expected_black_count)
      else
        c <- getattr color node ;;
        red_red <-
          (if Color_eqb c RED then
             l <- getattr left node ;;
             lc <- getattr color l ;;
             if Color_eqb lc RED then ret true
             else
               r <- getattr right node ;;
               rc <- getattr color r ;;
               ret (Color_eqb rc RED)
           else ret false) ;;
        if red_red then ret false
        else
          c <- getattr color node ;;
          let black_count :=
            if Color_eqb c BLACK then (black_count + 1)%Z else black_count in
          l <- getattr left node ;;
          ok <- validate_helper fuel' l black_count expected_black_count ;;
          if ok then
            r <- getattr right node ;;
            validate_helper fuel' r black_count expected_black_count
          else ret false
  end.

(** [validate_rb_properties()] *)
Definition validate_rb_properties (fuel : nat) : M bool :=
  r <- self_root ;;
  nil <- self_NIL ;;
  if val_eqb r nil then ret true
  else
    rc <- getattr color r ;;
    if negb (Color_eqb rc BLACK) then ret false
    else
      expected_black_count <- get_black_height fuel None ;;
      r <- self_root ;;
      validate_helper fuel r 0%Z expected_black_count.

(** A call returns [r] when every sufficiently large amount of fuel
    produces [r]. *)
Definition returns {A} (run : nat -> Res A) (r : A) : Prop :=
  exists fuel0, forall d, run (fuel0 + d) = Ok r.

(** ** Part III.  Heap sort ([Python/heap_sort.py])

    A Python list of integers is a [list Z]; reading or writing an index
    outside the list raises [IndexError], here the result [None].  The
    functions of the source update the list in place: the model passes the
    contents of that one list from step to step. *)

(** [arr[i] = v] *)
Fixpoint set_item (arr : list Z) (i : nat) (v : Z) : option (list Z) :=
  match arr, i with
  | [], _ => None
  | _ :: rest, O => Some (v :: rest)
  | x :: rest, S i' =>
      match set_item rest i' v with
      | Some rest' => Some (x :: rest')
      | None => None
      end
  end.

(** [arr[i], arr[j] = arr[j], arr[i]]: the right-hand side is read first,
    then [arr[i]] and [arr[j]] are assigned in this order. *)
Definition swap (arr : list Z) (i j : nat) : option (list Z) :=
  match nth_error arr j, nth_error arr i with
  | Some x, Some y =>
      match set_item arr i x with
      | Some arr1 => set_item arr1 j y
      | None => None
      end
  | _, _ => None
  end.

(** [if child < n and arr[largest] < arr[child]: largest = child]; the
    result is the new value of [largest]. *)
Definition pick (arr : list Z) (n largest child : nat) : option nat :=
  if Nat.ltb child n then
    match nth_error arr largest, nth_error arr child with
    | Some a, Some b => Some (if Z.ltb a b then child else largest)
    | _, _ => None
    end
  else Some largest.

(** The body of [heapify] up to the test [largest != i]: the two
    comparisons that choose [largest]. *)
Definition largest_of (arr : list Z) (n i : nat) : option nat :=
  match pick arr n i (2 * i + 1) with
  | Some largest => pick arr n largest (2 * i + 2)
  | None => None
  end.

Definition inspect {A : Type} (x : A) : {y : A | x = y} :=
  exist _ x eq_refl.

(** [heapify(arr, n, i)]; the recursive call is on a larger index below
    [n]. *)
Equations? heapify (arr : list Z) (n i : nat) : option (list Z)
  by wf (n - i) lt :=
  heapify arr n i with inspect (largest_of arr n i) := {
    | exist _ None _ := None
    | exist _ (Some largest) Hl with inspect (Nat.eqb largest i) := {
        | exist _ true _ := Some arr
        | exist _ false Hne with swap arr i largest := {
            | None := None
            | Some arr' := heapify arr' n largest } } }.
Proof.
  apply Nat.eqb_neq in Hne. revert Hl. unfold largest_of, pick.
  destruct (Nat.ltb_spec (2 * i + 1) n);
    destruct (Nat.ltb_spec (2 * i + 2) n);
    repeat match goal with
      | |- context [match nth_error ?a ?b with _ => _ end] =>
          destruct (nth_error a b)
      | |- context [if Z.ltb ?a ?b then _ else _] => destruct (Z.ltb a b)
      end; intros Hl; inversion Hl; subst; lia.
Qed.

(** [heap_sort(arr)]: the first loop, [for i in range(n // 2 - 1, -1, -1)],
    with [count] the number of passes still to make (the next one is for
    [i = count - 1]). *)
Fixpoint build_heap (count n : nat) (arr : list Z) : option (list Z) :=
  match count with
  | O => Some arr
  | S i =>
      match heapify arr n i with
      | Some arr' => build_heap i n arr'
      | None => None
      end
  end.

(** The second loop, [for i in range(n - 1, 0, -1)], with [i] the next
    index. *)
Fixpoint extract_all (i : nat) (arr : list Z) : option (list Z) :=
  match i with
  | O => Some arr
  | S i' =>
      match swap arr i 0 with
      | Some arr1 =>
          match heapify arr1 i 0 with
          | Some arr2 => extract_all i' arr2
          | None => None
          end
      | None => None
      end
  end.

Definition heap_sort (arr : list Z) : option (list Z) :=
  let n := List.length arr in
  match build_heap (n / 2) n arr with
  | Some arr1 => extract_all (n - 1) arr1
  | None => None
  end.


(** The call [heap_sort(arr)] on a list object: [arr] is a reference into
    a store of lists, the list it denotes is sorted in place, and the
    result of the call is the reference it was given. *)
Definition heap_sort_call (lists : ref -> list Z) (arr : ref)
  : option (ref * (ref -> list Z)) :=
  match heap_sort (lists arr) with
  | Some l => Some (arr, fun r => if Nat.eqb r arr then l else lists r)
  | None => None
  end.

(** The item at index [i] of a list that has one. *)
Definition item (arr : list Z) (i : nat) : Z := nth i arr 0%Z.

(** The heap condition at index [j] of the first [n] items: the children
    of [j] that lie below [n] are not greater than the item at [j]. *)
Definition heap_at (arr : list Z) (n j : nat) : Prop :=
  (2 * j + 1 < n -> (item arr (2 * j + 1) <= item arr j)%Z)
  /\ (2 * j + 2 < n -> (item arr (2 * j + 2) <= item arr j)%Z).


(** [j] is [i] or a descendant of [i] in the heap's implicit tree. *)
Inductive desc (i : nat) : nat -> Prop :=
| desc_self : desc i i
| desc_left j : desc i j -> desc i (2 * j + 1)
| desc_right j : desc i j -> desc i (2 * j + 2).

(** ** Part IV.  The abstract view of a store *)

(** A tree whose nodes carry their reference, colour and key; [E] is the
    sentinel. *)
Inductive tree : Type :=
| E
| T (c : Color) (l : tree) (a : ref) (k : Z) (r : tree).

(** The path from a subtree up to the root: the nodes passed on the way,
    each with the sibling subtree that was not entered. *)
Inductive ctx : Type :=
| Top
| CL (c : Color) (a : ref) (k : Z) (r : tree) (up : ctx)
| CR (c : Color) (l : tree) (a : ref) (k : Z) (up : ctx).

Fixpoint plug (t : tree) (cx : ctx) : tree :=
  match cx with
  | Top => t
  | CL c a k r up => plug (T c t a k r) up
  | CR c l a k up => plug (T c l a k t) up
  end.

Definition addr (nil : ref) (t : tree) : ref :=
  match t with E => nil | T _ _ a _ _ => a end.

Definition caddr (nil : ref) (cx : ctx) : ref :=
  match cx with Top => nil | CL _ a _ _ _ | CR _ _ a _ _ => a end.

Definition root_color (t : tree) : Color :=
  match t with E => BLACK | T c _ _ _ _ => c end.

Definition head_color (cx : ctx) : Color :=
  match cx with Top => BLACK | CL c _ _ _ _ | CR c _ _ _ _ => c end.

(** References, keys and (key, colour name) pairs in symmetric order. *)
Fixpoint addrs (t : tree) : list ref :=
  match t with E => [] | T _ l a _ r => addrs l ++ a :: addrs r end.

Fixpoint keys (t : tree) : list Z :=
  match t with E => [] | T _ l _ k r => keys l ++ k :: keys r end.

Fixpoint items (t : tree) : list (option Z * string) :=
  match t with
  | E => []
  | T c l _ k r => items l ++ (Some k, Color_name c) :: items r
  end.

Fixpoint cleft (cx : ctx) : list ref :=
  match cx with
  | Top => []
  | CL _ _ _ _ up => cleft up
  | CR _ l a _ up => cleft up ++ addrs l ++ [a]
  end.

Fixpoint cright (cx : ctx) : list ref :=
  match cx with
  | Top => []
  | CL _ a _ r up => a :: addrs r ++ cright up
  | CR _ _ _ _ up => cright up
  end.

Fixpoint kleft (cx : ctx) : list Z :=
  match cx with
  | Top => []
  | CL _ _ _ _ up => kleft up
  | CR _ l _ k up => kleft up ++ keys l ++ [k]
  end.

Fixpoint kright (cx : ctx) : list Z :=
  match cx with
  | Top => []
  | CL _ _ k r up => k :: keys r ++ kright up
  | CR _ _ _ _ up => kright up
  end.

Fixpoint height (t : tree) : nat :=
  match t with E => 0 | T _ l _ _ r => S (Nat.max (height l) (height r)) end.

Fixpoint depth (cx : ctx) : nat :=
  match cx with Top => 0 | CL _ _ _ _ up | CR _ _ _ _ up => S (depth up) end.

(** The store [h] holds the tree [t] below a node [p]: every node of [t]
    is the object at its reference, with its key, its colour, and the
    references of its parent and children. *)
Fixpoint repr (h : ref -> RBNode) (nil : ref) (t : tree) (p : ref) : Prop :=
  match t with
  | E => True
  | T c l a k r =>
      h a = mkNode (Some k) c (Some p) (Some (addr nil l)) (Some (addr nil r))
      /\ repr h nil l a /\ repr h nil r a
  end.

(** The store holds the path [cx], whose lowest node has the child [hole]
    on the side that was entered. *)
Fixpoint crepr (h : ref -> RBNode) (nil : ref) (cx : ctx) (hole : ref)
  : Prop :=
  match cx with
  | Top => True
  | CL c a k r up =>
      h a = mkNode (Some k) c (Some (caddr nil up)) (Some hole)
                   (Some (addr nil r))
      /\ repr h nil r a /\ crepr h nil up a
  | CR c l a k up =>
      h a = mkNode (Some k) c (Some (caddr nil up)) (Some (addr nil l))
                   (Some hole)
      /\ repr h nil l a /\ crepr h nil up a
  end.

(** The state [s] of a [RedBlackTree] object holds the tree [t]: the
    sentinel is as [__init__] built it, [root] is the root of [t], the nodes
    are distinct allocated objects, none of them the sentinel. *)
Definition Rep (s : RedBlackTree) (t : tree) : Prop :=
  objs s (NIL s) = NIL_node
  /\ root s = Some (addr (NIL s) t)
  /\ repr (objs s) (NIL s) t (NIL s)
  /\ NoDup (NIL s :: addrs t)
  /\ Forall (fun a => a < next_id s) (NIL s :: addrs t).

(** The same, for a tree given as a subtree and the path above it. *)
Definition RepZ (s : RedBlackTree) (t : tree) (cx : ctx) : Prop :=
  objs s (NIL s) = NIL_node
  /\ root s = Some (addr (NIL s) (plug t cx))
  /\ repr (objs s) (NIL s) t (caddr (NIL s) cx)
  /\ crepr (objs s) (NIL s) cx (addr (NIL s) t)
  /\ NoDup (NIL s :: cleft cx ++ addrs t ++ cright cx)
  /\ Forall (fun a => a < next_id s) (NIL s :: cleft cx ++ addrs t ++ cright cx).

(** ** Part V.  The methods as functions on the abstract view *)

Definition blacken (t : tree) : tree :=
  match t with E => E | T _ l a k r => T BLACK l a k r end.

Definition is_red (t : tree) : bool := Color_eqb (root_color t) RED.

(** The descent of [insert]: the path from the sentinel that the new node
    replaces up to the root. *)
Fixpoint fdescend (k : Z) (t : tree) (cx : ctx) : ctx :=
  match t with
  | E => cx
  | T c l a x r =>
      if Z.ltb k x then fdescend k l (CL c a x r cx)
      else fdescend k r (CR c l a x cx)
  end.

(** The tree after [bst_attach]: a red leaf [new] at the end of the
    descent. *)
Fixpoint leaf_insert (k : Z) (new : ref) (t : tree) : tree :=
  match t with
  | E => T RED E new k E
  | T c l a x r =>
      if Z.ltb k x then T c (leaf_insert k new l) a x r
      else T c l a x (leaf_insert k new r)
  end.

(** One pass of the loop of [_fix_insert] with [node] the root of [t] and
    [cx] the path above it, when the parent of [node] is red and has a
    parent itself. *)
Definition fix_step (t : tree) (cx : ctx) : tree * ctx :=
  match cx with
  | CL _ pa pk sib (CL _ ga gk unc up) =>
      if is_red unc
      then (T RED (T BLACK t pa pk sib) ga gk (blacken unc), up)
      else (t, CL BLACK pa pk (T RED sib ga gk unc) up)
  | CR pc sib pa pk (CL _ ga gk unc up) =>
      if is_red unc
      then (T RED (T BLACK sib pa pk t) ga gk (blacken unc), up)
      else
        match t with
        | T c tl a k tr =>
            (T pc sib pa pk tl, CL BLACK a k (T RED tr ga gk unc) up)
        | E => (t, cx)
        end
  | CR _ sib pa pk (CR _ unc ga gk up) =>
      if is_red unc
      then (T RED (blacken unc) ga gk (T BLACK sib pa pk t), up)
      else (t, CR BLACK (T RED unc ga gk sib) pa pk up)
  | CL pc pa pk sib (CR _ unc ga gk up) =>
      if is_red unc
      then (T RED (blacken unc) ga gk (T BLACK t pa pk sib), up)
      else
        match t with
        | T c tl a k tr =>
            (T pc tr pa pk sib, CR BLACK (T RED unc ga gk tl) a k up)
        | E => (t, cx)
        end
  | _ => (t, cx)
  end.

(** The loop of [_fix_insert]: passes are made as long as the parent of
    [node] is red; the result is the whole tree at the exit. *)
Fixpoint fix_tree (n : nat) (t : tree) (cx : ctx) : tree :=
  match n with
  | O => plug t cx
  | S n' =>
      if Color_eqb (head_color cx) RED
      then fix_tree n' (fst (fix_step t cx)) (snd (fix_step t cx))
      else plug t cx
  end.

(** [insert(k)], the new node being the object [new]. *)
Definition finsert (k : Z) (new : ref) (t : tree) : tree :=
  let cx := fdescend k t Top in
  blacken (fix_tree (S (depth cx)) (T RED E new k E) cx).

(** The nodes are numbered in the order of their allocation: the sentinel
    is object 0 and the n-th inserted key is object n. *)
Fixpoint finsert_all (ks : list Z) (new : ref) (t : tree) : tree :=
  match ks with
  | [] => t
  | k :: ks' => finsert_all ks' (S new) (finsert k new t)
  end.

Fixpoint fsearch (k : Z) (t : tree) : tree :=
  match t with
  | E => E
  | T _ l _ x r =>
      if Z.eqb k x then t
      else if Z.ltb k x then fsearch k l else fsearch k r
  end.

Definition black_bit (c : Color) : Z :=
  if Color_eqb c BLACK then 1%Z else 0%Z.

Fixpoint fbh (t : tree) : Z :=
  match t with
  | E => 0%Z
  | T c l _ _ r => (Z.max (fbh l) (fbh r) + black_bit c)%Z
  end.

Fixpoint fvalidate_helper (t : tree) (black_count expected : Z) : bool :=
  match t with
  | E => Z.eqb black_count expected
  | T c l _ _ r =>
      if Color_eqb c RED && (is_red l || is_red r) then false
      else
        fvalidate_helper l (black_count + black_bit c)%Z expected
        && fvalidate_helper r (black_count + black_bit c)%Z expected
  end.

Definition fvalidate (t : tree) : bool :=
  match t with
  | E => true
  | T c _ _ _ _ =>
      if negb (Color_eqb c BLACK) then false
      else fvalidate_helper t 0%Z (fbh t)
  end.

(** ** Part VI.  The red-black invariants on the abstract view *)

(** I3: no red node has a red child. *)
Fixpoint no_red_red (t : tree) : Prop :=
  match t with
  | E => True
  | T c l _ _ r =>
      (c = RED -> root_color l = BLACK /\ root_color r = BLACK)
      /\ no_red_red l /\ no_red_red r
  end.

(** The numbers of black nodes, the sentinel not counted, on the paths from
    the root of [t] down to each sentinel position, from left to right. *)
Fixpoint path_blacks (t : tree) : list Z :=
  match t with
  | E => [0%Z]
  | T c l _ _ r =>
      map (fun n => (n + black_bit c)%Z) (path_blacks l ++ path_blacks r)
  end.

(** I3 and I4 together, with the common number of black nodes. *)
Fixpoint rb (t : tree) (n : nat) : Prop :=
  match t with
  | E => n = 0
  | T RED l _ _ r =>
      root_color l = BLACK /\ root_color r = BLACK /\ rb l n /\ rb r n
  | T BLACK l _ _ r =>
      match n with
      | O => False
      | S m => rb l m /\ rb r m
      end
  end.

(** I2, I3 and I4. *)
Definition red_black (t : tree) : Prop :=
  root_color t = BLACK /\ exists n, rb t n.

(** The path above a subtree with [n] black nodes on each of its paths
    belongs to a red-black tree. *)
Fixpoint crb (cx : ctx) (n : nat) : Prop :=
  match cx with
  | Top => True
  | CL RED _ _ r up | CR RED r _ _ up =>
      root_color r = BLACK /\ rb r n
      /\ head_color up = BLACK /\ up <> Top /\ crb up n
  | CL BLACK _ _ r up | CR BLACK r _ _ up =>
      rb r n /\ crb up (S n)
  end.

(** A red node of the path is never the root. *)
Fixpoint red_below (cx : ctx) : Prop :=
  match cx with
  | Top => True
  | CL c _ _ _ up | CR c _ _ _ up => (c = RED -> up <> Top) /\ red_below up
  end.

(** The keys in symmetric order are non-decreasing. *)
Definition ordered (t : tree) : Prop := StronglySorted Z.le (keys t).

(** ** Part VII.  States, runs and relations used in the statements *)

(** Two lists of references have no reference in common. *)
Definition disjoint (l1 l2 : list ref) : Prop :=
  forall x, In x l1 -> In x l2 -> False.

(** The state after [setattr f (Some a)]. *)
Definition store_set (s : RedBlackTree) (a : ref) (f : RBNode -> RBNode)
  : RedBlackTree :=
  mkTree (upd (objs s) a (f (objs s a))) (next_id s) (NIL s) (root s).

(** The state after [set_root v]. *)
Definition root_set (s : RedBlackTree) (v : val) : RedBlackTree :=
  mkTree (objs s) (next_id s) (NIL s) v.

(** A computation that, when it returns, has changed no colour. *)
Definition keeps_colors {A} (m : M A) : Prop :=
  forall s a s', m s = Ok (a, s') ->
                 forall x, color (objs s' x) = color (objs s x).

(** The shape of the path when a pass can be made: a parent and a
    grandparent. *)
Definition has_grandparent (cx : ctx) : Prop :=
  match cx with
  | CL _ _ _ _ (CL _ _ _ _ _) | CL _ _ _ _ (CR _ _ _ _ _)
  | CR _ _ _ _ (CL _ _ _ _ _) | CR _ _ _ _ (CR _ _ _ _ _) => True
  | _ => False
  end.

(** The state after [alloc n]. *)
Definition alloc_state (s : RedBlackTree) (n : RBNode) : RedBlackTree :=
  mkTree (upd (objs s) (next_id s) n) (S (next_id s)) (NIL s) (root s).

(** The side on which the descent left the lowest node of the path agrees
    with the comparison of the keys. *)
Definition dir_ok (k : Z) (cx : ctx) : Prop :=
  match cx with
  | Top => True
  | CL _ _ x _ _ => Z.ltb k x = true
  | CR _ _ _ x _ => Z.ltb k x = false
  end.

(** [built ks s]: the state [s] is reached from a new tree by the calls
    [insert(k)] for the keys [k] of [ks], in that order. *)
Inductive built : list Z -> RedBlackTree -> Prop :=
| built_new : built [] new_tree
| built_insert ks s k s' :
    built ks s ->
    returns (fun fuel => insert fuel k s) (tt, s') ->
    built (ks ++ [k]) s'.

(** The abstract tree of a state built from the keys [ks]. *)
Definition tree_of (ks : list Z) : tree := finsert_all ks 1 E.

(** Concrete states, for the examples: the state after inserting [ks] into
    a new tree, every call run with the fuel [fuel]. *)
Fixpoint state_after (fuel : nat) (ks : list Z) (s : RedBlackTree)
  : RedBlackTree :=
  match ks with
  | [] => s
  | k :: ks' =>
      match insert fuel k s with
      | Ok (_, s') => state_after fuel ks' s'
      | _ => s
      end
  end.

(** Whether each of these calls returns with the fuel [fuel]. *)
Fixpoint runs_ok (fuel : nat) (ks : list Z) (s : RedBlackTree) : bool :=
  match ks with
  | [] => true
  | k :: ks' =>
      match insert fuel k s with
      | Ok (_, s') => runs_ok fuel ks' s'
      | _ => false
      end
  end.

(** The keys of the demonstration of the source. *)
Definition demo_keys : list Z := [20; 15; 25; 10; 5; 1; 17; 4; 34; 30]%Z.
Definition demo_state : RedBlackTree := state_after 12 demo_keys new_tree.

(** Two states are the same tree object: same attributes, same objects. *)
Definition same_state (s s' : RedBlackTree) : Prop :=
  NIL s = NIL s' /\ root s = root s' /\ next_id s = next_id s'
  /\ forall x, objs s x = objs s' x.

(** Two small trees for the examples: 2 below 1 on the right, and 1 below
    2 on the left. *)
Definition state_12 : RedBlackTree := state_after 5 [1; 2]%Z new_tree.
Definition state_21 : RedBlackTree := state_after 5 [2; 1]%Z new_tree.

(** The numbers of black nodes on the paths from the root of [t] down to
    each sentinel when the root itself is left out; the sentinel that ends
    a path is counted when [with_sentinel] is set. *)
Definition blacks_below (with_sentinel : bool) (t : tree) : list Z :=
  match t with
  | E => [0%Z]
  | T _ l _ _ r =>
      map (fun p => (p + if with_sentinel then 1 else 0)%Z)
          (path_blacks l ++ path_blacks r)
  end.

(** The keys 1 to 7 in ascending order, and the state after inserting
    them. *)
Definition ascending_keys : list Z := [1; 2; 3; 4; 5; 6; 7]%Z.
Definition ascending_state : RedBlackTree :=
  state_after 8 ascending_keys new_tree.

(** [fix_passes node s node' s']: from the local variable [node] and the
    state [s] at the head of the loop, some passes later (each one entered
    because the test of the loop held) the head is reached with [node'] and
    [s']. *)
Inductive fix_passes :
  val -> RedBlackTree -> val -> RedBlackTree -> Prop :=
| passes_none node s : fix_passes node s node s
| passes_more node s s0 node1 s1 node2 s2 :
    fix_guard node s = Ok (true, s0) ->
    fix_body node s0 = Ok (node1, s1) ->
    fix_passes node1 s1 node2 s2 ->
    fix_passes node s node2 s2.

(** What holds at the head of the loop: [node] is a node of the tree,
    and no red node on the path above it is the root. *)
Definition at_loop_head (node : val) (s : RedBlackTree) : Prop :=
  exists t cx,
    node = Some (addr (NIL s) t) /\ t <> E /\ RepZ s t cx /\ red_below cx.

(** [state_12] after the first part of [insert(3)]: the new node 3 hangs
    below the red node 2, and the repair has not begun. *)
Definition attached_3 : RedBlackTree :=
  match bst_attach 5 3%Z state_12 with
  | Ok (_, s) => s
  | _ => state_12
  end.

(** A computation that, when it returns, has left the state as it was. *)
Definition read_only {A} (m : M A) : Prop :=
  forall s r s', m s = Ok (r, s') -> s' = s.

(** A computation that, when it returns, has changed the key of no object,
    allocated nothing and kept the sentinel. *)
Definition keeps_data {A} (m : M A) : Prop :=
  forall s a s', m s = Ok (a, s') ->
                 NIL s' = NIL s /\ next_id s' = next_id s
                 /\ forall x, data (objs s' x) = data (objs s x).

(** [state_12] with node 2 painted black: the right path of the tree has
    one black node more than the left one. *)
Definition lopsided_state : RedBlackTree :=
  store_set state_12 2 (set_color BLACK).

(** ** Part VIII.  Stores and abstract trees *)

Lemma NoDup_app_iff {A} (l1 l2 : list A) :
  NoDup (l1 ++ l2) <->
  NoDup l1 /\ NoDup l2 /\ (forall x, In x l1 -> In x l2 -> False).
Proof.
  induction l1 as [|a l1 IH]; simpl.
  - split.
    + intros H. repeat split; auto. constructor.
    + tauto.
  - rewrite !NoDup_cons_iff, IH, in_app_iff. split.
    + intros [Hn [H1 [H2 H3]]]. repeat split; auto.
      intros x [->|Hx] Hx2; eauto.
    + intros [[Hn H1] [H2 H3]]. repeat split; eauto.
      intros [Hi|Hi]; eauto.
Qed.

Lemma upd_same h a n : upd h a n a = n.
Proof. unfold upd. now rewrite Nat.eqb_refl. Qed.

Lemma upd_other h a n x : x <> a -> upd h a n x = h x.
Proof. unfold upd. intros H. apply Nat.eqb_neq in H. now rewrite H. Qed.

Lemma val_eqb_Some a b : val_eqb (Some a) (Some b) = Nat.eqb a b.
Proof. reflexivity. Qed.

Lemma addrs_plug t cx : addrs (plug t cx) = cleft cx ++ addrs t ++ cright cx.
Proof.
  revert t. induction cx as [|c a k r up IH|c l a k up IH]; intros t; simpl.
  - now rewrite app_nil_r.
  - rewrite IH. simpl. now rewrite <- !app_assoc.
  - rewrite IH. simpl. now rewrite <- !app_assoc.
Qed.

Lemma keys_plug t cx : keys (plug t cx) = kleft cx ++ keys t ++ kright cx.
Proof.
  revert t. induction cx as [|c a k r up IH|c l a k up IH]; intros t; simpl.
  - now rewrite app_nil_r.
  - rewrite IH. simpl. now rewrite <- !app_assoc.
  - rewrite IH. simpl. now rewrite <- !app_assoc.
Qed.

Lemma addr_plug_node nil up :
  forall c l a k r c' l' k' r',
    addr nil (plug (T c l a k r) up) = addr nil (plug (T c' l' a k' r') up).
Proof.
  induction up as [|c0 a0 k0 r0 up IH|c0 l0 a0 k0 up IH]; intros; simpl;
    auto.
Qed.

Lemma addr_plug nil t t' cx :
  cx <> Top -> addr nil (plug t cx) = addr nil (plug t' cx).
Proof.
  intros H. destruct cx as [|c a k r up|c l a k up]; [congruence| |]; simpl;
    apply addr_plug_node.
Qed.

Lemma repr_plug h nil t cx :
  repr h nil (plug t cx) nil <->
  repr h nil t (caddr nil cx) /\ crepr h nil cx (addr nil t).
Proof.
  revert t. induction cx as [|c a k r up IH|c l a k up IH]; intros t; simpl.
  - tauto.
  - rewrite IH. simpl. tauto.
  - rewrite IH. simpl. tauto.
Qed.

Lemma Rep_plug s t cx : Rep s (plug t cx) <-> RepZ s t cx.
Proof.
  unfold Rep, RepZ. rewrite repr_plug, addrs_plug. tauto.
Qed.

Lemma RepZ_Top s t : RepZ s t Top <-> Rep s t.
Proof. now rewrite <- Rep_plug. Qed.

Lemma RepZ_CL s t c a k r up :
  RepZ s t (CL c a k r up) <-> RepZ s (T c t a k r) up.
Proof. now rewrite <- !Rep_plug. Qed.

Lemma RepZ_CR s t c l a k up :
  RepZ s t (CR c l a k up) <-> RepZ s (T c l a k t) up.
Proof. now rewrite <- !Rep_plug. Qed.

(** A store that agrees with [h] on the nodes of a tree, or of a path,
    holds the same tree, or path. *)
Lemma repr_frame h h' nil t p :
  (forall x, In x (addrs t) -> h' x = h x) ->
  repr h nil t p -> repr h' nil t p.
Proof.
  revert p. induction t as [|c l IHl a k r IHr]; intros p Hf; simpl; auto.
  intros [Ha [Hl Hr]]. repeat split.
  - rewrite Hf; auto. simpl. rewrite in_app_iff. simpl. auto.
  - apply IHl; auto. intros x Hx. apply Hf. simpl. rewrite in_app_iff. auto.
  - apply IHr; auto. intros x Hx. apply Hf. simpl. rewrite in_app_iff.
    simpl. auto.
Qed.

Lemma In_cons_iff {A} (a x : A) l : In x (a :: l) <-> a = x \/ In x l.
Proof. reflexivity. Qed.

Lemma In_nil_iff {A} (x : A) : In x [] <-> False.
Proof. reflexivity. Qed.

Ltac in_list :=
  cbn [addrs cleft cright keys kleft kright] in *;
  repeat (progress rewrite ?in_app_iff, ?In_cons_iff, ?In_nil_iff in * );
  tauto.

Lemma crepr_frame h h' nil cx hole :
  (forall x, In x (cleft cx ++ cright cx) -> h' x = h x) ->
  crepr h nil cx hole -> crepr h' nil cx hole.
Proof.
  revert hole. induction cx as [|c a k r up IH|c l a k up IH];
    intros hole Hf; simpl; auto.
  - intros [Ha [Hr Hup]]. repeat split.
    + rewrite Hf; auto. in_list.
    + apply repr_frame with (h := h); [|exact Hr].
      intros x Hx. apply Hf. in_list.
    + apply IH; auto. intros x Hx. apply Hf. in_list.
  - intros [Ha [Hl Hup]]. repeat split.
    + rewrite Hf; auto. in_list.
    + apply repr_frame with (h := h); [|exact Hl].
      intros x Hx. apply Hf. in_list.
    + apply IH; auto. intros x Hx. apply Hf. in_list.
Qed.

(** The child reference of the lowest node of a path can be redirected. *)
Lemma crepr_hole h h' nil cx hole hole' :
  (forall x, In x (cleft cx ++ cright cx) -> x <> caddr nil cx ->
             h' x = h x) ->
  NoDup (cleft cx ++ cright cx) ->
  match cx with
  | Top => True
  | CL _ a _ _ _ => h' a = set_left (Some hole') (h a)
  | CR _ _ a _ _ => h' a = set_right (Some hole') (h a)
  end ->
  crepr h nil cx hole -> crepr h' nil cx hole'.
Proof.
  destruct cx as [|c a k r up|c l a k up]; simpl; auto.
  - intros Hf Hnd Ha [Hha [Hr Hup]].
    rewrite NoDup_app_iff in Hnd. destruct Hnd as [Hnd1 [Hnd2 Hnd3]].
    rewrite NoDup_cons_iff, NoDup_app_iff, in_app_iff in Hnd2.
    destruct Hnd2 as [Hna [Hnr [Hnu Hru]]].
    repeat split.
    + rewrite Ha, Hha. reflexivity.
    + apply repr_frame with (h := h); [|exact Hr]. intros x Hx. apply Hf.
      * in_list.
      * intros ->. tauto.
    + apply crepr_frame with (h := h); [|exact Hup]. intros x Hx. apply Hf.
      * in_list.
      * intros ->. rewrite in_app_iff in Hx. destruct Hx as [Hx|Hx].
        -- apply (Hnd3 a); simpl; auto.
        -- tauto.
  - intros Hf Hnd Ha [Hha [Hl Hup]].
    rewrite NoDup_app_iff in Hnd. destruct Hnd as [Hnd1 [Hnd2 Hnd3]].
    rewrite NoDup_app_iff in Hnd1. destruct Hnd1 as [Hnu [Hnla Hula]].
    rewrite NoDup_app_iff in Hnla. destruct Hnla as [Hnl [_ Hla]].
    repeat split.
    + rewrite Ha, Hha. reflexivity.
    + apply repr_frame with (h := h); [|exact Hl]. intros x Hx. apply Hf.
      * in_list.
      * intros ->. apply (Hla a); simpl; auto.
    + apply crepr_frame with (h := h); [|exact Hup]. intros x Hx. apply Hf.
      * in_list.
      * intros ->. rewrite in_app_iff in Hx. destruct Hx as [Hx|Hx].
        -- apply (Hula a); auto. in_list.
        -- apply (Hnd3 a); auto. in_list.
Qed.

(** *** Distinct references *)

Lemma nd_cons (a : ref) l : NoDup (a :: l) -> ~ In a l /\ NoDup l.
Proof. apply NoDup_cons_iff. Qed.

Lemma nd_app (l1 l2 : list ref) :
  NoDup (l1 ++ l2) -> NoDup l1 /\ NoDup l2 /\ disjoint l1 l2.
Proof. apply NoDup_app_iff. Qed.

Lemma nin_app (a : ref) l1 l2 :
  ~ In a (l1 ++ l2) -> ~ In a l1 /\ ~ In a l2.
Proof. rewrite in_app_iff. tauto. Qed.

Lemma nin_cons (a b : ref) l : ~ In a (b :: l) -> a <> b /\ ~ In a l.
Proof. simpl. intuition congruence. Qed.

Lemma dj_app_l l1 l2 l : disjoint (l1 ++ l2) l -> disjoint l1 l /\ disjoint l2 l.
Proof.
  unfold disjoint. intros H. split; intros x Hx; apply H; in_list.
Qed.

Lemma dj_cons_l a l1 l : disjoint (a :: l1) l -> ~ In a l /\ disjoint l1 l.
Proof.
  unfold disjoint. intros H. split.
  - intros Ha. apply (H a); auto. now left.
  - intros x Hx. apply H. now right.
Qed.

Lemma dj_app_r l l1 l2 : disjoint l (l1 ++ l2) -> disjoint l l1 /\ disjoint l l2.
Proof.
  unfold disjoint. intros H. split; intros x Hx Hx'; apply (H x); auto;
    in_list.
Qed.

Lemma dj_cons_r a l l2 : disjoint l (a :: l2) -> ~ In a l /\ disjoint l l2.
Proof.
  unfold disjoint. intros H. split.
  - intros Ha. apply (H a); auto. now left.
  - intros x Hx Hx'. apply (H x); auto. now right.
Qed.

(** All the consequences of the [NoDup] and [~ In] hypotheses, down to the
    lists that are not built from others. *)
Ltac nd_facts :=
  cbn [addrs cleft cright] in *;
  repeat match goal with
    | H : NoDup (_ :: _) |- _ =>
        apply nd_cons in H; let H1 := fresh "Hn" in destruct H as [H1 H]
    | H : NoDup (_ ++ _) |- _ =>
        apply nd_app in H;
        let H1 := fresh "Hn" in let H2 := fresh "Hn" in
        destruct H as [H1 [H2 H]]
    | H : NoDup [] |- _ => clear H
    | H : ~ In _ (_ ++ _) |- _ =>
        apply nin_app in H; let H1 := fresh "Hn" in destruct H as [H1 H]
    | H : ~ In _ (_ :: _) |- _ =>
        apply nin_cons in H; let H1 := fresh "Hn" in destruct H as [H1 H]
    | H : ~ In _ [] |- _ => clear H
    | H : disjoint (_ ++ _) _ |- _ =>
        apply dj_app_l in H; let H1 := fresh "Hn" in destruct H as [H1 H]
    | H : disjoint (_ :: _) _ |- _ =>
        apply dj_cons_l in H; let H1 := fresh "Hn" in destruct H as [H1 H]
    | H : disjoint [] _ |- _ => clear H
    | H : disjoint _ (_ ++ _) |- _ =>
        apply dj_app_r in H; let H1 := fresh "Hn" in destruct H as [H1 H]
    | H : disjoint _ (_ :: _) |- _ =>
        apply dj_cons_r in H; let H1 := fresh "Hn" in destruct H as [H1 H]
    | H : disjoint _ [] |- _ => clear H
    end.

Lemma addr_cases nil t : addr nil t = nil \/ In (addr nil t) (addrs t).
Proof. destruct t; simpl; auto. right. in_list. Qed.

Lemma neq_addr a nil t : a <> nil -> ~ In a (addrs t) -> a <> addr nil t.
Proof. intros H1 H2 ->. destruct (addr_cases nil t); auto. Qed.

Ltac neq_nd :=
  solve [ assumption
        | apply not_eq_sym; assumption
        | apply neq_addr; [neq_nd|assumption]
        | apply not_eq_sym; apply neq_addr; [neq_nd|assumption] ].

(** *** Reading and writing a store that holds a tree *)

Lemma RepZ_node s c l a k r cx :
  RepZ s (T c l a k r) cx ->
  objs s a = mkNode (Some k) c (Some (caddr (NIL s) cx))
                    (Some (addr (NIL s) l)) (Some (addr (NIL s) r))
  /\ a <> NIL s.
Proof.
  intros (Hnil & Hroot & Hrep & Hcx & Hnd & Hlt). split.
  - apply Hrep.
  - nd_facts. neq_nd.
Qed.

Lemma RepZ_nil s t cx : RepZ s t cx -> objs s (NIL s) = NIL_node.
Proof. intros H. apply H. Qed.

Lemma RepZ_root_Top s t : RepZ s t Top -> root s = Some (addr (NIL s) t).
Proof. intros H. apply H. Qed.

Lemma RepZ_intro s s' t t' cx :
  RepZ s t cx ->
  NIL s' = NIL s -> next_id s' = next_id s ->
  addrs t' = addrs t ->
  objs s' (NIL s) = NIL_node ->
  repr (objs s') (NIL s) t' (caddr (NIL s) cx) ->
  crepr (objs s') (NIL s) cx (addr (NIL s) t') ->
  match cx with
  | Top => root s' = Some (addr (NIL s) t')
  | _ => root s' = root s
  end ->
  RepZ s' t' cx.
Proof.
  intros (Hnil & Hroot & Hrep & Hcx & Hnd & Hlt) HN Hnx Ha Hnil' Hrep' Hcx'
    Hhead.
  unfold RepZ. rewrite HN, Hnx, Ha. repeat split; auto.
  destruct cx as [|c a k r up|c l a k up].
  - exact Hhead.
  - rewrite Hhead, Hroot. f_equal. apply addr_plug. discriminate.
  - rewrite Hhead, Hroot. f_equal. apply addr_plug. discriminate.
Qed.

Lemma repr_store_set s a f nil t p :
  ~ In a (addrs t) ->
  repr (objs s) nil t p -> repr (objs (store_set s a f)) nil t p.
Proof.
  intros Ha. apply repr_frame. intros x Hx. apply upd_other.
  intros ->. contradiction.
Qed.

Lemma crepr_store_set s a f nil cx hole :
  ~ In a (cleft cx) -> ~ In a (cright cx) ->
  crepr (objs s) nil cx hole -> crepr (objs (store_set s a f)) nil cx hole.
Proof.
  intros Ha Hb. apply crepr_frame. intros x Hx. apply upd_other.
  intros ->. rewrite in_app_iff in Hx. tauto.
Qed.

Lemma repr_root_set s v nil t p :
  repr (objs s) nil t p -> repr (objs (root_set s v)) nil t p.
Proof. auto. Qed.

Lemma crepr_root_set s v nil cx hole :
  crepr (objs s) nil cx hole -> crepr (objs (root_set s v)) nil cx hole.
Proof. auto. Qed.

(** The parts of a store that an assignment does not reach. *)
Ltac frame :=
  repeat first
    [ assumption
    | apply repr_root_set
    | apply crepr_root_set
    | apply repr_store_set; [assumption|]
    | apply crepr_store_set; [assumption|assumption|] ].

(** *** Running the monad *)

Lemma setattr_Some f a s : setattr f (Some a) s = Ok (tt, store_set s a f).
Proof. reflexivity. Qed.

Lemma bind_getattr {A B} (f : RBNode -> A) a (k : A -> M B) s :
  bind (getattr f (Some a)) k s = k (f (objs s a)) s.
Proof. reflexivity. Qed.

Lemma bind_setattr {B} f a (k : unit -> M B) s :
  bind (setattr f (Some a)) k s = k tt (store_set s a f).
Proof. reflexivity. Qed.

Lemma bind_self_NIL {B} (k : val -> M B) s :
  bind self_NIL k s = k (Some (NIL s)) s.
Proof. reflexivity. Qed.

Lemma bind_self_root {B} (k : val -> M B) s :
  bind self_root k s = k (root s) s.
Proof. reflexivity. Qed.

Lemma bind_set_root {B} v (k : unit -> M B) s :
  bind (set_root v) k s = k tt (root_set s v).
Proof. reflexivity. Qed.

Lemma bind_ret {A B} (a : A) (k : A -> M B) s : bind (ret a) k s = k a s.
Proof. reflexivity. Qed.

Lemma bind_bind {A B C} (m : M A) (f : A -> M B) (g : B -> M C) s :
  bind (bind m f) g s = bind m (fun x => bind (f x) g) s.
Proof.
  unfold bind. destruct (m s) as [[a s']| |]; reflexivity.
Qed.

Lemma bind_Ok {A B} (m : M A) (k : A -> M B) s a s' :
  m s = Ok (a, s') -> bind m k s = k a s'.
Proof. unfold bind. now intros ->. Qed.

Lemma objs_store_set_same s a f : objs (store_set s a f) a = f (objs s a).
Proof. apply upd_same. Qed.

Lemma objs_store_set_other s a f x :
  x <> a -> objs (store_set s a f) x = objs s x.
Proof. apply upd_other. Qed.

Lemma NIL_store_set s a f : NIL (store_set s a f) = NIL s.
Proof. reflexivity. Qed.
Lemma root_store_set s a f : root (store_set s a f) = root s.
Proof. reflexivity. Qed.
Lemma next_id_store_set s a f : next_id (store_set s a f) = next_id s.
Proof. reflexivity. Qed.
Lemma objs_root_set s v : objs (root_set s v) = objs s.
Proof. reflexivity. Qed.
Lemma NIL_root_set s v : NIL (root_set s v) = NIL s.
Proof. reflexivity. Qed.
Lemma root_root_set s v : root (root_set s v) = v.
Proof. reflexivity. Qed.
Lemma next_id_root_set s v : next_id (root_set s v) = next_id s.
Proof. reflexivity. Qed.

Lemma eqb_neq_false a b : a <> b -> Nat.eqb a b = false.
Proof. apply Nat.eqb_neq. Qed.

(** One step of symbolic execution: the next monadic operation, then the
    reads it exposes, through the equations known for the store. *)
Ltac mstep :=
  first
    [ rewrite bind_bind
    | rewrite bind_getattr
    | rewrite bind_setattr
    | rewrite bind_self_NIL
    | rewrite bind_self_root
    | rewrite bind_set_root
    | rewrite bind_ret
    | rewrite setattr_Some
    | rewrite objs_store_set_same
    | rewrite objs_store_set_other by neq_nd
    | rewrite objs_root_set
    | rewrite NIL_store_set
    | rewrite NIL_root_set
    | rewrite root_store_set
    | rewrite root_root_set
    | rewrite next_id_store_set
    | rewrite next_id_root_set
    | match goal with
      | H : objs ?s ?a = _ |- context [objs ?s ?a] => rewrite H
      | H : root ?s = _ |- context [root ?s] => rewrite H
      end
    | rewrite val_eqb_Some
    | rewrite Nat.eqb_refl
    | rewrite eqb_neq_false by neq_nd
    | progress cbn [data color parent left right set_color set_parent
                    set_left set_right negb NIL_node addr caddr] ].

Ltac msimp := repeat mstep.

Lemma RepZ_set_color s c' c l a k r cx :
  RepZ s (T c l a k r) cx ->
  RepZ (store_set s a (set_color c')) (T c' l a k r) cx.
Proof.
  intros H. pose proof (RepZ_node H) as [Ha HaN].
  pose proof H as (Hnil & Hroot & Hrep & Hcx & Hnd & Hlt).
  destruct Hrep as (_ & Hl & Hr).
  apply RepZ_intro with (s := s) (t := T c l a k r); auto.
  - msimp. reflexivity.
  - nd_facts. cbn [repr]. repeat split; [msimp; reflexivity|frame|frame].
  - destruct cx as [|pc pa pk pr up|pc pl pa pk up]; cbn [crepr] in *; auto.
    + destruct Hcx as (Hpa & Hpr & Hup). nd_facts.
      repeat split; [msimp; reflexivity|frame|frame].
    + destruct Hcx as (Hpa & Hpl & Hup). nd_facts.
      repeat split; [msimp; reflexivity|frame|frame].
  - destruct cx; auto.
Qed.

Ltac rotate_post s0 t0 :=
  eexists; split; [reflexivity|]; split; [|split; [|split]];
  [ apply RepZ_intro with (s := s0) (t := t0);
    [ assumption
    | reflexivity
    | reflexivity
    | cbn [addrs]; rewrite <- ?app_assoc; cbn [app]; rewrite <- ?app_assoc;
      reflexivity
    | msimp; reflexivity
    | cbn [repr]; repeat split; try (msimp; reflexivity); frame
    | cbn [crepr]; repeat split; try (msimp; reflexivity); frame
    | msimp; reflexivity ]
  | reflexivity
  | reflexivity
  | let x := fresh "x" in let Hx := fresh "Hx" in
    intros x Hx; nd_facts; msimp; reflexivity ].

Lemma left_rotate_spec s cxc l a kx cy rl b ky rr cx :
  RepZ s (T cxc l a kx (T cy rl b ky rr)) cx ->
  exists s',
    _left_rotate (Some a) s = Ok (tt, s')
    /\ RepZ s' (T cy (T cxc l a kx rl) b ky rr) cx
    /\ NIL s' = NIL s /\ next_id s' = next_id s
    /\ (forall x, ~ In x (NIL s :: cleft cx ++
                         addrs (T cxc l a kx (T cy rl b ky rr)) ++ cright cx) ->
                  objs s' x = objs s x).
Proof.
  intros H.
  pose proof H as (Hnil & Hroot & Hrep & Hcx & Hnd & Hlt).
  unfold _left_rotate.
  destruct rl as [|rlc rll rla rlk rlr];
    destruct cx as [|pc pa pk pr up|pc pl pa pk up];
    cbn [repr crepr addr caddr] in *;
    repeat match goal with
      | H : _ /\ _ |- _ => destruct H
      end; pose proof Hnd as Hnd'; nd_facts; msimp.
  - rotate_post s (T cxc l a kx (T cy E b ky rr)). 
  - rotate_post s (T cxc l a kx (T cy E b ky rr)). 
  - rotate_post s (T cxc l a kx (T cy E b ky rr)). 
  - rotate_post s (T cxc l a kx (T cy (T rlc rll rla rlk rlr) b ky rr)). 
  - rotate_post s (T cxc l a kx (T cy (T rlc rll rla rlk rlr) b ky rr)). 
  - rotate_post s (T cxc l a kx (T cy (T rlc rll rla rlk rlr) b ky rr)). 
Qed.

Lemma right_rotate_spec s cxc ll b ky lr cy a kx r cx :
  RepZ s (T cxc (T cy ll b ky lr) a kx r) cx ->
  exists s',
    _right_rotate (Some a) s = Ok (tt, s')
    /\ RepZ s' (T cy ll b ky (T cxc lr a kx r)) cx
    /\ NIL s' = NIL s /\ next_id s' = next_id s
    /\ (forall x, ~ In x (NIL s :: cleft cx ++
                         addrs (T cxc (T cy ll b ky lr) a kx r) ++ cright cx) ->
                  objs s' x = objs s x).
Proof.
  intros H.
  pose proof H as (Hnil & Hroot & Hrep & Hcx & Hnd & Hlt).
  unfold _right_rotate.
  destruct lr as [|lrc lrl lra lrk lrr];
    destruct cx as [|pc pa pk pr up|pc pl pa pk up];
    cbn [repr crepr addr caddr] in *;
    repeat match goal with
      | H : _ /\ _ |- _ => destruct H
      end; pose proof Hnd as Hnd'; nd_facts; msimp.
  - rotate_post s (T cxc (T cy ll b ky E) a kx r).
  - rotate_post s (T cxc (T cy ll b ky E) a kx r).
  - rotate_post s (T cxc (T cy ll b ky E) a kx r).
  - rotate_post s (T cxc (T cy ll b ky (T lrc lrl lra lrk lrr)) a kx r).
  - rotate_post s (T cxc (T cy ll b ky (T lrc lrl lra lrk lrr)) a kx r).
  - rotate_post s (T cxc (T cy ll b ky (T lrc lrl lra lrk lrr)) a kx r).
Qed.

(** *** Rotations leave every colour as it is *)

Lemma keeps_bind {A B} (m : M A) (f : A -> M B) :
  keeps_colors m -> (forall a, keeps_colors (f a)) -> keeps_colors (bind m f).
Proof.
  unfold keeps_colors, bind. intros Hm Hf s b s'.
  destruct (m s) as [[a s1]| |] eqn:E; try discriminate.
  intros H x. rewrite (Hf a s1 b s' H x). apply (Hm s a s1 E).
Qed.

Lemma keeps_getattr {A} (f : RBNode -> A) v : keeps_colors (getattr f v).
Proof.
  unfold keeps_colors, getattr. intros s a s'. destruct v; try discriminate.
  intros H. now inversion H.
Qed.

Lemma keeps_ret {A} (a : A) : keeps_colors (ret a).
Proof. unfold keeps_colors, ret. intros s b s' H. now inversion H. Qed.

Lemma keeps_self_NIL : keeps_colors self_NIL.
Proof. unfold keeps_colors, self_NIL. intros s b s' H. now inversion H. Qed.

Lemma keeps_set_root v : keeps_colors (set_root v).
Proof. unfold keeps_colors, set_root. intros s b s' H. now inversion H. Qed.

Lemma keeps_setattr f v :
  (forall n, color (f n) = color n) -> keeps_colors (setattr f v).
Proof.
  unfold keeps_colors, setattr. intros Hf s a s'. destruct v; try discriminate.
  intros H x. inversion H; subst. simpl. unfold upd.
  destruct (Nat.eqb_spec x r); subst; auto.
Qed.

Lemma keeps_if {A} (b : bool) (m1 m2 : M A) :
  keeps_colors m1 -> keeps_colors m2 -> keeps_colors (if b then m1 else m2).
Proof. now destruct b. Qed.

Ltac keeps :=
  repeat first
    [ apply keeps_bind; [|intros ?]
    | apply keeps_getattr
    | apply keeps_ret
    | apply keeps_self_NIL
    | apply keeps_set_root
    | apply keeps_setattr; reflexivity
    | apply keeps_if ].

Lemma left_rotate_keeps_colors x : keeps_colors (_left_rotate x).
Proof. unfold _left_rotate. keeps. Qed.

Lemma right_rotate_keeps_colors x : keeps_colors (_right_rotate x).
Proof. unfold _right_rotate. keeps. Qed.

(** *** One pass of the loop of [_fix_insert] *)

Lemma RepZ_up_L s t c a k r up :
  RepZ s t (CL c a k r up) -> RepZ s (T c t a k r) up.
Proof. apply RepZ_CL. Qed.

Lemma RepZ_up_R s t c l a k up :
  RepZ s t (CR c l a k up) -> RepZ s (T c l a k t) up.
Proof. apply RepZ_CR. Qed.

Lemma RepZ_down_L s t c a k r up :
  RepZ s (T c t a k r) up -> RepZ s t (CL c a k r up).
Proof. apply RepZ_CL. Qed.

Lemma RepZ_down_R s t c l a k up :
  RepZ s (T c l a k t) up -> RepZ s t (CR c l a k up).
Proof. apply RepZ_CR. Qed.

Lemma RepZ_addr s t cx :
  RepZ s t cx ->
  objs s (addr (NIL s) t)
  = match t with
    | E => NIL_node
    | T c l a k r =>
        mkNode (Some k) c (Some (caddr (NIL s) cx))
               (Some (addr (NIL s) l)) (Some (addr (NIL s) r))
    end.
Proof.
  destruct t; intros H.
  - apply H.
  - apply (RepZ_node H).
Qed.

Lemma fix_body_LL s c l a k r pc pa pk sib gc ga gk unc up :
  let t := T c l a k r in
  let cx := CL pc pa pk sib (CL gc ga gk unc up) in
  RepZ s t cx ->
  exists s',
    fix_body (Some a) s
    = Ok (Some (addr (NIL s) (fst (fix_step t cx))), s')
    /\ RepZ s' (fst (fix_step t cx)) (snd (fix_step t cx))
    /\ NIL s' = NIL s /\ next_id s' = next_id s.
Proof.
  intros t cx H. subst t cx.
  pose proof (RepZ_node H) as [Ha HaN].
  pose proof (RepZ_up_L H) as Hp. pose proof (RepZ_node Hp) as [Hpa HpN].
  pose proof (RepZ_up_L Hp) as Hg. pose proof (RepZ_node Hg) as [Hga HgN].
  pose proof (RepZ_down_R Hg) as Hu. pose proof (RepZ_addr Hu) as Hua.
  pose proof H as (Hnil & _ & _ & _ & Hnd & _).
  nd_facts. unfold fix_body. msimp.
  destruct unc as [|[|] ul ua uk ur];
    cbn [fix_step is_red root_color Color_eqb fst snd blacken addr color
         NIL_node] in *;
    nd_facts; msimp.
  - pose proof (RepZ_set_color RED (RepZ_up_L (RepZ_set_color BLACK Hp)))
      as H2.
    destruct (right_rotate_spec H2) as (s' & Hrot & H3 & HN & Hnx & _).
    exists s'. rewrite (@bind_Ok _ _ _ _ _ _ _ Hrot).
    split; [reflexivity|]. split; [apply RepZ_down_L; exact H3|].
    split; [exact HN|exact Hnx].
  - eexists. split; [reflexivity|]. split; [|split; reflexivity].
    eapply RepZ_set_color, RepZ_up_R, RepZ_set_color, RepZ_down_R,
      RepZ_up_L, RepZ_set_color. exact Hp.
  - pose proof (RepZ_set_color RED (RepZ_up_L (RepZ_set_color BLACK Hp)))
      as H2.
    destruct (right_rotate_spec H2) as (s' & Hrot & H3 & HN & Hnx & _).
    exists s'. rewrite (@bind_Ok _ _ _ _ _ _ _ Hrot).
    split; [reflexivity|]. split; [apply RepZ_down_L; exact H3|].
    split; [exact HN|exact Hnx].
Qed.

Lemma fix_body_LR s c l a k r pc pa pk sib gc ga gk unc up :
  let t := T c l a k r in
  let cx := CR pc sib pa pk (CL gc ga gk unc up) in
  RepZ s t cx ->
  exists s',
    fix_body (Some a) s
    = Ok (Some (addr (NIL s) (fst (fix_step t cx))), s')
    /\ RepZ s' (fst (fix_step t cx)) (snd (fix_step t cx))
    /\ NIL s' = NIL s /\ next_id s' = next_id s.
Proof.
  intros t cx H. subst t cx.
  pose proof (RepZ_node H) as [Ha HaN].
  pose proof (RepZ_up_R H) as Hp. pose proof (RepZ_node Hp) as [Hpa HpN].
  pose proof (RepZ_up_L Hp) as Hg. pose proof (RepZ_node Hg) as [Hga HgN].
  pose proof (RepZ_down_R Hg) as Hu. pose proof (RepZ_addr Hu) as Hua.
  pose proof H as (Hnil & _ & _ & _ & Hnd & _).
  nd_facts. unfold fix_body. msimp.
  assert (Hblack :
    exists s',
      (_left_rotate (Some pa);;;
       node <- ret (Some pa);;
       p <- getattr parent node;;
       setattr (set_color BLACK) p;;;
       p0 <- getattr parent node;;
       g <- getattr parent p0;;
       setattr (set_color RED) g;;;
       p1 <- getattr parent node;;
       g0 <- getattr parent p1;; _right_rotate g0;;; ret node) s
      = Ok (Some pa, s')
      /\ RepZ s' (T pc sib pa pk l) (CL BLACK a k (T RED r ga gk unc) up)
      /\ NIL s' = NIL s /\ next_id s' = next_id s).
  { destruct (left_rotate_spec Hp) as (s1 & Hrot1 & H1 & HN1 & Hnx1 & _).
    rewrite (@bind_Ok _ _ _ _ _ _ _ Hrot1). clear Ha Hpa Hga Hua Hnil.
    rewrite <- HN1 in *.
    pose proof (RepZ_node H1) as [Ha _].
    pose proof (RepZ_node (RepZ_down_L H1)) as [Hpa _].
    pose proof (RepZ_node (RepZ_up_L H1)) as [Hga _].
    msimp.
    pose proof (RepZ_set_color RED (RepZ_up_L (RepZ_set_color BLACK H1)))
      as H2.
    destruct (right_rotate_spec H2) as (s' & Hrot & H3 & HN & Hnx & _).
    exists s'. rewrite (@bind_Ok _ _ _ _ _ _ _ Hrot).
    split; [reflexivity|]. split; [apply RepZ_down_L; exact H3|].
    split; [exact HN|rewrite <- Hnx1; exact Hnx]. }
  destruct unc as [|[|] ul ua uk ur];
    cbn [fix_step is_red root_color Color_eqb fst snd blacken addr color
         NIL_node] in *;
    nd_facts; msimp.
  - exact Hblack.
  - eexists. split; [reflexivity|]. split; [|split; reflexivity].
    eapply RepZ_set_color, RepZ_up_R, RepZ_set_color, RepZ_down_R,
      RepZ_up_L, RepZ_set_color. exact Hp.
  - exact Hblack.
Qed.

Lemma fix_body_RR s c l a k r pc pa pk sib gc ga gk unc up :
  let t := T c l a k r in
  let cx := CR pc sib pa pk (CR gc unc ga gk up) in
  RepZ s t cx ->
  exists s',
    fix_body (Some a) s
    = Ok (Some (addr (NIL s) (fst (fix_step t cx))), s')
    /\ RepZ s' (fst (fix_step t cx)) (snd (fix_step t cx))
    /\ NIL s' = NIL s /\ next_id s' = next_id s.
Proof.
  intros t cx H. subst t cx.
  pose proof (RepZ_node H) as [Ha HaN].
  pose proof (RepZ_up_R H) as Hp. pose proof (RepZ_node Hp) as [Hpa HpN].
  pose proof (RepZ_up_R Hp) as Hg. pose proof (RepZ_node Hg) as [Hga HgN].
  pose proof (RepZ_down_L Hg) as Hu. pose proof (RepZ_addr Hu) as Hua.
  pose proof H as (Hnil & _ & _ & _ & Hnd & _).
  nd_facts. unfold fix_body. msimp.
  destruct unc as [|[|] ul ua uk ur];
    cbn [fix_step is_red root_color Color_eqb fst snd blacken addr color
         NIL_node] in *;
    nd_facts; msimp.
  - pose proof (RepZ_set_color RED (RepZ_up_R (RepZ_set_color BLACK Hp)))
      as H2.
    destruct (left_rotate_spec H2) as (s' & Hrot & H3 & HN & Hnx & _).
    exists s'. rewrite (@bind_Ok _ _ _ _ _ _ _ Hrot).
    split; [reflexivity|]. split; [apply RepZ_down_R; exact H3|].
    split; [exact HN|exact Hnx].
  - eexists. split; [reflexivity|]. split; [|split; reflexivity].
    eapply RepZ_set_color, RepZ_up_L, RepZ_set_color, RepZ_down_L,
      RepZ_up_R, RepZ_set_color. exact Hp.
  - pose proof (RepZ_set_color RED (RepZ_up_R (RepZ_set_color BLACK Hp)))
      as H2.
    destruct (left_rotate_spec H2) as (s' & Hrot & H3 & HN & Hnx & _).
    exists s'. rewrite (@bind_Ok _ _ _ _ _ _ _ Hrot).
    split; [reflexivity|]. split; [apply RepZ_down_R; exact H3|].
    split; [exact HN|exact Hnx].
Qed.

Lemma fix_body_RL s c l a k r pc pa pk sib gc ga gk unc up :
  let t := T c l a k r in
  let cx := CL pc pa pk sib (CR gc unc ga gk up) in
  RepZ s t cx ->
  exists s',
    fix_body (Some a) s
    = Ok (Some (addr (NIL s) (fst (fix_step t cx))), s')
    /\ RepZ s' (fst (fix_step t cx)) (snd (fix_step t cx))
    /\ NIL s' = NIL s /\ next_id s' = next_id s.
Proof.
  intros t cx H. subst t cx.
  pose proof (RepZ_node H) as [Ha HaN].
  pose proof (RepZ_up_L H) as Hp. pose proof (RepZ_node Hp) as [Hpa HpN].
  pose proof (RepZ_up_R Hp) as Hg. pose proof (RepZ_node Hg) as [Hga HgN].
  pose proof (RepZ_down_L Hg) as Hu. pose proof (RepZ_addr Hu) as Hua.
  pose proof H as (Hnil & _ & _ & _ & Hnd & _).
  nd_facts. unfold fix_body. msimp.
  assert (Hblack :
    exists s',
      (_right_rotate (Some pa);;;
       node <- ret (Some pa);;
       p <- getattr parent node;;
       setattr (set_color BLACK) p;;;
       p0 <- getattr parent node;;
       g <- getattr parent p0;;
       setattr (set_color RED) g;;;
       p1 <- getattr parent node;;
       g0 <- getattr parent p1;; _left_rotate g0;;; ret node) s
      = Ok (Some pa, s')
      /\ RepZ s' (T pc r pa pk sib) (CR BLACK (T RED unc ga gk l) a k up)
      /\ NIL s' = NIL s /\ next_id s' = next_id s).
  { destruct (right_rotate_spec Hp) as (s1 & Hrot1 & H1 & HN1 & Hnx1 & _).
    rewrite (@bind_Ok _ _ _ _ _ _ _ Hrot1). clear Ha Hpa Hga Hua Hnil.
    rewrite <- HN1 in *.
    pose proof (RepZ_node H1) as [Ha _].
    pose proof (RepZ_node (RepZ_down_R H1)) as [Hpa _].
    pose proof (RepZ_node (RepZ_up_R H1)) as [Hga _].
    msimp.
    pose proof (RepZ_set_color RED (RepZ_up_R (RepZ_set_color BLACK H1)))
      as H2.
    destruct (left_rotate_spec H2) as (s' & Hrot & H3 & HN & Hnx & _).
    exists s'. rewrite (@bind_Ok _ _ _ _ _ _ _ Hrot).
    split; [reflexivity|]. split; [apply RepZ_down_R; exact H3|].
    split; [exact HN|rewrite <- Hnx1; exact Hnx]. }
  destruct unc as [|[|] ul ua uk ur];
    cbn [fix_step is_red root_color Color_eqb fst snd blacken addr color
         NIL_node] in *;
    nd_facts; msimp.
  - exact Hblack.
  - eexists. split; [reflexivity|]. split; [|split; reflexivity].
    eapply RepZ_set_color, RepZ_up_L, RepZ_set_color, RepZ_down_L,
      RepZ_up_R, RepZ_set_color. exact Hp.
  - exact Hblack.
Qed.

(** The pass, for every shape of the path. *)
Lemma fix_body_spec s t cx :
  t <> E -> has_grandparent cx -> RepZ s t cx ->
  exists s',
    fix_body (Some (addr (NIL s) t)) s
    = Ok (Some (addr (NIL s) (fst (fix_step t cx))), s')
    /\ RepZ s' (fst (fix_step t cx)) (snd (fix_step t cx))
    /\ NIL s' = NIL s /\ next_id s' = next_id s.
Proof.
  intros Ht Hg H. destruct t as [|c l a k r]; [congruence|].
  destruct cx as [|pc pa pk sib [|gc ga gk unc up|gc unc ga gk up]
                  |pc sib pa pk [|gc ga gk unc up|gc unc ga gk up]];
    try contradiction.
  - apply fix_body_LL; auto.
  - apply fix_body_RL; auto.
  - apply fix_body_LR; auto.
  - apply fix_body_RR; auto.
Qed.

(** *** The loop of [_fix_insert] *)

Lemma fix_guard_spec s t cx :
  t <> E -> RepZ s t cx ->
  fix_guard (Some (addr (NIL s) t)) s
  = Ok (Color_eqb (head_color cx) RED, s).
Proof.
  intros Ht H. destruct t as [|c l a k r]; [congruence|].
  pose proof (RepZ_node H) as [Ha HaN]. unfold fix_guard.
  destruct cx as [|pc pa pk sib up|pc sib pa pk up].
  - pose proof (RepZ_nil H) as Hnil. msimp. reflexivity.
  - pose proof (RepZ_node (RepZ_up_L H)) as [Hpa _]. msimp. reflexivity.
  - pose proof (RepZ_node (RepZ_up_R H)) as [Hpa _]. msimp. reflexivity.
Qed.

Lemma red_has_grandparent cx :
  red_below cx -> head_color cx = RED -> has_grandparent cx.
Proof.
  destruct cx as [|pc pa pk sib up|pc sib pa pk up]; simpl.
  - discriminate.
  - intros [H _] Hc. specialize (H Hc). destruct up; simpl; auto.
  - intros [H _] Hc. specialize (H Hc). destruct up; simpl; auto.
Qed.

Lemma fix_step_props t cx :
  t <> E -> has_grandparent cx -> red_below cx ->
  fst (fix_step t cx) <> E
  /\ red_below (snd (fix_step t cx))
  /\ S (depth (snd (fix_step t cx))) <= depth cx.
Proof.
  intros Ht Hg Hr. destruct t as [|c l a k r]; [congruence|].
  destruct cx as [|pc pa pk sib [|gc ga gk unc up|gc unc ga gk up]
                  |pc sib pa pk [|gc ga gk unc up|gc unc ga gk up]];
    try contradiction; cbn [fix_step]; destruct (is_red unc);
    cbn [fst snd depth red_below] in *;
    repeat split; try discriminate; try tauto; try lia.
Qed.

Lemma plug_not_E t cx : t <> E -> plug t cx <> E.
Proof.
  revert t. induction cx as [|c a k r up IH|c l a k up IH]; intros t Ht;
    simpl; auto; apply IH; discriminate.
Qed.

Lemma fix_tree_not_E n : forall t cx,
  t <> E -> red_below cx -> fix_tree n t cx <> E.
Proof.
  induction n as [|n IH]; intros t cx Ht Hr; simpl.
  - now apply plug_not_E.
  - destruct (Color_eqb (head_color cx) RED) eqn:Hc.
    + assert (Hg : has_grandparent cx).
      { apply red_has_grandparent; auto. destruct (head_color cx); auto.
        discriminate. }
      destruct (@fix_step_props _ _ Ht Hg Hr) as (H1 & H2 & _). now apply IH.
    + now apply plug_not_E.
Qed.

(** More passes than the path is long are never made. *)
Lemma fix_tree_fuel n : forall m t cx,
  t <> E -> red_below cx -> depth cx < n -> depth cx < m ->
  fix_tree n t cx = fix_tree m t cx.
Proof.
  induction n as [|n IH]; intros m t cx Ht Hr Hn Hm; [lia|].
  destruct m as [|m]; [lia|]. simpl.
  destruct (Color_eqb (head_color cx) RED) eqn:Hc; auto.
  assert (Hg : has_grandparent cx).
  { apply red_has_grandparent; auto. destruct (head_color cx); auto.
    discriminate. }
  destruct (@fix_step_props _ _ Ht Hg Hr) as (H1 & H2 & H3).
  apply IH; auto; lia.
Qed.

Lemma fix_loop_spec fuel : forall t cx s,
  depth cx < fuel -> t <> E -> red_below cx -> RepZ s t cx ->
  exists s',
    fix_loop fuel (Some (addr (NIL s) t)) s = Ok (tt, s')
    /\ Rep s' (fix_tree fuel t cx)
    /\ NIL s' = NIL s /\ next_id s' = next_id s.
Proof.
  induction fuel as [|fuel IH]; intros t cx s Hd Ht Hr H; [lia|].
  cbn [fix_loop fix_tree].
  rewrite (@bind_Ok _ _ _ _ _ _ _ (fix_guard_spec Ht H)).
  destruct (Color_eqb (head_color cx) RED) eqn:Hc.
  - assert (Hg : has_grandparent cx).
    { apply red_has_grandparent; auto. destruct (head_color cx); auto.
      discriminate. }
    destruct (@fix_step_props _ _ Ht Hg Hr) as (H1 & H2 & H3).
    destruct (fix_body_spec Ht Hg H) as (s1 & Hb & Hrep1 & HN1 & Hnx1).
    rewrite (@bind_Ok _ _ _ _ _ _ _ Hb). rewrite <- HN1.
    assert (Hd1 : depth (snd (fix_step t cx)) < fuel) by lia.
    destruct (IH _ _ s1 Hd1 H1 H2 Hrep1) as (s' & Hl & Hrep' & HN & Hnx).
    exists s'. split; [exact Hl|]. split; [exact Hrep'|].
    split; congruence.
  - exists s. split; [reflexivity|]. split; [|split; reflexivity].
    now apply Rep_plug.
Qed.

Lemma Rep_blacken s t :
  t <> E -> Rep s t ->
  exists s',
    (r <- self_root ;; setattr (set_color BLACK) r) s = Ok (tt, s')
    /\ Rep s' (blacken t)
    /\ NIL s' = NIL s /\ next_id s' = next_id s.
Proof.
  intros Ht H. destruct t as [|c l a k r]; [congruence|].
  apply RepZ_Top in H. pose proof (RepZ_root_Top H) as Hroot.
  cbn [addr] in Hroot. msimp.
  eexists. split; [reflexivity|]. split; [|split; reflexivity].
  apply RepZ_Top. cbn [blacken]. eapply RepZ_set_color. exact H.
Qed.

Lemma fix_insert_spec fuel t cx s :
  depth cx < fuel -> t <> E -> red_below cx -> RepZ s t cx ->
  exists s',
    _fix_insert fuel (Some (addr (NIL s) t)) s = Ok (tt, s')
    /\ Rep s' (blacken (fix_tree fuel t cx))
    /\ NIL s' = NIL s /\ next_id s' = next_id s.
Proof.
  intros Hd Ht Hr H. unfold _fix_insert.
  destruct (fix_loop_spec Hd Ht Hr H) as (s1 & Hl & Hrep1 & HN1 & Hnx1).
  rewrite (@bind_Ok _ _ _ _ _ _ _ Hl).
  destruct (Rep_blacken (@fix_tree_not_E fuel _ _ Ht Hr) Hrep1)
    as (s' & Hb & Hrep' & HN & Hnx).
  exists s'. split; [exact Hb|]. split; [exact Hrep'|]. split; congruence.
Qed.

(** *** Allocation and attachment of the new node *)

Lemma bind_alloc {B} n (k : val -> M B) s :
  bind (alloc n) k s = k (Some (next_id s)) (alloc_state s n).
Proof. reflexivity. Qed.

Lemma RepZ_fresh s t cx :
  RepZ s t cx ->
  next_id s <> NIL s
  /\ ~ In (next_id s) (cleft cx ++ addrs t ++ cright cx).
Proof.
  intros (_ & _ & _ & _ & _ & Hlt).
  rewrite Forall_forall in Hlt. split.
  - intros Heq. specialize (Hlt (NIL s) (or_introl eq_refl)). lia.
  - intros Hin. specialize (Hlt (next_id s) (or_intror Hin)). lia.
Qed.

Lemma RepZ_alloc s t cx n :
  RepZ s t cx -> RepZ (alloc_state s n) t cx.
Proof.
  intros H. destruct (RepZ_fresh H) as [Hf1 Hf2].
  destruct H as (Hnil & Hroot & Hrep & Hcx & Hnd & Hlt).
  unfold RepZ, alloc_state. cbn [objs NIL root next_id].
  rewrite !in_app_iff in Hf2.
  repeat split; auto.
  - rewrite upd_other; auto.
  - apply repr_frame with (h := objs s); auto. intros x Hx.
    apply upd_other. intros ->. tauto.
  - apply crepr_frame with (h := objs s); auto. intros x Hx.
    apply upd_other. intros ->. rewrite in_app_iff in Hx. tauto.
  - eapply Forall_impl; [|exact Hlt]. simpl. intros. lia.
Qed.

Lemma fdescend_dir k t : forall cx, dir_ok k cx -> dir_ok k (fdescend k t cx).
Proof.
  induction t as [|c l IHl a x r IHr]; intros cx H; simpl; auto.
  destruct (Z.ltb k x) eqn:Hlt; [apply IHl|apply IHr]; exact Hlt.
Qed.

Lemma fdescend_depth k t : forall cx,
  depth (fdescend k t cx) <= depth cx + height t.
Proof.
  induction t as [|c l IHl a x r IHr]; intros cx; simpl; [lia|].
  destruct (Z.ltb k x).
  - specialize (IHl (CL c a x r cx)). simpl in IHl. lia.
  - specialize (IHr (CR c l a x cx)). simpl in IHr. lia.
Qed.

Lemma fdescend_red_below k t : forall cx,
  red_below cx -> (cx = Top -> root_color t = BLACK) ->
  red_below (fdescend k t cx).
Proof.
  induction t as [|c l IHl a x r IHr]; intros cx H Htop; simpl; auto.
  destruct (Z.ltb k x); [apply IHl|apply IHr]; simpl;
    try discriminate; (split; [|exact H]); intros -> ->;
    specialize (Htop eq_refl); discriminate.
Qed.

Lemma plug_fdescend k t : forall cx, plug E (fdescend k t cx) = plug t cx.
Proof.
  induction t as [|c l IHl a x r IHr]; intros cx; simpl; auto.
  destruct (Z.ltb k x); [rewrite IHl|rewrite IHr]; reflexivity.
Qed.

Lemma plug_leaf_insert k new t : forall cx,
  plug (T RED E new k E) (fdescend k t cx) = plug (leaf_insert k new t) cx.
Proof.
  induction t as [|c l IHl a x r IHr]; intros cx; simpl; auto.
  destruct (Z.ltb k x); [rewrite IHl|rewrite IHr]; reflexivity.
Qed.

Lemma descend_spec k new s t : forall cx fuel,
  height t < fuel ->
  RepZ s t cx ->
  data (objs s new) = Some k ->
  descend fuel (Some new) (Some (caddr (NIL s) cx)) (Some (addr (NIL s) t)) s
  = Ok (Some (caddr (NIL s) (fdescend k t cx)), s).
Proof.
  induction t as [|c l IHl a x r IHr]; intros cx fuel Hf H Hnew;
    (destruct fuel as [|fuel]; [simpl in Hf; lia|]); cbn [descend fdescend].
  - msimp. reflexivity.
  - pose proof (RepZ_node H) as [Ha HaN]. simpl in Hf.
    msimp. rewrite Hnew. msimp. cbn [py_lt]. msimp.
    destruct (Z.ltb k x).
    + msimp. apply (IHl (CL c a x r cx)); auto; [lia|].
      now apply RepZ_down_L.
    + msimp. apply (IHr (CR c l a x cx)); auto; [lia|].
      now apply RepZ_down_R.
Qed.

Lemma NoDup_middle (x : ref) l1 l2 :
  NoDup (l1 ++ l2) -> ~ In x (l1 ++ l2) -> NoDup (l1 ++ x :: l2).
Proof.
  intros H Hx. apply Permutation_NoDup with (l := x :: l1 ++ l2).
  - apply Permutation_middle.
  - now constructor.
Qed.

Lemma Forall_middle (P : ref -> Prop) x l1 l2 :
  Forall P (l1 ++ l2) -> P x -> Forall P (l1 ++ x :: l2).
Proof.
  rewrite !Forall_app. intros [H1 H2] Hx. split; auto.
Qed.

Lemma attach_spec k new s cx :
  RepZ s E cx ->
  objs s new = mkNode (Some k) RED (Some (NIL s)) (Some (NIL s))
                      (Some (NIL s)) ->
  new <> NIL s -> ~ In new (cleft cx ++ cright cx) -> new < next_id s ->
  dir_ok k cx ->
  exists s',
    (setattr (set_parent (Some (caddr (NIL s) cx))) (Some new) ;;;
     nil <- self_NIL ;;
     (if val_eqb (Some (caddr (NIL s) cx)) nil then set_root (Some new)
      else
        nd <- getattr data (Some new) ;;
        pd <- getattr data (Some (caddr (NIL s) cx)) ;;
        lt <- py_lt nd pd ;;
        if lt then setattr (set_left (Some new)) (Some (caddr (NIL s) cx))
        else setattr (set_right (Some new)) (Some (caddr (NIL s) cx))) ;;;
     ret (Some new)) s = Ok (Some new, s')
    /\ RepZ s' (T RED E new k E) cx
    /\ NIL s' = NIL s /\ next_id s' = next_id s
    /\ (forall x, x <> new -> x <> caddr (NIL s) cx ->
                  objs s' x = objs s x).
Proof.
  intros H Hnew HnN Hnin Hlt Hdir.
  pose proof H as (Hnil & Hroot & Hrep & Hcx & Hnd & Hfa).
  assert (Hnd' : id (NoDup (NIL s :: cleft cx ++ addrs (T RED E new k E)
                                   ++ cright cx))).
  { simpl in *. apply NoDup_cons_iff in Hnd. destruct Hnd as [Hn1 Hn2].
    constructor.
    - rewrite in_app_iff in *. simpl. intuition congruence.
    - now apply NoDup_middle. }
  assert (Hfa' : Forall (fun a => a < next_id s)
                   (NIL s :: cleft cx ++ addrs (T RED E new k E)
                          ++ cright cx)).
  { simpl in *. inversion Hfa; subst. constructor; auto.
    now apply Forall_middle. }
  destruct cx as [|pc pa pk pr up|pc pl pa pk up];
    cbn [crepr caddr dir_ok] in *.
  - msimp. eexists. split; [reflexivity|].
    split; [|split; [reflexivity|split; [reflexivity|]]].
    + unfold RepZ. msimp. cbn [plug repr addr caddr].
      repeat split; auto; try exact Hnd'. msimp. reflexivity.
    + intros x Hx1 Hx2. msimp. reflexivity.
  - destruct Hcx as (Hpa & Hpr & Hup). pose proof Hnd as Hnd2. nd_facts.
    msimp. cbn [py_lt]. msimp. rewrite Hdir. msimp.
    eexists. split; [reflexivity|].
    split; [|split; [reflexivity|split; [reflexivity|]]].
    + unfold RepZ. msimp. cbn [repr crepr addr caddr].
      repeat split; auto; try (msimp; reflexivity); try frame;
        try exact Hnd'.
      f_equal. apply addr_plug. discriminate.
    + intros x Hx1 Hx2. msimp. reflexivity.
  - destruct Hcx as (Hpa & Hpl & Hup). pose proof Hnd as Hnd2. nd_facts.
    msimp. cbn [py_lt]. msimp. rewrite Hdir. msimp.
    eexists. split; [reflexivity|].
    split; [|split; [reflexivity|split; [reflexivity|]]].
    + unfold RepZ. msimp. cbn [repr crepr addr caddr].
      repeat split; auto; try (msimp; reflexivity); try frame;
        try exact Hnd'.
      f_equal. apply addr_plug. discriminate.
    + intros x Hx1 Hx2. msimp. reflexivity.
Qed.

Lemma bst_attach_spec fuel k s t :
  Rep s t -> height t < fuel ->
  let new := next_id s in
  let cx := fdescend k t Top in
  exists s',
    bst_attach fuel k s = Ok (Some new, s')
    /\ RepZ s' (T RED E new k E) cx
    /\ NIL s' = NIL s /\ next_id s' = S new
    /\ (forall x, x <> new -> x <> caddr (NIL s) cx ->
                  objs s' x = objs s x).
Proof.
  intros H Hf new cx. apply RepZ_Top in H.
  destruct (RepZ_fresh H) as [Hf1 Hf2]. cbn [cleft cright app] in Hf2.
  rewrite app_nil_r in Hf2.
  set (n := mkNode (Some k) RED (Some (NIL s)) (Some (NIL s)) (Some (NIL s))).
  pose proof (RepZ_alloc n H) as H0.
  assert (Hnew : objs (alloc_state s n) new = n) by apply upd_same.
  assert (Hd : descend fuel (Some new) (Some (NIL s))
                 (Some (addr (NIL s) t)) (alloc_state s n)
               = Ok (Some (caddr (NIL s) cx), alloc_state s n)).
  { apply (@descend_spec k new (alloc_state s n) t Top fuel Hf H0).
    rewrite Hnew. reflexivity. }
  assert (H1 : RepZ (alloc_state s n) E cx).
  { apply Rep_plug. unfold cx. rewrite plug_fdescend. now apply Rep_plug. }
  assert (Hnin : ~ In new (cleft cx ++ cright cx)).
  { intros Hin. apply Hf2.
    assert (Ha : addrs (plug E cx) = addrs (plug t Top)).
    { unfold cx. now rewrite plug_fdescend. }
    rewrite !addrs_plug in Ha. cbn [addrs cleft cright app] in Ha.
    rewrite app_nil_r in Ha. now rewrite <- Ha. }
  destruct (@attach_spec k new (alloc_state s n) cx H1 Hnew Hf1 Hnin
              (Nat.lt_succ_diag_r _) (fdescend_dir k t Top I))
    as (s' & Hatt & Hrep & HN & Hnx & Hfr).
  exists s'. unfold bst_attach.
  rewrite bind_self_NIL, bind_alloc, bind_self_root.
  fold n. fold new. change (root (alloc_state s n)) with (root s).
  rewrite (RepZ_root_Top H).
  rewrite (@bind_Ok _ _ _ _ _ _ _ Hd).
  split; [exact Hatt|]. split; [exact Hrep|].
  split; [exact HN|]. split; [exact Hnx|].
  intros x Hx1 Hx2. rewrite (Hfr x Hx1 Hx2). apply upd_other. exact Hx1.
Qed.

(** *** [insert] and the function [finsert] *)

Lemma insert_spec fuel k s t :
  Rep s t -> root_color t = BLACK -> height t < fuel ->
  exists s',
    insert fuel k s = Ok (tt, s')
    /\ Rep s' (finsert k (next_id s) t)
    /\ NIL s' = NIL s /\ next_id s' = S (next_id s).
Proof.
  intros H Hc Hf.
  destruct (bst_attach_spec k H Hf) as (s1 & Hatt & Hrep1 & HN1 & Hnx1 & _).
  assert (Hr : red_below (fdescend k t Top)).
  { apply fdescend_red_below; simpl; auto. }
  assert (Hd : depth (fdescend k t Top) < fuel).
  { pose proof (fdescend_depth k t Top). simpl in *. lia. }
  assert (Ht : T RED E (next_id s) k E <> E) by discriminate.
  destruct (fix_insert_spec Hd Ht Hr Hrep1) as (s' & Hfix & Hrep' & HN & Hnx).
  exists s'. unfold insert. rewrite (@bind_Ok _ _ _ _ _ _ _ Hatt).
  split; [exact Hfix|]. split; [|split; congruence].
  unfold finsert. rewrite (@fix_tree_fuel (S (depth (fdescend k t Top))) fuel);
    auto.
Qed.

(** *** The queries *)

Lemma search_helper_spec k s t : forall cx fuel,
  height t < fuel -> RepZ s t cx ->
  _search_helper fuel (Some (addr (NIL s) t)) k s
  = Ok (Some (addr (NIL s) (fsearch k t)), s).
Proof.
  induction t as [|c l IHl a x r IHr]; intros cx fuel Hf H;
    (destruct fuel as [|fuel]; [simpl in Hf; lia|]);
    cbn [_search_helper fsearch].
  - msimp. reflexivity.
  - pose proof (RepZ_node H) as [Ha HaN]. simpl in Hf.
    msimp. cbn [py_eq py_lt]. destruct (Z.eqb k x).
    + reflexivity.
    + msimp. cbn [py_lt]. msimp. destruct (Z.ltb k x); msimp.
      * apply (IHl (CL c a x r cx)); [lia|]. now apply RepZ_down_L.
      * apply (IHr (CR c l a x cx)); [lia|]. now apply RepZ_down_R.
Qed.

Lemma search_spec k s t fuel :
  height t < fuel -> Rep s t ->
  search fuel k s = Ok (Some (addr (NIL s) (fsearch k t)), s).
Proof.
  intros Hf H. apply RepZ_Top in H. unfold search.
  rewrite bind_self_root, (RepZ_root_Top H).
  now apply search_helper_spec with (cx := Top).
Qed.

Lemma inorder_helper_spec s t : forall cx fuel acc,
  height t < fuel -> RepZ s t cx ->
  _inorder_helper fuel (Some (addr (NIL s) t)) acc s
  = Ok (acc ++ items t, s).
Proof.
  induction t as [|c l IHl a x r IHr]; intros cx fuel acc Hf H;
    (destruct fuel as [|fuel]; [simpl in Hf; lia|]);
    cbn [_inorder_helper items].
  - msimp. now rewrite app_nil_r.
  - pose proof (RepZ_node H) as [Ha HaN]. simpl in Hf. msimp.
    rewrite (@bind_Ok _ _ _ _ _ _ _
               (IHl (CL c a x r cx) fuel acc ltac:(lia) (RepZ_down_L H))).
    msimp.
    rewrite (IHr (CR c l a x cx) fuel _ ltac:(lia) (RepZ_down_R H)).
    rewrite <- !app_assoc. reflexivity.
Qed.

Lemma inorder_spec s t fuel :
  height t < fuel -> Rep s t ->
  inorder_traversal fuel s = Ok (items t, s).
Proof.
  intros Hf H. apply RepZ_Top in H. unfold inorder_traversal.
  rewrite bind_self_root, (RepZ_root_Top H).
  now apply inorder_helper_spec with (cx := Top).
Qed.

Lemma get_black_height_node_spec s t : forall cx fuel,
  height t < fuel -> RepZ s t cx ->
  get_black_height fuel (Some (addr (NIL s) t)) s = Ok (fbh t, s).
Proof.
  induction t as [|c l IHl a x r IHr]; intros cx fuel Hf H;
    (destruct fuel as [|fuel]; [simpl in Hf; lia|]);
    cbn [get_black_height fbh].
  - msimp. reflexivity.
  - pose proof (RepZ_node H) as [Ha HaN]. simpl in Hf. msimp.
    rewrite (@bind_Ok _ _ _ _ _ _ _
               (IHl (CL c a x r cx) fuel ltac:(lia) (RepZ_down_L H))).
    msimp.
    rewrite (@bind_Ok _ _ _ _ _ _ _
               (IHr (CR c l a x cx) fuel ltac:(lia) (RepZ_down_R H))).
    msimp. reflexivity.
Qed.

Lemma get_black_height_spec s t fuel :
  height t < fuel -> Rep s t ->
  get_black_height fuel None s = Ok (fbh t, s).
Proof.
  intros Hf H. apply RepZ_Top in H.
  rewrite <- (@get_black_height_node_spec s t Top fuel Hf H).
  destruct fuel as [|fuel]; [reflexivity|]. cbn [get_black_height].
  rewrite bind_self_root, bind_ret, (RepZ_root_Top H). reflexivity.
Qed.

Lemma validate_helper_spec s t : forall cx fuel bc ex,
  height t < fuel -> RepZ s t cx ->
  validate_helper fuel (Some (addr (NIL s) t)) bc ex s
  = Ok (fvalidate_helper t bc ex, s).
Proof.
  induction t as [|c l IHl a x r IHr]; intros cx fuel bc ex Hf H;
    (destruct fuel as [|fuel]; [simpl in Hf; lia|]);
    cbn [validate_helper fvalidate_helper].
  - msimp. reflexivity.
  - pose proof (RepZ_node H) as [Ha HaN]. simpl in Hf.
    pose proof (RepZ_addr (RepZ_down_L H)) as Hl.
    pose proof (RepZ_addr (RepZ_down_R H)) as Hr.
    assert (Hrr :
      (if Color_eqb c RED then
         l0 <- getattr left (Some a) ;;
         lc <- getattr color l0 ;;
         if Color_eqb lc RED then ret true
         else
           r0 <- getattr right (Some a) ;;
           rc <- getattr color r0 ;;
           ret (Color_eqb rc RED)
       else ret false) s
      = Ok (Color_eqb c RED && (is_red l || is_red r), s)).
    { destruct c; cbn [Color_eqb andb]; [|reflexivity]. msimp.
      unfold is_red. destruct l as [|[|] ? ? ? ?];
        cbn [root_color color NIL_node Color_eqb orb];
        try reflexivity; msimp;
        destruct r as [|[|] ? ? ? ?]; reflexivity. }
    msimp. rewrite (@bind_Ok _ _ _ _ _ _ _ Hrr).
    destruct (Color_eqb c RED && (is_red l || is_red r)); [reflexivity|].
    msimp. fold (black_bit c).
    rewrite (@bind_Ok _ _ _ _ _ _ _
               (IHl (CL c a x r cx) fuel _ ex ltac:(lia) (RepZ_down_L H))).
    assert (Hbc : (if Color_eqb c BLACK then (bc + 1)%Z else bc)
                  = (bc + black_bit c)%Z).
    { unfold black_bit. destruct (Color_eqb c BLACK); lia. }
    rewrite Hbc.
    destruct (fvalidate_helper l (bc + black_bit c) ex); [|reflexivity].
    msimp. cbn [andb].
    apply (IHr (CR c l a x cx) fuel _ ex ltac:(lia) (RepZ_down_R H)).
Qed.

Lemma validate_spec s t fuel :
  height t < fuel -> Rep s t ->
  validate_rb_properties fuel s = Ok (fvalidate t, s).
Proof.
  intros Hf H. pose proof (get_black_height_spec Hf H) as Hbh.
  apply RepZ_Top in H. unfold validate_rb_properties.
  rewrite bind_self_root, bind_self_NIL, (RepZ_root_Top H).
  destruct t as [|c l a x r]; cbn [addr fvalidate].
  - msimp. reflexivity.
  - pose proof (RepZ_node H) as [Ha HaN]. msimp.
    destruct (negb (Color_eqb c BLACK)); [reflexivity|].
    rewrite (@bind_Ok _ _ _ _ _ _ _ Hbh).
    rewrite bind_self_root, (RepZ_root_Top H).
    now apply validate_helper_spec with (t := T c l a x r) (cx := Top).
Qed.

(** ** Part IX.  The red-black invariants are kept by [finsert] *)

Lemma color_cases c : c = RED \/ c = BLACK.
Proof. destruct c; auto. Qed.

Lemma Color_eqb_RED c : Color_eqb c RED = true <-> c = RED.
Proof. destruct c; simpl; split; congruence. Qed.

Lemma rb_blacken t n : rb t n -> exists m, rb (blacken t) m.
Proof.
  destruct t as [|[|] l a k r]; simpl.
  - intros ->. now exists 0.
  - intros (_ & _ & Hl & Hr). now exists (S n).
  - intros H. now exists n.
Qed.

Lemma root_color_blacken t : root_color (blacken t) = BLACK.
Proof. now destruct t. Qed.

Lemma plug_root_black cx : forall t n,
  crb cx n -> cx <> Top -> root_color (plug t cx) = BLACK.
Proof.
  induction cx as [|c a k r up IH|c l a k up IH]; intros t n H Hne;
    [congruence| |]; destruct c; simpl in *.
  - destruct H as (_ & _ & _ & Hup & H). now apply IH with (n := n).
  - destruct H as (_ & H). destruct up; [reflexivity| |];
      now apply IH with (n := S n).
  - destruct H as (_ & _ & _ & Hup & H). now apply IH with (n := n).
  - destruct H as (_ & H). destruct up; [reflexivity| |];
      now apply IH with (n := S n).
Qed.

Lemma plug_rb cx : forall t n,
  rb t n -> crb cx n -> (root_color t = RED -> head_color cx = BLACK) ->
  exists m, rb (plug t cx) m.
Proof.
  induction cx as [|c a k r up IH|c l a k up IH]; intros t n Ht H Hc.
  - now exists n.
  - destruct c; simpl in *.
    + destruct H as (Hr1 & Hr2 & Hup1 & Hup2 & H).
      apply IH with (n := n); auto. simpl. repeat split; auto.
      destruct (color_cases (root_color t)) as [E|E]; auto.
      specialize (Hc E). discriminate.
    + destruct H as (Hr & H). apply IH with (n := S n); auto.
      * simpl. auto.
      * simpl. discriminate.
  - destruct c; simpl in *.
    + destruct H as (Hr1 & Hr2 & Hup1 & Hup2 & H).
      apply IH with (n := n); auto. simpl. repeat split; auto.
      destruct (color_cases (root_color t)) as [E|E]; auto.
      specialize (Hc E). discriminate.
    + destruct H as (Hr & H). apply IH with (n := S n); auto.
      * simpl. auto.
      * simpl. discriminate.
Qed.

Lemma is_red_true t : is_red t = true -> exists l a k r, t = T RED l a k r.
Proof.
  destruct t as [|[|] l a k r]; simpl; try discriminate. eauto.
Qed.

Lemma is_red_false t : is_red t = false -> root_color t = BLACK.
Proof. destruct t as [|[|] l a k r]; simpl; auto; discriminate. Qed.

(** A pass keeps the invariant of the loop: the subtree at [node] is a red
    node with black children, and the path above it is that of a red-black
    tree. *)
Lemma fix_step_rb t cx n :
  rb t n -> root_color t = RED -> crb cx n -> head_color cx = RED ->
  exists n',
    rb (fst (fix_step t cx)) n'
    /\ root_color (fst (fix_step t cx)) = RED
    /\ crb (snd (fix_step t cx)) n'.
Proof.
  intros Ht Hc H Hh. destruct t as [|c l a k r]; [discriminate|].
  simpl in Hc. subst c. destruct Ht as (Hl1 & Hr1 & Hl2 & Hr2).
  destruct cx as [|pc pa pk sib up|pc sib pa pk up]; simpl in Hh;
    [discriminate| |]; subst pc;
    destruct H as (Hs1 & Hs2 & Hup1 & Hup2 & H);
    destruct up as [|gc ga gk unc up|gc unc ga gk up]; try congruence;
    simpl in Hup1; subst gc; destruct H as (Hu & H);
    cbn [fix_step]; destruct (is_red unc) eqn:Hred.
  all: try (apply is_red_true in Hred;
            destruct Hred as (ul & ua & uk & ur & ->);
            destruct Hu as (Hu1 & Hu2 & Hu3 & Hu4);
            exists (S n); simpl; tauto).
  all: apply is_red_false in Hred; exists n; simpl; tauto.
Qed.

Lemma fix_tree_rb fuel : forall t cx n,
  depth cx < fuel ->
  rb t n -> root_color t = RED -> crb cx n ->
  exists m, rb (blacken (fix_tree fuel t cx)) m.
Proof.
  induction fuel as [|fuel IH]; intros t cx n Hd Ht Hc H; [lia|].
  cbn [fix_tree]. destruct (Color_eqb (head_color cx) RED) eqn:Hh.
  - apply Color_eqb_RED in Hh.
    destruct (@fix_step_rb t cx n Ht Hc H Hh) as (n' & H1 & H2 & H3).
    assert (Hg : has_grandparent cx).
    { destruct cx as [|pc pa pk sib up|pc sib pa pk up]; simpl in Hh;
        [discriminate| |]; subst pc; simpl in H;
        destruct up; simpl; tauto. }
    assert (Hd' : S (depth (snd (fix_step t cx))) <= depth cx).
    { destruct t as [|c l a k r]; [discriminate|].
      destruct cx as [|pc pa pk sib [|gc ga gk unc up|gc unc ga gk up]
                      |pc sib pa pk [|gc ga gk unc up|gc unc ga gk up]];
        try contradiction; cbn [fix_step]; destruct (is_red unc);
        simpl; lia. }
    apply IH with (n := n'); auto. lia.
  - assert (Hb : head_color cx = BLACK).
    { destruct (head_color cx); [discriminate|reflexivity]. }
    destruct (@plug_rb cx t n Ht H (fun _ => Hb)) as (m & Hm).
    now apply rb_blacken with (n := m).
Qed.

Lemma fdescend_crb k t : forall cx n,
  rb t n -> crb cx n ->
  (root_color t = RED -> head_color cx = BLACK /\ cx <> Top) ->
  crb (fdescend k t cx) 0.
Proof.
  induction t as [|c l IHl a x r IHr]; intros cx n Ht H Hc; simpl in *.
  - now subst n.
  - destruct c.
    + destruct Ht as (Hl1 & Hr1 & Hl2 & Hr2).
      destruct (Hc eq_refl) as [Hh Hne].
      destruct (Z.ltb k x); [apply IHl with (n := n)|apply IHr with (n := n)];
        simpl; auto; try (intros E; congruence).
    + destruct n as [|m]; [contradiction|]. destruct Ht as [Hl Hr].
      destruct (Z.ltb k x); [apply IHl with (n := m)|apply IHr with (n := m)];
        simpl; auto; intros _; split; auto; discriminate.
Qed.

Theorem finsert_red_black k new t :
  red_black t -> red_black (finsert k new t).
Proof.
  intros [Hc [n Hn]]. split; [apply root_color_blacken|].
  unfold finsert.
  apply fix_tree_rb with (n := 0); simpl; auto.
  apply fdescend_crb with (n := n); simpl; auto.
  intros E. congruence.
Qed.

(** *** The validator decides the invariants *)

Lemma black_bit_cases c : (black_bit c = 0 \/ black_bit c = 1)%Z.
Proof. destruct c; auto. Qed.

Lemma fvalidate_helper_iff t : forall bc ex,
  fvalidate_helper t bc ex = true <->
  no_red_red t /\ Forall (fun p => (bc + p)%Z = ex) (path_blacks t).
Proof.
  induction t as [|c l IHl a k r IHr]; intros bc ex; simpl.
  - rewrite Z.eqb_eq. split.
    + intros H. split; auto. constructor; [lia|constructor].
    + intros [_ H]. inversion H; subst. lia.
  - rewrite Forall_map, Forall_app.
    assert (Hshift : forall L,
      Forall (fun p => (bc + (p + black_bit c))%Z = ex) L <->
      Forall (fun p => (bc + black_bit c + p)%Z = ex) L).
    { intros L. split; apply Forall_impl; intros; lia. }
    rewrite !Hshift. clear Hshift.
    pose proof (IHl (bc + black_bit c)%Z ex) as Hl.
    pose proof (IHr (bc + black_bit c)%Z ex) as Hr.
    unfold is_red.
    destruct c, (root_color l), (root_color r); cbn [Color_eqb andb orb];
      rewrite ?andb_true_iff, ?Hl, ?Hr; intuition congruence.
Qed.

Lemma fbh_is_path t : In (fbh t) (path_blacks t).
Proof.
  induction t as [|c l IHl a k r IHr]; simpl; auto.
  apply in_map_iff.
  destruct (Z.max_spec (fbh l) (fbh r)) as [[_ ->]|[_ ->]];
    eexists; split; try reflexivity; apply in_or_app; auto.
Qed.

Lemma fvalidate_iff t :
  fvalidate t = true <->
  root_color t = BLACK /\ no_red_red t
  /\ Forall (fun p => p = fbh t) (path_blacks t).
Proof.
  destruct t as [|c l a k r].
  - simpl. split; [intros _|reflexivity]. repeat constructor.
  - unfold fvalidate. destruct c; cbn [Color_eqb negb root_color].
    + split; [discriminate|]. intros [H _]. discriminate.
    + rewrite fvalidate_helper_iff.
      assert (Hz : forall L x,
        Forall (fun p => (0 + p)%Z = x) L <-> Forall (fun p : Z => p = x) L).
      { intros L x. split; apply Forall_impl; intros; lia. }
      rewrite Hz. tauto.
Qed.

Lemma same_paths_fbh t :
  (exists n, Forall (fun p => p = n) (path_blacks t)) <->
  Forall (fun p => p = fbh t) (path_blacks t).
Proof.
  split.
  - intros [n H]. rewrite Forall_forall in H.
    rewrite (H _ (fbh_is_path t)). now apply Forall_forall.
  - intros H. now exists (fbh t).
Qed.

Lemma rb_paths t : forall n,
  rb t n -> no_red_red t /\ Forall (fun p => p = Z.of_nat n) (path_blacks t).
Proof.
  induction t as [|c l IHl a k r IHr]; intros n; simpl.
  - intros ->. split; auto.
  - rewrite Forall_map, Forall_app. destruct c.
    + intros (Hl1 & Hr1 & Hl2 & Hr2).
      destruct (IHl _ Hl2) as [Hl3 Hl4]. destruct (IHr _ Hr2) as [Hr3 Hr4].
      repeat split; auto;
        (eapply Forall_impl; [|eassumption]); unfold black_bit;
        cbn [Color_eqb]; intros; lia.
    + destruct n as [|m]; [contradiction|]. intros [Hl Hr].
      destruct (IHl _ Hl) as [Hl3 Hl4]. destruct (IHr _ Hr) as [Hr3 Hr4].
      repeat split; auto; try discriminate;
        (eapply Forall_impl; [|eassumption]); unfold black_bit;
        cbn [Color_eqb]; intros; lia.
Qed.

Lemma rb_fbh t n : rb t n -> fbh t = Z.of_nat n.
Proof.
  intros H. destruct (@rb_paths t n H) as [_ Hp].
  rewrite Forall_forall in Hp. apply Hp, fbh_is_path.
Qed.

Lemma red_black_fvalidate t : red_black t -> fvalidate t = true.
Proof.
  intros [Hc [n Hn]]. apply fvalidate_iff.
  destruct (@rb_paths t n Hn) as [H1 H2]. repeat split; auto.
  rewrite (@rb_fbh t n Hn). exact H2.
Qed.

(** ** Part X.  Keys: order, multiplicity, search *)

Lemma keys_blacken t : keys (blacken t) = keys t.
Proof. now destruct t. Qed.

Lemma items_keys t : map fst (items t) = map Some (keys t).
Proof.
  induction t as [|c l IHl a k r IHr]; simpl; auto.
  rewrite !map_app. simpl. now rewrite IHl, IHr.
Qed.

Lemma fix_step_keys t cx :
  keys (plug (fst (fix_step t cx)) (snd (fix_step t cx)))
  = keys (plug t cx).
Proof.
  destruct cx as [|pc pa pk sib [|gc ga gk unc up|gc unc ga gk up]
                  |pc sib pa pk [|gc ga gk unc up|gc unc ga gk up]];
    try reflexivity; cbn [fix_step]; destruct (is_red unc);
    try destruct t as [|c l a k r]; cbn [fst snd plug];
    rewrite ?keys_plug; cbn [keys]; rewrite ?keys_blacken;
    repeat (rewrite <- app_assoc || rewrite <- app_comm_cons);
    try reflexivity.
Qed.

Lemma fix_tree_keys n : forall t cx,
  keys (fix_tree n t cx) = keys (plug t cx).
Proof.
  induction n as [|n IH]; intros t cx; simpl; auto.
  destruct (Color_eqb (head_color cx) RED); auto.
  rewrite IH. apply fix_step_keys.
Qed.

Lemma finsert_keys k new t :
  keys (finsert k new t) = keys (leaf_insert k new t).
Proof.
  unfold finsert. rewrite keys_blacken, fix_tree_keys.
  change (leaf_insert k new t) with (plug (leaf_insert k new t) Top).
  now rewrite plug_leaf_insert.
Qed.

Lemma leaf_insert_perm k new t :
  Permutation (keys (leaf_insert k new t)) (k :: keys t).
Proof.
  induction t as [|c l IHl a x r IHr]; simpl; auto.
  destruct (Z.ltb k x); simpl.
  - rewrite IHl. reflexivity.
  - rewrite IHr.
    etransitivity; [apply Permutation_app_head, perm_swap|].
    symmetry. apply Permutation_middle.
Qed.

Lemma SS_app_iff l1 x l2 :
  StronglySorted Z.le (l1 ++ x :: l2) <->
  StronglySorted Z.le l1 /\ StronglySorted Z.le l2
  /\ Forall (fun y => (y <= x)%Z) l1 /\ Forall (fun y => (x <= y)%Z) l2.
Proof.
  induction l1 as [|a l1 IH]; simpl.
  - split.
    + intros H. inversion H; subst. repeat split; auto. constructor.
    + intros (_ & H2 & _ & H4). now constructor.
  - split.
    + intros H. inversion H as [|? ? Hs Hf]; subst.
      apply IH in Hs. destruct Hs as (H1 & H2 & H3 & H4).
      rewrite Forall_app in Hf. destruct Hf as [Hf1 Hf2].
      inversion Hf2; subst. repeat split; auto; constructor; auto.
    + intros (H1 & H2 & H3 & H4).
      inversion H1 as [|? ? Hs Hf]; subst. inversion H3; subst.
      constructor.
      * apply IH. repeat split; auto.
      * rewrite Forall_app. split; auto. constructor; auto.
        eapply Forall_impl; [|exact H4]. simpl. intros. lia.
Qed.

Lemma leaf_insert_ordered k new t :
  ordered t -> ordered (leaf_insert k new t).
Proof.
  unfold ordered. induction t as [|c l IHl a x r IHr]; simpl.
  - intros _. repeat constructor.
  - rewrite SS_app_iff. intros (H1 & H2 & H3 & H4).
    destruct (Z.ltb_spec k x); simpl; rewrite SS_app_iff;
      repeat split; auto.
    + eapply Permutation_Forall;
        [symmetry; apply leaf_insert_perm|]. constructor; auto. lia.
    + eapply Permutation_Forall;
        [symmetry; apply leaf_insert_perm|]. constructor; auto.
Qed.

Lemma finsert_ordered k new t : ordered t -> ordered (finsert k new t).
Proof.
  unfold ordered at 2. rewrite finsert_keys. apply leaf_insert_ordered.
Qed.

Lemma finsert_perm k new t : Permutation (keys (finsert k new t)) (k :: keys t).
Proof. rewrite finsert_keys. apply leaf_insert_perm. Qed.

Lemma fsearch_miss k t : ~ In k (keys t) -> fsearch k t = E.
Proof.
  induction t as [|c l IHl a x r IHr]; simpl; auto.
  rewrite in_app_iff. simpl. intros H.
  destruct (Z.eqb_spec k x); [subst; tauto|].
  destruct (Z.ltb k x); [apply IHl|apply IHr]; tauto.
Qed.

Lemma fsearch_found k t :
  ordered t -> In k (keys t) ->
  exists c l a r, fsearch k t = T c l a k r.
Proof.
  unfold ordered. induction t as [|c l IHl a x r IHr]; simpl; [tauto|].
  rewrite SS_app_iff, in_app_iff. simpl.
  intros (H1 & H2 & H3 & H4) Hin.
  destruct (Z.eqb_spec k x); [subst; eauto|].
  rewrite Forall_forall in H3, H4.
  destruct (Z.ltb_spec k x).
  - apply IHl; auto. destruct Hin as [Hin|[Hin|Hin]]; auto; [congruence|].
    specialize (H4 _ Hin). lia.
  - apply IHr; auto. destruct Hin as [Hin|[Hin|Hin]]; auto; [|congruence].
    specialize (H3 _ Hin). lia.
Qed.

(** The node found by [fsearch] is an object of the store. *)
Lemma fsearch_node h nil k t : forall p c l a x r,
  repr h nil t p -> fsearch k t = T c l a x r ->
  data (h a) = Some x /\ In a (addrs t).
Proof.
  induction t as [|c0 l0 IHl a0 x0 r0 IHr]; intros p c l a x r Hrep Hs;
    simpl in *; [discriminate|].
  destruct Hrep as (Ha & Hl & Hr). rewrite in_app_iff. simpl.
  destruct (Z.eqb k x0).
  - inversion Hs; subst. rewrite Ha. auto.
  - destruct (Z.ltb k x0).
    + destruct (IHl _ _ _ _ _ _ Hl Hs). auto.
    + destruct (IHr _ _ _ _ _ _ Hr Hs). auto.
Qed.

(** ** Part XI.  Fuel *)

(** A result obtained with some fuel is obtained with any larger fuel. *)
Lemma bind_Ok_inv {A B} (m : M A) (k : A -> M B) s r :
  bind m k s = Ok r -> exists a s', m s = Ok (a, s') /\ k a s' = Ok r.
Proof.
  unfold bind. destruct (m s) as [[a s']| |]; try discriminate. eauto.
Qed.

Lemma descend_mono f : forall f' nn par cur s r,
  f <= f' ->
  descend f nn par cur s = Ok r -> descend f' nn par cur s = Ok r.
Proof.
  induction f as [|f IH]; intros f' nn par cur s r Hle H; [discriminate|].
  destruct f' as [|f']; [lia|]. cbn [descend] in *.
  apply bind_Ok_inv in H. destruct H as (nil & s1 & H1 & H).
  rewrite (@bind_Ok _ _ _ _ _ _ _ H1).
  destruct (negb (val_eqb cur nil)); [|exact H].
  apply bind_Ok_inv in H. destruct H as (nd & s2 & H2 & H).
  rewrite (@bind_Ok _ _ _ _ _ _ _ H2).
  apply bind_Ok_inv in H. destruct H as (cd & s3 & H3 & H).
  rewrite (@bind_Ok _ _ _ _ _ _ _ H3).
  apply bind_Ok_inv in H. destruct H as (lt & s4 & H4 & H).
  rewrite (@bind_Ok _ _ _ _ _ _ _ H4).
  apply bind_Ok_inv in H. destruct H as (nx & s5 & H5 & H).
  rewrite (@bind_Ok _ _ _ _ _ _ _ H5).
  apply IH; [lia|exact H].
Qed.

Lemma fix_loop_mono f : forall f' node s r,
  f <= f' -> fix_loop f node s = Ok r -> fix_loop f' node s = Ok r.
Proof.
  induction f as [|f IH]; intros f' node s r Hle H; [discriminate|].
  destruct f' as [|f']; [lia|]. cbn [fix_loop] in *.
  apply bind_Ok_inv in H. destruct H as (go & s1 & H1 & H).
  rewrite (@bind_Ok _ _ _ _ _ _ _ H1).
  destruct go; [|exact H].
  apply bind_Ok_inv in H. destruct H as (nd & s2 & H2 & H).
  rewrite (@bind_Ok _ _ _ _ _ _ _ H2).
  apply IH; [lia|exact H].
Qed.

Lemma bind_Ok_mono {A B} (m m' : M A) (k k' : A -> M B) s r :
  bind m k s = Ok r ->
  (forall a s', m s = Ok (a, s') -> m' s = Ok (a, s')) ->
  (forall a s', k a s' = Ok r -> k' a s' = Ok r) ->
  bind m' k' s = Ok r.
Proof.
  intros H Hm Hk. apply bind_Ok_inv in H. destruct H as (a & s' & H1 & H2).
  rewrite (@bind_Ok _ _ _ _ _ _ _ (Hm _ _ H1)). now apply Hk.
Qed.

Lemma bst_attach_mono f f' k s r :
  f <= f' -> bst_attach f k s = Ok r -> bst_attach f' k s = Ok r.
Proof.
  intros Hle H. unfold bst_attach in *.
  eapply bind_Ok_mono; [exact H|auto|]. clear H. cbv beta. intros nil s1 H.
  eapply bind_Ok_mono; [exact H|auto|]. clear H. cbv beta. intros nn s2 H.
  eapply bind_Ok_mono; [exact H|auto|]. clear H. cbv beta. intros rt s3 H.
  eapply bind_Ok_mono; [exact H| |auto].
  intros a s'. now apply descend_mono.
Qed.

Lemma insert_mono f f' k s r :
  f <= f' -> insert f k s = Ok r -> insert f' k s = Ok r.
Proof.
  intros Hle H. unfold insert, _fix_insert in *.
  eapply bind_Ok_mono; [exact H| |].
  - intros a s'. now apply bst_attach_mono.
  - clear H. cbv beta. intros nn s1 H.
    eapply bind_Ok_mono; [exact H| |auto].
    intros a s'. now apply fix_loop_mono.
Qed.

Lemma returns_of_run {A} (run : nat -> Res A) f r :
  (forall f', f <= f' -> run f' = Ok r) -> returns run r.
Proof. intros H. exists f. intros d. apply H. lia. Qed.

Lemma returns_fun {A} (run : nat -> Res A) r r' :
  returns run r -> returns run r' -> r = r'.
Proof.
  intros [f H] [f' H']. specialize (H f'). specialize (H' f).
  rewrite Nat.add_comm in H'. congruence.
Qed.

Lemma insert_returns f k s r :
  insert f k s = Ok r -> returns (fun fuel => insert fuel k s) r.
Proof.
  intros H. apply returns_of_run with (f := f). intros f' Hle.
  now apply insert_mono with (f := f).
Qed.

(** ** Part XII.  Trees built by insertions *)

Lemma Rep_new_tree : Rep new_tree E.
Proof.
  unfold Rep, new_tree. simpl.
  repeat split; auto; repeat constructor; simpl; tauto.
Qed.

Lemma finsert_all_app ks : forall k new t,
  finsert_all (ks ++ [k]) new t
  = finsert k (new + List.length ks) (finsert_all ks new t).
Proof.
  induction ks as [|k0 ks IH]; intros k new t; simpl.
  - now rewrite Nat.add_0_r.
  - rewrite IH. f_equal. lia.
Qed.

Lemma built_inv ks s :
  built ks s ->
  Rep s (tree_of ks) /\ NIL s = 0 /\ next_id s = S (List.length ks)
  /\ red_black (tree_of ks) /\ ordered (tree_of ks)
  /\ Permutation (keys (tree_of ks)) ks.
Proof.
  induction 1 as [|ks s k s' Hb IH Hret].
  - split; [apply Rep_new_tree|]. split; [reflexivity|].
    split; [reflexivity|]. split; [split; [reflexivity|now exists 0]|].
    split; constructor.
  - destruct IH as (Hrep & HN & Hnx & Hrb & Hord & Hperm).
    destruct Hret as [f0 Hret].
    destruct (@insert_spec (f0 + S (height (tree_of ks))) k s (tree_of ks)
                Hrep (proj1 Hrb) ltac:(lia))
      as (s2 & Hins & Hrep2 & HN2 & Hnx2).
    rewrite Hret in Hins. inversion Hins; subst s2. clear Hins.
    unfold tree_of in *. rewrite finsert_all_app. simpl.
    rewrite Hnx in Hrep2. rewrite length_app. simpl.
    split; [exact Hrep2|]. split; [congruence|]. split; [lia|].
    split; [apply finsert_red_black; exact Hrb|].
    split; [now apply finsert_ordered|].
    rewrite finsert_perm, Hperm. apply Permutation_cons_append.
Qed.

(** [insert] has no failure mode on a built tree. *)
Lemma built_insert_returns ks s k :
  built ks s -> exists s', returns (fun fuel => insert fuel k s) (tt, s').
Proof.
  intros Hb. destruct (built_inv Hb) as (Hrep & _ & _ & Hrb & _).
  destruct (@insert_spec (S (height (tree_of ks))) k s (tree_of ks)
              Hrep (proj1 Hrb) ltac:(lia)) as (s' & Hins & _).
  exists s'. eapply insert_returns. exact Hins.
Qed.

Lemma built_total ks : exists s, built ks s.
Proof.
  induction ks as [|k ks IH] using rev_ind.
  - exists new_tree. constructor.
  - destruct IH as [s Hb].
    destruct (built_insert_returns k Hb) as [s' Hs'].
    exists s'. now apply built_insert with (s := s).
Qed.

Lemma returns_read {A} (run : nat -> Res A) f0 r :
  (forall f, f0 < f -> run f = Ok r) -> returns run r.
Proof.
  intros H. exists (S f0). intros d. apply H. lia.
Qed.

Lemma built_state_after fuel ks2 : forall ks1 s,
  built ks1 s -> runs_ok fuel ks2 s = true ->
  built (ks1 ++ ks2) (state_after fuel ks2 s).
Proof.
  induction ks2 as [|k ks2 IH]; intros ks1 s Hb Hok; simpl in *.
  - now rewrite app_nil_r.
  - destruct (insert fuel k s) as [[[] s1]| |] eqn:E; try discriminate.
    change (k :: ks2) with ([k] ++ ks2). rewrite app_assoc.
    apply IH; auto. apply built_insert with (s := s); auto.
    eapply insert_returns. exact E.
Qed.

Lemma built_run fuel ks :
  runs_ok fuel ks new_tree = true ->
  built ks (state_after fuel ks new_tree).
Proof.
  intros H. apply (@built_state_after fuel ks [] new_tree built_new H).
Qed.

Lemma built_demo : built demo_keys demo_state.
Proof. apply built_run. vm_compute. reflexivity. Qed.

(** ** Part XIII.  Properties of the red-black tree *)

Lemma built_validates ks s :
  built ks s ->
  returns (fun fuel => validate_rb_properties fuel s) (true, s).
Proof.
  intros Hb. destruct (built_inv Hb) as (Hrep & _ & _ & Hrb & _).
  apply returns_read with (f0 := height (tree_of ks)). intros f Hf.
  rewrite (@validate_spec s (tree_of ks) f Hf Hrep).
  now rewrite red_black_fvalidate.
Qed.

(** C1.  Invariant preservation: every finite sequence of [insert] calls
    on a new tree runs to its end, and in the state reached the sentinel is
    black and keyless, the state holds a tree that satisfies I2, I3 and I4,
    and [validate_rb_properties()] returns [True].  (A prefix of a sequence
    of calls is a sequence of calls, so this holds after each call.) *)
Theorem validate_after_inserts (ks : list Z) :
  (exists s, built ks s)
  /\ (forall s, built ks s ->
        objs s (NIL s) = NIL_node
        /\ (exists t, Rep s t /\ red_black t)
        /\ returns (fun fuel => validate_rb_properties fuel s) (true, s)).
Proof.
  split; [apply built_total|]. intros s Hb.
  destruct (built_inv Hb) as (Hrep & _ & _ & Hrb & _).
  split; [apply Hrep|]. split; [eauto|]. now apply built_validates with (ks := ks).
Qed.

Lemma validate_after_inserts_witness :
  returns (fun fuel => validate_rb_properties fuel demo_state)
          (true, demo_state).
Proof.
  apply (proj2 (validate_after_inserts demo_keys) demo_state built_demo).
Defined.

(** C2.  Search correctness: in a tree built by inserting the keys [ks],
    [search(k)] returns a node other than the sentinel whose key is [k]
    when [k] is one of [ks], and the sentinel when it is not. *)
Theorem search_correct (ks : list Z) (s : RedBlackTree) (k : Z) :
  built ks s ->
  (In k ks ->
   exists a, returns (fun fuel => search fuel k s) (Some a, s)
             /\ a <> NIL s /\ data (objs s a) = Some k)
  /\ (~ In k ks ->
      returns (fun fuel => search fuel k s) (Some (NIL s), s)).
Proof.
  intros Hb. destruct (built_inv Hb) as (Hrep & _ & _ & _ & Hord & Hperm).
  split; intros Hk.
  - assert (Hin : In k (keys (tree_of ks))).
    { eapply Permutation_in; [symmetry; exact Hperm|exact Hk]. }
    destruct (@fsearch_found k (tree_of ks) Hord Hin) as (c & l & a & r & Hs).
    destruct Hrep as (_ & _ & Hr & Hnd & _).
    destruct (@fsearch_node _ _ k _ _ _ _ _ _ _ Hr Hs) as [Hd Ha].
    exists a. split; [|split; auto].
    + apply returns_read with (f0 := height (tree_of ks)). intros f Hf.
      rewrite (@search_spec k s (tree_of ks) f Hf (proj1 (built_inv Hb))). now rewrite Hs.
    + intros ->. apply NoDup_cons_iff in Hnd. tauto.
  - assert (Hin : ~ In k (keys (tree_of ks))).
    { intros Hin. apply Hk. eapply Permutation_in; eauto. }
    apply returns_read with (f0 := height (tree_of ks)). intros f Hf.
    rewrite (@search_spec k s (tree_of ks) f Hf Hrep).
    now rewrite (@fsearch_miss k (tree_of ks) Hin).
Qed.

Lemma search_correct_witness :
  (exists a, returns (fun fuel => search fuel 15%Z demo_state)
                     (Some a, demo_state)
             /\ a <> NIL demo_state
             /\ data (objs demo_state a) = Some 15%Z)
  /\ returns (fun fuel => search fuel 100%Z demo_state)
             (Some (NIL demo_state), demo_state).
Proof.
  split.
  - apply (proj1 (@search_correct demo_keys demo_state 15%Z built_demo)). simpl. tauto.
  - apply (proj2 (@search_correct demo_keys demo_state 100%Z built_demo)). simpl.
    intuition discriminate.
Defined.

(** C3.  Sorted traversal: in a tree built by inserting the keys [ks],
    [inorder_traversal()] returns a list of (key, colour name) pairs whose
    keys are in non-decreasing order and are a permutation of [ks], so that
    every inserted key appears as often as it was inserted. *)
Theorem inorder_sorted (ks : list Z) (s : RedBlackTree) :
  built ks s ->
  exists l ks',
    returns (fun fuel => inorder_traversal fuel s) (l, s)
    /\ map fst l = map Some ks'
    /\ Sorted Z.le ks'
    /\ Permutation ks' ks.
Proof.
  intros Hb. destruct (built_inv Hb) as (Hrep & _ & _ & _ & Hord & Hperm).
  exists (items (tree_of ks)), (keys (tree_of ks)).
  split; [|split; [apply items_keys|split; auto]].
  - apply returns_read with (f0 := height (tree_of ks)). intros f Hf.
    apply (@inorder_spec s (tree_of ks) f Hf Hrep).
  - now apply StronglySorted_Sorted.
Qed.

Lemma inorder_sorted_witness :
  exists l ks',
    returns (fun fuel => inorder_traversal fuel demo_state) (l, demo_state)
    /\ map fst l = map Some ks'
    /\ Sorted Z.le ks'
    /\ Permutation ks' demo_keys.
Proof. apply (@inorder_sorted demo_keys demo_state built_demo). Defined.

(** C4.  The validator is a decision procedure: on a state that holds a
    tree (with the black sentinel), [validate_rb_properties()] returns
    [True] exactly when the root is black or the tree is empty, no red node
    has a red child, and every path from the root to a sentinel has the
    same number of black nodes (the sentinel at the end of the path is not
    counted); when it returns [True], that common number is the one
    [get_black_height()] returns. *)
Theorem validate_decides (s : RedBlackTree) (t : tree) :
  Rep s t ->
  exists b h,
    returns (fun fuel => validate_rb_properties fuel s) (b, s)
    /\ returns (fun fuel => get_black_height fuel None s) (h, s)
    /\ (b = true <->
        (t = E \/ root_color t = BLACK)
        /\ no_red_red t
        /\ exists n, Forall (fun p => p = n) (path_blacks t))
    /\ (b = true -> Forall (fun p => p = h) (path_blacks t)).
Proof.
  intros Hrep. exists (fvalidate t), (fbh t).
  split; [|split; [|split]].
  - apply returns_read with (f0 := height t). intros f Hf.
    apply (@validate_spec s t f Hf Hrep).
  - apply returns_read with (f0 := height t). intros f Hf.
    apply (@get_black_height_spec s t f Hf Hrep).
  - rewrite fvalidate_iff, same_paths_fbh.
    destruct t; simpl; intuition congruence.
  - rewrite fvalidate_iff. tauto.
Qed.

Lemma validate_decides_witness :
  exists b h,
    returns (fun fuel => validate_rb_properties fuel demo_state)
            (b, demo_state)
    /\ returns (fun fuel => get_black_height fuel None demo_state)
               (h, demo_state)
    /\ (b = true <->
        (tree_of demo_keys = E \/ root_color (tree_of demo_keys) = BLACK)
        /\ no_red_red (tree_of demo_keys)
        /\ exists n,
             Forall (fun p => p = n) (path_blacks (tree_of demo_keys)))
    /\ (b = true ->
        Forall (fun p => p = h) (path_blacks (tree_of demo_keys))).
Proof.
  apply (@validate_decides demo_state (tree_of demo_keys)).
  apply (built_inv built_demo).
Defined.

Lemma fix_insert_mono f f' node s r :
  f <= f' -> _fix_insert f node s = Ok r -> _fix_insert f' node s = Ok r.
Proof.
  intros Hle H. unfold _fix_insert in *.
  eapply bind_Ok_mono; [exact H| |auto].
  intros a s'. now apply fix_loop_mono.
Qed.

(** C5.  [insert(key)] on a built tree: the call returns; it allocates one
    object, the new node, red, with [key] and with both children the
    sentinel, and leaves every other object as it was except the node it
    attaches the new one to; before the repair the state holds the tree
    with the new node as a leaf at the end of the descent that goes left on
    strictly smaller and right on equal or greater keys ([leaf_insert]);
    after the call the validator returns [True] and the traversal holds
    [key] once more than it had been inserted before (twice for a key that
    was present once). *)
Theorem insert_attaches_red_leaf (ks : list Z) (s : RedBlackTree) (k : Z) :
  built ks s ->
  exists t s1 s',
    Rep s t
    /\ returns (fun fuel => bst_attach fuel k s) (Some (next_id s), s1)
    /\ next_id s1 = S (next_id s)
    /\ objs s1 (next_id s)
       = mkNode (Some k) RED (Some (caddr (NIL s) (fdescend k t Top)))
                (Some (NIL s)) (Some (NIL s))
    /\ (forall x, x <> next_id s -> x <> caddr (NIL s) (fdescend k t Top) ->
                  objs s1 x = objs s x)
    /\ Rep s1 (leaf_insert k (next_id s) t)
    /\ returns (fun fuel => _fix_insert fuel (Some (next_id s)) s1) (tt, s')
    /\ returns (fun fuel => insert fuel k s) (tt, s')
    /\ returns (fun fuel => validate_rb_properties fuel s') (true, s')
    /\ exists l ks',
         returns (fun fuel => inorder_traversal fuel s') (l, s')
         /\ map fst l = map Some ks'
         /\ count_occ Z.eq_dec ks' k = S (count_occ Z.eq_dec ks k).
Proof.
  intros Hb. destruct (built_inv Hb) as (Hrep & _ & _ & Hrb & _).
  set (t := tree_of ks) in *. set (fuel := S (height t)).
  destruct (@bst_attach_spec fuel k s t Hrep (Nat.lt_succ_diag_r _))
    as (s1 & Hatt & Hrep1 & HN1 & Hnx1 & Hfr).
  assert (Hr : red_below (fdescend k t Top)).
  { apply fdescend_red_below; simpl; auto. intros _. apply Hrb. }
  assert (Hd : depth (fdescend k t Top) < fuel).
  { pose proof (fdescend_depth k t Top). simpl in *. unfold fuel. lia. }
  assert (Ht : T RED E (next_id s) k E <> E) by discriminate.
  destruct (@fix_insert_spec fuel _ _ s1 Hd Ht Hr Hrep1)
    as (s' & Hfix & Hrep' & HN & Hnx).
  cbn [addr] in Hfix.
  assert (Hins : insert fuel k s = Ok (tt, s')).
  { unfold insert. now rewrite (@bind_Ok _ _ _ _ _ _ _ Hatt). }
  assert (Hb' : built (ks ++ [k]) s').
  { apply built_insert with (s := s); auto. eapply insert_returns; eauto. }
  exists t, s1, s'. split; [exact Hrep|]. split.
  { apply returns_of_run with (f := fuel). intros f' Hle.
    now apply bst_attach_mono with (f := fuel). }
  split; [exact Hnx1|]. split.
  { destruct (RepZ_node Hrep1) as [Hn _]. rewrite Hn, HN1. reflexivity. }
  split; [exact Hfr|]. split.
  { apply Rep_plug in Hrep1. rewrite plug_leaf_insert in Hrep1. exact Hrep1. }
  split.
  { apply returns_of_run with (f := fuel). intros f' Hle.
    now apply fix_insert_mono with (f := fuel). }
  split; [eapply insert_returns; eauto|].
  split; [apply (built_validates Hb')|].
  destruct (built_inv Hb) as (_ & _ & _ & _ & _ & Hperm).
  destruct (built_inv Hb') as (Hrep2 & _ & _ & _ & _ & Hperm').
  exists (items (tree_of (ks ++ [k]))), (keys (tree_of (ks ++ [k]))).
  split; [|split; [apply items_keys|]].
  - apply returns_read with (f0 := height (tree_of (ks ++ [k]))).
    intros f Hf. apply (@inorder_spec s' _ f Hf Hrep2).
  - rewrite (Permutation_count_occ Z.eq_dec) in Hperm'. rewrite Hperm'.
    rewrite count_occ_app. simpl. destruct (Z.eq_dec k k); [lia|congruence].
Qed.

Lemma insert_attaches_red_leaf_witness :
  exists t s1 s',
    Rep demo_state t
    /\ returns (fun fuel => bst_attach fuel 20%Z demo_state)
               (Some (next_id demo_state), s1)
    /\ next_id s1 = S (next_id demo_state)
    /\ objs s1 (next_id demo_state)
       = mkNode (Some 20%Z) RED
                (Some (caddr (NIL demo_state) (fdescend 20%Z t Top)))
                (Some (NIL demo_state)) (Some (NIL demo_state))
    /\ (forall x, x <> next_id demo_state ->
                  x <> caddr (NIL demo_state) (fdescend 20%Z t Top) ->
                  objs s1 x = objs demo_state x)
    /\ Rep s1 (leaf_insert 20%Z (next_id demo_state) t)
    /\ returns (fun fuel => _fix_insert fuel (Some (next_id demo_state)) s1)
               (tt, s')
    /\ returns (fun fuel => insert fuel 20%Z demo_state) (tt, s')
    /\ returns (fun fuel => validate_rb_properties fuel s') (true, s')
    /\ exists l ks',
         returns (fun fuel => inorder_traversal fuel s') (l, s')
         /\ map fst l = map Some ks'
         /\ count_occ Z.eq_dec ks' 20%Z
            = S (count_occ Z.eq_dec demo_keys 20%Z).
Proof.
  apply (@insert_attaches_red_leaf demo_keys demo_state 20%Z built_demo).
Defined.

(** *** Rotations *)

Lemma repr_agree h h' nil t : forall p,
  repr h nil t p -> repr h' nil t p ->
  forall x, In x (addrs t) -> h x = h' x.
Proof.
  induction t as [|c l IHl a k r IHr]; intros p H H' x Hx; simpl in *;
    [tauto|].
  destruct H as (Ha & Hl & Hr). destruct H' as (Ha' & Hl' & Hr').
  rewrite in_app_iff in Hx. simpl in Hx.
  destruct Hx as [Hx|[Hx|Hx]]; eauto. subst x. congruence.
Qed.

Lemma Rep_agree s s' t :
  Rep s t -> Rep s' t -> NIL s = NIL s' ->
  forall x, In x (NIL s :: addrs t) -> objs s x = objs s' x.
Proof.
  intros (Hn & _ & Hr & _) (Hn' & _ & Hr' & _) HN x [Hx|Hx].
  - subst x. rewrite Hn. rewrite HN. now rewrite Hn'.
  - rewrite <- HN in Hr'. eapply repr_agree; eauto.
Qed.

Lemma rotate_back s s1 s2 t t1 cx :
  RepZ s t cx -> RepZ s1 t1 cx -> RepZ s2 t cx ->
  addrs t1 = addrs t ->
  NIL s1 = NIL s -> next_id s1 = next_id s ->
  NIL s2 = NIL s1 -> next_id s2 = next_id s1 ->
  (forall x, ~ In x (NIL s :: cleft cx ++ addrs t ++ cright cx) ->
             objs s1 x = objs s x) ->
  (forall x, ~ In x (NIL s1 :: cleft cx ++ addrs t1 ++ cright cx) ->
             objs s2 x = objs s1 x) ->
  same_state s2 s.
Proof.
  intros H H1 H2 Ha HN1 Hnx1 HN2 Hnx2 Hf1 Hf2.
  assert (HN : NIL s2 = NIL s) by congruence.
  split; [exact HN|]. split; [|split; [congruence|]].
  - destruct H as (_ & Hr & _). destruct H2 as (_ & Hr2 & _).
    rewrite Hr, Hr2, HN. reflexivity.
  - intros x.
    destruct (in_dec Nat.eq_dec x (NIL s :: cleft cx ++ addrs t ++ cright cx))
      as [Hin|Hnin].
    + apply Rep_plug in H, H2. rewrite <- addrs_plug in Hin.
      rewrite <- HN in Hin. now apply (Rep_agree H2 H HN).
    + rewrite Hf2, Hf1; auto. now rewrite HN1, Ha.
Qed.

(** C6.  Rotations are inverse to each other and leave the colours alone:
    for a node [a] of a tree whose right child [b] is not the sentinel,
    [_left_rotate(a)] and then [_right_rotate(b)] run without exception
    and give back the state they started from (every object with the
    attributes it had, and the same root); for a node [a] whose left
    child [b] is not the sentinel, the same holds of [_right_rotate(a)]
    and then [_left_rotate(b)].  After each single rotation every object
    has the colour it had before. *)
Theorem rotations_inverse (s : RedBlackTree) (cx : ctx)
    (c1 c2 : Color) (a b : ref) (k1 k2 : Z) (t1 t2 t3 : tree) :
  (RepZ s (T c1 t1 a k1 (T c2 t2 b k2 t3)) cx ->
   exists s1 s2,
     _left_rotate (Some a) s = Ok (tt, s1)
     /\ _right_rotate (Some b) s1 = Ok (tt, s2)
     /\ same_state s2 s
     /\ (forall x, color (objs s1 x) = color (objs s x))
     /\ (forall x, color (objs s2 x) = color (objs s1 x)))
  /\ (RepZ s (T c1 (T c2 t1 b k2 t2) a k1 t3) cx ->
      exists s1 s2,
        _right_rotate (Some a) s = Ok (tt, s1)
        /\ _left_rotate (Some b) s1 = Ok (tt, s2)
        /\ same_state s2 s
        /\ (forall x, color (objs s1 x) = color (objs s x))
        /\ (forall x, color (objs s2 x) = color (objs s1 x))).
Proof.
  split; intros H.
  - destruct (left_rotate_spec H) as (s1 & Hl & H1 & HN1 & Hnx1 & Hf1).
    destruct (right_rotate_spec H1) as (s2 & Hr & H2 & HN2 & Hnx2 & Hf2).
    exists s1, s2. split; [exact Hl|]. split; [exact Hr|].
    split; [|split].
    + eapply rotate_back with (s1 := s1); eauto. simpl.
      now rewrite <- app_assoc.
    + apply (@left_rotate_keeps_colors _ _ _ _ Hl).
    + apply (@right_rotate_keeps_colors _ _ _ _ Hr).
  - destruct (right_rotate_spec H) as (s1 & Hr & H1 & HN1 & Hnx1 & Hf1).
    destruct (left_rotate_spec H1) as (s2 & Hl & H2 & HN2 & Hnx2 & Hf2).
    exists s1, s2. split; [exact Hr|]. split; [exact Hl|].
    split; [|split].
    + eapply rotate_back with (s1 := s1); eauto. simpl.
      now rewrite <- app_assoc.
    + apply (@right_rotate_keeps_colors _ _ _ _ Hr).
    + apply (@left_rotate_keeps_colors _ _ _ _ Hl).
Qed.

Lemma built_12 : built [1; 2]%Z state_12.
Proof. apply built_run. vm_compute. reflexivity. Qed.

Lemma built_21 : built [2; 1]%Z state_21.
Proof. apply built_run. vm_compute. reflexivity. Qed.

Lemma Rep_12 : Rep state_12 (T BLACK E 1 1%Z (T RED E 2 2%Z E)).
Proof. apply (built_inv built_12). Qed.

Lemma Rep_21 : Rep state_21 (T BLACK (T RED E 2 1%Z E) 1 2%Z E).
Proof. apply (built_inv built_21). Qed.

Lemma rotations_inverse_witness :
  (exists s1 s2,
     _left_rotate (Some 1) state_12 = Ok (tt, s1)
     /\ _right_rotate (Some 2) s1 = Ok (tt, s2)
     /\ same_state s2 state_12
     /\ (forall x, color (objs s1 x) = color (objs state_12 x))
     /\ (forall x, color (objs s2 x) = color (objs s1 x)))
  /\ (exists s1 s2,
        _right_rotate (Some 1) state_21 = Ok (tt, s1)
        /\ _left_rotate (Some 2) s1 = Ok (tt, s2)
        /\ same_state s2 state_21
        /\ (forall x, color (objs s1 x) = color (objs state_21 x))
        /\ (forall x, color (objs s2 x) = color (objs s1 x))).
Proof.
  split.
  - apply (proj1 (@rotations_inverse state_12 Top BLACK RED 1 2 1%Z 2%Z
                    E E E)).
    apply RepZ_Top. exact Rep_12.
  - apply (proj2 (@rotations_inverse state_21 Top BLACK RED 1 2 2%Z 1%Z
                    E E E)).
    apply RepZ_Top. exact Rep_21.
Defined.

(** *** Black height *)

Lemma paths_subtree cx : forall t n,
  Forall (fun p => p = n) (path_blacks (plug t cx)) ->
  exists m, Forall (fun p => p = m) (path_blacks t).
Proof.
  induction cx as [|c a k r up IH|c l a k up IH]; intros t n H; simpl in *.
  - eauto.
  - destruct (IH _ _ H) as [m Hm]. simpl in Hm.
    rewrite Forall_map, Forall_app in Hm. destruct Hm as [Hm _].
    exists (m - black_bit c)%Z. eapply Forall_impl; [|exact Hm].
    simpl. intros. lia.
  - destruct (IH _ _ H) as [m Hm]. simpl in Hm.
    rewrite Forall_map, Forall_app in Hm. destruct Hm as [_ Hm].
    exists (m - black_bit c)%Z. eapply Forall_impl; [|exact Hm].
    simpl. intros. lia.
Qed.

(** C7 (as amended).  In a state that holds a tree for which the validator
    returns [True], [get_black_height] of a node returns the number of
    black nodes on every path from that node down to a sentinel, the node
    itself counted when it is black and the sentinel not counted. *)
Theorem black_height_counts_from_node
    (s : RedBlackTree) (t : tree) (cx : ctx) :
  RepZ s t cx ->
  returns (fun fuel => validate_rb_properties fuel s) (true, s) ->
  exists h,
    returns (fun fuel => get_black_height fuel (Some (addr (NIL s) t)) s)
            (h, s)
    /\ Forall (fun p => p = h) (path_blacks t).
Proof.
  intros H Hv. pose proof (proj2 (Rep_plug s t cx) H) as Hrep.
  assert (Hval : fvalidate (plug t cx) = true).
  { apply (f_equal fst) with (x := (fvalidate (plug t cx), s)) (y := (true, s)).
    apply returns_fun
      with (run := fun fuel => validate_rb_properties fuel s); [|exact Hv].
    apply returns_read with (f0 := height (plug t cx)). intros f Hf.
    apply (@validate_spec s (plug t cx) f Hf Hrep). }
  apply fvalidate_iff in Hval. destruct Hval as (_ & _ & Hp).
  destruct (@paths_subtree cx t _ Hp) as [m Hm].
  exists (fbh t). split.
  - apply returns_read with (f0 := height t). intros f Hf.
    apply (@get_black_height_node_spec s t cx f Hf H).
  - apply same_paths_fbh. eauto.
Qed.

Lemma black_height_counts_from_node_witness :
  exists h,
    returns (fun fuel => get_black_height fuel (Some 2) state_12)
            (h, state_12)
    /\ Forall (fun p => p = h) (path_blacks (T RED E 2 2%Z E)).
Proof.
  apply (@black_height_counts_from_node state_12
           (T RED E 2 2%Z E) (CR BLACK E 1 1%Z Top)).
  - apply RepZ_down_R, RepZ_Top. exact Rep_12.
  - exact (built_validates built_12).
Defined.

(** C7 as stated fails.  After inserting 1 and 2 the tree is valid, with
    the black root 1 and its red right child 2.  For the node 2 the code
    returns 0, while every path from it down to a sentinel, the node left
    out, has one black node, the sentinel.  If the sentinel is not to be
    counted either, the claim fails at the root: the code returns 1 for
    it, and no path below the root has a black node. *)
Lemma black_height_excluding_node_fails :
  built [1; 2]%Z state_12
  /\ returns (fun fuel => validate_rb_properties fuel state_12)
             (true, state_12)
  /\ RepZ state_12 (T RED E 2 2%Z E) (CR BLACK E 1 1%Z Top)
  /\ returns (fun fuel => get_black_height fuel (Some 2) state_12)
             (0%Z, state_12)
  /\ blacks_below true (T RED E 2 2%Z E) = [1%Z; 1%Z]
  /\ RepZ state_12 (T BLACK E 1 1%Z (T RED E 2 2%Z E)) Top
  /\ returns (fun fuel => get_black_height fuel (Some 1) state_12)
             (1%Z, state_12)
  /\ blacks_below false (T BLACK E 1 1%Z (T RED E 2 2%Z E))
     = [0%Z; 0%Z; 0%Z].
Proof.
  assert (H1 : RepZ state_12 (T BLACK E 1 1%Z (T RED E 2 2%Z E)) Top).
  { apply RepZ_Top. exact Rep_12. }
  assert (H2 : RepZ state_12 (T RED E 2 2%Z E) (CR BLACK E 1 1%Z Top)).
  { apply RepZ_down_R. exact H1. }
  split; [exact built_12|].
  split; [apply (built_validates built_12)|].
  split; [exact H2|]. split.
  { apply returns_read with (f0 := 1). intros f Hf.
    apply (@get_black_height_node_spec state_12 (T RED E 2 2%Z E)
             (CR BLACK E 1 1%Z Top) f Hf H2). }
  split; [reflexivity|]. split; [exact H1|]. split; [|reflexivity].
  apply returns_read with (f0 := 2). intros f Hf.
  apply (@get_black_height_node_spec state_12
           (T BLACK E 1 1%Z (T RED E 2 2%Z E)) Top f Hf H1).
Qed.

Lemma built_ascending : built ascending_keys ascending_state.
Proof. apply built_run. vm_compute. reflexivity. Qed.

(** C8.  After inserting 1, 2, ..., 7 in ascending order into a new tree,
    [get_black_height()] returns 2, which is at most
    ceil(log2(7 + 1)) = 3. *)
Theorem ascending_black_height (s : RedBlackTree) :
  built ascending_keys s ->
  exists h,
    returns (fun fuel => get_black_height fuel None s) (h, s)
    /\ h = 2%Z
    /\ (h <= Z.log2_up (Z.of_nat (List.length ascending_keys) + 1))%Z.
Proof.
  intros Hb. destruct (built_inv Hb) as (Hrep & _).
  exists (fbh (tree_of ascending_keys)). split; [|split].
  - apply returns_read with (f0 := height (tree_of ascending_keys)).
    intros f Hf. apply (@get_black_height_spec s _ f Hf Hrep).
  - reflexivity.
  - vm_compute. discriminate.
Qed.

Lemma ascending_black_height_witness :
  exists h,
    returns (fun fuel => get_black_height fuel None ascending_state)
            (h, ascending_state)
    /\ h = 2%Z
    /\ (h <= Z.log2_up (Z.of_nat (List.length ascending_keys) + 1))%Z.
Proof. apply (@ascending_black_height ascending_state built_ascending). Defined.

(** *** The passes of the loop of [_fix_insert] *)

Lemma fix_passes_inv node s node' s' :
  fix_passes node s node' s' -> at_loop_head node s -> at_loop_head node' s'.
Proof.
  induction 1 as [|node s s0 node1 s1 node2 s2 Hg Hb Hp IH]; auto.
  intros (t & cx & -> & Ht & H & Hr). apply IH.
  rewrite (fix_guard_spec Ht H) in Hg. inversion Hg as [[Hc E0]]. subst s0.
  apply Color_eqb_RED in Hc.
  pose proof (red_has_grandparent cx Hr Hc) as Hgp.
  destruct (fix_body_spec Ht Hgp H) as (s' & Hb' & H' & HN & _).
  rewrite Hb' in Hb. inversion Hb; subst node1 s1.
  destruct (@fix_step_props _ _ Ht Hgp Hr) as (H1 & H2 & _).
  exists (fst (fix_step t cx)), (snd (fix_step t cx)).
  rewrite HN. auto.
Qed.

Lemma addr_plug_in nil up : forall c l a k r,
  In (addr nil (plug (T c l a k r) up)) (a :: cleft up ++ cright up).
Proof.
  induction up as [|c' a' k' r' up IH|c' l' a' k' up IH]; intros; simpl.
  - auto.
  - right. specialize (IH c' (T c l a k r) a' k' r'). in_list.
  - right. specialize (IH c' l' a' k' (T c l a k r)). in_list.
Qed.

Lemma loop_head_safe node s s0 :
  at_loop_head node s -> fix_guard node s = Ok (true, s0) ->
  exists n p g u v,
    node = Some n
    /\ parent (objs s n) = Some p /\ p <> NIL s /\ root s <> Some p
    /\ parent (objs s p) = Some g /\ g <> NIL s
    /\ left (objs s g) = Some u /\ right (objs s g) = Some v
    /\ exists node' s', fix_body node s = Ok (node', s').
Proof.
  intros (t & cx & -> & Ht & H & Hr) Hg.
  rewrite (fix_guard_spec Ht H) in Hg. inversion Hg as [[Hc E0]].
  subst s0. apply Color_eqb_RED in Hc.
  pose proof (red_has_grandparent cx Hr Hc) as Hgp.
  destruct (fix_body_spec Ht Hgp H) as (s' & Hb' & _).
  destruct t as [|c l a k r]; [congruence|].
  pose proof (RepZ_node H) as [Ha HaN].
  pose proof H as (_ & Hroot & _ & _ & Hnd & _).
  destruct cx as [|pc pa pk sib [|gc ga gk unc up|gc unc ga gk up]
                  |pc sib pa pk [|gc ga gk unc up|gc unc ga gk up]];
    try contradiction.
  - pose proof (RepZ_node (RepZ_up_L H)) as [Hpa HpN].
    pose proof (RepZ_node (RepZ_up_L (RepZ_up_L H))) as [Hga HgN].
    exists a, pa, ga, pa, (addr (NIL s) unc). cbn [addr] in *.
    rewrite Ha, Hpa, Hga. cbn [parent left right caddr addr].
    repeat split; auto; [|eauto].
    rewrite Hroot. cbn [plug]. intros E1. inversion E1 as [E2].
    pose proof (addr_plug_in (NIL s) up gc (T pc (T c l a k r) pa pk sib)
                  ga gk unc) as Hin.
    rewrite E2 in Hin. nd_facts. simpl in Hin. rewrite in_app_iff in Hin.
    intuition congruence.
  - pose proof (RepZ_node (RepZ_up_L H)) as [Hpa HpN].
    pose proof (RepZ_node (RepZ_up_R (RepZ_up_L H))) as [Hga HgN].
    exists a, pa, ga, (addr (NIL s) unc), pa. cbn [addr] in *.
    rewrite Ha, Hpa, Hga. cbn [parent left right caddr addr].
    repeat split; auto; [|eauto].
    rewrite Hroot. cbn [plug]. intros E1. inversion E1 as [E2].
    pose proof (addr_plug_in (NIL s) up gc unc ga gk
                  (T pc (T c l a k r) pa pk sib)) as Hin.
    rewrite E2 in Hin. nd_facts. simpl in Hin. rewrite in_app_iff in Hin.
    intuition congruence.
  - pose proof (RepZ_node (RepZ_up_R H)) as [Hpa HpN].
    pose proof (RepZ_node (RepZ_up_L (RepZ_up_R H))) as [Hga HgN].
    exists a, pa, ga, pa, (addr (NIL s) unc). cbn [addr] in *.
    rewrite Ha, Hpa, Hga. cbn [parent left right caddr addr].
    repeat split; auto; [|eauto].
    rewrite Hroot. cbn [plug]. intros E1. inversion E1 as [E2].
    pose proof (addr_plug_in (NIL s) up gc (T pc sib pa pk (T c l a k r))
                  ga gk unc) as Hin.
    rewrite E2 in Hin. nd_facts. simpl in Hin. rewrite in_app_iff in Hin.
    intuition congruence.
  - pose proof (RepZ_node (RepZ_up_R H)) as [Hpa HpN].
    pose proof (RepZ_node (RepZ_up_R (RepZ_up_R H))) as [Hga HgN].
    exists a, pa, ga, (addr (NIL s) unc), pa. cbn [addr] in *.
    rewrite Ha, Hpa, Hga. cbn [parent left right caddr addr].
    repeat split; auto; [|eauto].
    rewrite Hroot. cbn [plug]. intros E1. inversion E1 as [E2].
    pose proof (addr_plug_in (NIL s) up gc unc ga gk
                  (T pc sib pa pk (T c l a k r))) as Hin.
    rewrite E2 in Hin. nd_facts. simpl in Hin. rewrite in_app_iff in Hin.
    intuition congruence.
Qed.

(** C9.  In [insert] on a built tree, whenever the loop of [_fix_insert]
    enters its body (the parent of [node] is red), [node] is a node whose
    parent [p] is neither the sentinel nor the root, so the grandparent
    [g] is a node too, not the sentinel; the two children read from [g]
    for the uncle are references, not [None]; and the pass runs to its end
    without an exception. *)
Theorem fix_body_safe (ks : list Z) (s : RedBlackTree) (k : Z)
    (new : val) (s0 : RedBlackTree) (node : val) (s1 s2 : RedBlackTree) :
  built ks s ->
  returns (fun fuel => bst_attach fuel k s) (new, s0) ->
  fix_passes new s0 node s1 ->
  fix_guard node s1 = Ok (true, s2) ->
  exists n p g u v,
    node = Some n
    /\ parent (objs s1 n) = Some p /\ p <> NIL s1 /\ root s1 <> Some p
    /\ parent (objs s1 p) = Some g /\ g <> NIL s1
    /\ left (objs s1 g) = Some u /\ right (objs s1 g) = Some v
    /\ exists node' s', fix_body node s1 = Ok (node', s').
Proof.
  intros Hb [f0 Hatt] Hp Hg.
  destruct (built_inv Hb) as (Hrep & _ & _ & Hrb & _).
  set (t := tree_of ks) in *.
  destruct (@bst_attach_spec (f0 + S (height t)) k s t Hrep ltac:(lia))
    as (s0' & Hatt' & Hrep0 & HN0 & _).
  rewrite Hatt in Hatt'. inversion Hatt'; subst new s0'. clear Hatt'.
  apply loop_head_safe with (s0 := s2); auto.
  apply (fix_passes_inv Hp).
  exists (T RED E (next_id s) k E), (fdescend k t Top).
  split; [reflexivity|]. split; [discriminate|]. split; [exact Hrep0|].
  apply fdescend_red_below; simpl; auto. intros _. apply Hrb.
Qed.

Lemma fix_body_safe_witness :
  exists n p g u v,
    Some 3 = Some n
    /\ parent (objs attached_3 n) = Some p /\ p <> NIL attached_3
    /\ root attached_3 <> Some p
    /\ parent (objs attached_3 p) = Some g /\ g <> NIL attached_3
    /\ left (objs attached_3 g) = Some u
    /\ right (objs attached_3 g) = Some v
    /\ exists node' s', fix_body (Some 3) attached_3 = Ok (node', s').
Proof.
  apply (@fix_body_safe [1; 2]%Z state_12 3%Z (Some 3) attached_3 (Some 3)
           attached_3 attached_3 built_12).
  - apply returns_of_run with (f := 5). intros f' Hle.
    apply bst_attach_mono with (f := 5); [exact Hle|].
    vm_compute. reflexivity.
  - apply passes_none.
  - vm_compute. reflexivity.
Defined.

(** ** Part XIV.  Heap sort *)

Unset Implicit Arguments.

(** *** Items *)

Lemma nth_error_item arr i :
  i < List.length arr -> nth_error arr i = Some (item arr i).
Proof. intros H. unfold item. now apply nth_error_nth'. Qed.

Lemma set_item_spec arr : forall i v,
  i < List.length arr ->
  exists arr',
    set_item arr i v = Some arr'
    /\ List.length arr' = List.length arr
    /\ item arr' i = v
    /\ (forall j, j <> i -> item arr' j = item arr j).
Proof.
  induction arr as [|x arr IH]; intros i v Hi; simpl in *; [lia|].
  destruct i as [|i].
  - eexists. split; [reflexivity|]. repeat split; auto.
    intros [|j] Hj; [congruence|reflexivity].
  - destruct (IH i v ltac:(lia)) as (arr' & -> & Hlen & Hi' & Hj').
    eexists. split; [reflexivity|]. simpl. repeat split; auto.
    intros [|j] Hj; [reflexivity|]. unfold item in *. simpl.
    apply Hj'. lia.
Qed.

Lemma nth_error_none_item (arr : list Z) i :
  List.length arr <= i -> nth_error arr i = None.
Proof. apply nth_error_None. Qed.

Lemma transposition_perm (arr arr' : list Z) i j :
  i < List.length arr -> j < List.length arr ->
  List.length arr' = List.length arr ->
  item arr' i = item arr j -> item arr' j = item arr i ->
  (forall k, k <> i -> k <> j -> item arr' k = item arr k) ->
  Permutation arr arr'.
Proof.
  intros Hi Hj Hlen Hii Hjj Hk.
  apply Permutation_nth_error. split; [now symmetry|].
  exists (fun x => if Nat.eqb x i then j else if Nat.eqb x j then i else x).
  split.
  - intros x y.
    destruct (Nat.eqb_spec x i), (Nat.eqb_spec y i),
      (Nat.eqb_spec x j), (Nat.eqb_spec y j); lia.
  - intros x.
    destruct (Nat.eqb_spec x i) as [->|Hxi].
    { rewrite !nth_error_item by lia. now rewrite Hii. }
    destruct (Nat.eqb_spec x j) as [->|Hxj].
    { rewrite !nth_error_item by lia. now rewrite Hjj. }
    destruct (Nat.lt_ge_cases x (List.length arr)) as [Hx|Hx].
    + rewrite !nth_error_item by lia. now rewrite Hk.
    + rewrite !nth_error_none_item by lia. reflexivity.
Qed.

Lemma swap_spec arr i j :
  i < List.length arr -> j < List.length arr ->
  exists arr',
    swap arr i j = Some arr'
    /\ List.length arr' = List.length arr
    /\ item arr' i = item arr j
    /\ item arr' j = item arr i
    /\ (forall k, k <> i -> k <> j -> item arr' k = item arr k)
    /\ Permutation arr arr'.
Proof.
  intros Hi Hj. unfold swap.
  rewrite (nth_error_item arr j Hj), (nth_error_item arr i Hi).
  destruct (set_item_spec arr i (item arr j) Hi)
    as (arr1 & -> & Hlen1 & Hi1 & Hk1).
  destruct (set_item_spec arr1 j (item arr i) ltac:(lia))
    as (arr2 & -> & Hlen2 & Hj2 & Hk2).
  assert (Hii : item arr2 i = item arr j).
  { destruct (Nat.eq_dec i j) as [->|Hne]; [now rewrite Hj2|].
    rewrite Hk2; auto. }
  assert (Hkk : forall k, k <> i -> k <> j -> item arr2 k = item arr k).
  { intros k H1 H2. rewrite Hk2, Hk1; auto. }
  exists arr2. split; [reflexivity|]. split; [congruence|].
  split; [exact Hii|]. split; [exact Hj2|]. split; [exact Hkk|].
  apply transposition_perm with (i := i) (j := j); auto. congruence.
Qed.

(** *** The choice of [largest] *)

Lemma largest_of_spec arr n i :
  n <= List.length arr ->
  exists lg,
    largest_of arr n i = Some lg
    /\ (lg = i \/ (lg = 2 * i + 1 /\ lg < n) \/ (lg = 2 * i + 2 /\ lg < n))
    /\ (item arr i <= item arr lg)%Z
    /\ (2 * i + 1 < n -> (item arr (2 * i + 1) <= item arr lg)%Z)
    /\ (2 * i + 2 < n -> (item arr (2 * i + 2) <= item arr lg)%Z).
Proof.
  intros Hn. unfold largest_of, pick.
  destruct (Nat.ltb_spec (2 * i + 1) n) as [H1|H1].
  - rewrite (nth_error_item arr i ltac:(lia)),
      (nth_error_item arr (2 * i + 1) ltac:(lia)).
    destruct (Z.ltb_spec (item arr i) (item arr (2 * i + 1))) as [Hlt|Hge];
      destruct (Nat.ltb_spec (2 * i + 2) n) as [H2|H2].
    + rewrite (nth_error_item arr (2 * i + 1) ltac:(lia)),
        (nth_error_item arr (2 * i + 2) ltac:(lia)).
      destruct (Z.ltb_spec (item arr (2 * i + 1)) (item arr (2 * i + 2)));
        eexists; (split; [reflexivity|]); repeat split; try lia.
    + eexists; (split; [reflexivity|]); repeat split; try lia.
    + rewrite (nth_error_item arr i ltac:(lia)),
        (nth_error_item arr (2 * i + 2) ltac:(lia)).
      destruct (Z.ltb_spec (item arr i) (item arr (2 * i + 2)));
        eexists; (split; [reflexivity|]); repeat split; try lia.
    + eexists; (split; [reflexivity|]); repeat split; try lia.
  - destruct (Nat.ltb_spec (2 * i + 2) n) as [H2|H2]; [lia|].
    eexists; (split; [reflexivity|]); repeat split; try lia.
Qed.

(** *** Descendants *)

Lemma desc_le i j : desc i j -> i <= j.
Proof. induction 1; lia. Qed.

Lemma desc_trans i j k : desc i j -> desc j k -> desc i k.
Proof. intros Hij Hjk. induction Hjk; auto using desc. Qed.

Lemma desc_child_inv c j k :
  desc c k -> k = 2 * j + 1 \/ k = 2 * j + 2 -> k = c \/ desc c j.
Proof.
  intros H Hk. inversion H as [|j' Hj' E|j' Hj' E]; auto; right;
    assert (j' = j) by lia; subst; auto.
Qed.

Lemma desc_zero j : desc 0 j.
Proof.
  induction j as [j IH] using lt_wf_ind.
  destruct j as [|j]; [constructor|].
  destruct (Nat.even (S j)) eqn:Ev.
  - apply Nat.even_spec in Ev. destruct Ev as [m Hm].
    assert (E : S j = 2 * (m - 1) + 2) by lia. rewrite E.
    apply desc_right, IH. lia.
  - assert (Od : Nat.odd (S j) = true).
    { rewrite <- Nat.negb_even, Ev. reflexivity. }
    apply Nat.odd_spec in Od. destruct Od as [m Hm]. rewrite Hm.
    apply desc_left, IH. lia.
Qed.

Lemma desc_dec i j : desc i j \/ ~ desc i j.
Proof.
  induction j as [j IH] using lt_wf_ind.
  destruct (Nat.eq_dec j i) as [->|Hne]; [left; constructor|].
  destruct j as [|j].
  - right. intros H. apply desc_le in H. lia.
  - destruct (Nat.even (S j)) eqn:Ev.
    + apply Nat.even_spec in Ev. destruct Ev as [m Hm].
      assert (E : S j = 2 * (m - 1) + 2) by lia.
      destruct (IH (m - 1) ltac:(lia)) as [Hd|Hd].
      * left. rewrite E. now apply desc_right.
      * right. intros H. rewrite E in H.
        destruct (desc_child_inv i (m - 1) _ H (or_intror eq_refl));
          [lia|contradiction].
    + assert (Od : Nat.odd (S j) = true).
      { rewrite <- Nat.negb_even, Ev. reflexivity. }
      apply Nat.odd_spec in Od. destruct Od as [m Hm].
      destruct (IH m ltac:(lia)) as [Hd|Hd].
      * left. rewrite Hm. now apply desc_left.
      * right. intros H. rewrite Hm in H.
        destruct (desc_child_inv i m _ H (or_introl eq_refl));
          [lia|contradiction].
Qed.

(** The root of a heap is at least every item below it. *)
Lemma heap_root_max arr n c :
  (forall j, desc c j -> j < n -> heap_at arr n j) ->
  forall j, desc c j -> j < n -> (item arr j <= item arr c)%Z.
Proof.
  intros Hh j Hd. induction Hd as [|j Hd IH|j Hd IH]; intros Hj; [lia| |].
  - destruct (Hh j Hd ltac:(lia)) as [H1 _].
    specialize (IH ltac:(lia)). specialize (H1 Hj). lia.
  - destruct (Hh j Hd ltac:(lia)) as [_ H2].
    specialize (IH ltac:(lia)). specialize (H2 Hj). lia.
Qed.

(** *** [heapify] *)

Lemma heapify_spec arr n i :
  n <= List.length arr ->
  (forall j, i < j < n -> heap_at arr n j) ->
  exists arr',
    heapify arr n i = Some arr'
    /\ List.length arr' = List.length arr
    /\ Permutation arr arr'
    /\ (forall j, ~ desc i j -> item arr' j = item arr j)
    /\ (forall j, n <= j -> item arr' j = item arr j)
    /\ (forall j, i <= j < n -> heap_at arr' n j)
    /\ (forall M, (forall j, desc i j -> j < n -> (item arr j <= M)%Z) ->
                  forall j, desc i j -> j < n -> (item arr' j <= M)%Z).
Proof.
  funelim (heapify arr n i); intros Hn Hheap;
    repeat match goal with
      | H : sigmaI _ _ _ = sigmaI _ _ _ |- _ => clear H
      | H : _ = heapify _ _ _ |- _ => clear H
      end.
  - destruct (largest_of_spec arr n i Hn) as (lg & E & _). congruence.
  - match goal with
    | H : (largest =? i) = true |- _ => apply Nat.eqb_eq in H; subst largest
    end.
    destruct (largest_of_spec arr n i Hn) as (lg & E & _ & H0 & H1 & H2).
    rewrite Hl in E. inversion E; subst lg.
    exists arr. repeat split; auto.
    + destruct (Nat.eq_dec j i) as [->|Hne]; [auto|].
      apply Hheap. lia.
    + destruct (Nat.eq_dec j i) as [->|Hne]; [auto|].
      apply Hheap. lia.
  - match goal with
    | H : (largest =? i) = false |- _ => apply Nat.eqb_neq in H
    end.
    match goal with
    | H : _ -> _ -> exists _, _ |- _ => rename H into IH
    end.
    match goal with
    | H : swap _ _ _ = Some _ |- _ => rename H into Heq
    end.
    rename largest into c.
    destruct (largest_of_spec arr n i Hn) as (lg & E & Hc & H0 & H1 & H2).
    rewrite Hl in E. inversion E; subst lg. clear E.
    assert (Hic : i < c < n) by lia.
    destruct (swap_spec arr i c ltac:(lia) ltac:(lia))
      as (arr1 & Hsw & Hlen1 & Hi1 & Hc1 & Hk1 & Hp1).
    rewrite Heq in Hsw. inversion Hsw; subst arr1. clear Hsw.
    assert (Hdic : desc i c).
    { destruct Hc as [?|[[-> _]|[-> _]]]; [lia| |];
        constructor; constructor. }
    assert (Hpre : forall j, c < j < n -> heap_at arr' n j).
    { intros j Hj. destruct (Hheap j ltac:(lia)) as [Ha Hb].
      unfold heap_at. split; intros Hk; rewrite !Hk1 by lia; auto. }
    destruct (IH ltac:(lia) Hpre)
      as (arr2 & Hh & Hlen2 & Hp2 & Hfr & Hout & Hheap2 & Hbound).
    assert (Hsub : forall j, desc c j -> j < n ->
                             (item arr' j <= item arr c)%Z).
    { intros j Hd Hj. destruct (Nat.eq_dec j c) as [->|Hjc].
      - rewrite Hc1. exact H0.
      - pose proof (desc_le _ _ Hd). rewrite Hk1 by lia.
        apply heap_root_max with (n := n); auto.
        intros j' Hd' Hj'. apply Hheap. pose proof (desc_le _ _ Hd'). lia. }
    assert (Hnd : forall j, j < c -> ~ desc c j).
    { intros j Hj Hd. apply desc_le in Hd. lia. }
    exists arr2. split; [exact Hh|]. split; [congruence|].
    split; [now rewrite Hp1|]. split; [|split; [|split]].
    + intros j Hj. rewrite Hfr.
      * apply Hk1; intros ->; apply Hj; auto using desc.
      * intros Hd. apply Hj. now apply desc_trans with (j := c).
    + intros j Hj. rewrite Hout by lia. apply Hk1; lia.
    + intros j Hj. destruct (Nat.le_gt_cases c j) as [Hcj|Hcj].
      { apply Hheap2. lia. }
      assert (Hchild : forall k, k = 2 * j + 1 \/ k = 2 * j + 2 -> k <> c ->
                                 item arr2 k = item arr' k).
      { intros k Hk Hkc. apply Hfr. intros Hd.
        destruct (desc_child_inv c j k Hd Hk) as [?|Hd']; [lia|].
        apply desc_le in Hd'. lia. }
      destruct (Nat.eq_dec j i) as [->|Hji].
      * unfold heap_at. rewrite (Hfr i (Hnd i ltac:(lia))), Hi1.
        split; intros Hk.
        -- destruct (Nat.eq_dec (2 * i + 1) c) as [Ek|Ek].
           ++ rewrite Ek. apply Hbound with (M := item arr c); auto;
                [constructor|lia].
           ++ rewrite Hchild, Hk1 by lia. auto.
        -- destruct (Nat.eq_dec (2 * i + 2) c) as [Ek|Ek].
           ++ rewrite Ek. apply Hbound with (M := item arr c); auto;
                [constructor|lia].
           ++ rewrite Hchild, Hk1 by lia. auto.
      * destruct (Hheap j ltac:(lia)) as [Ha Hb].
        unfold heap_at. rewrite (Hfr j (Hnd j ltac:(lia))), Hk1 by lia.
        split; intros Hk.
        -- rewrite Hchild, Hk1 by lia. auto.
        -- rewrite Hchild, Hk1 by lia. auto.
    + intros M HM j Hd Hj. destruct (desc_dec c j) as [Hcj|Hcj].
      * apply Hbound; auto. intros j' Hd' Hj'.
        destruct (Nat.eq_dec j' c) as [->|Hne'].
        -- rewrite Hc1. apply HM; [constructor|lia].
        -- pose proof (desc_le _ _ Hd'). rewrite Hk1 by lia.
           apply HM; auto. now apply desc_trans with (j := c).
      * rewrite Hfr by exact Hcj.
        destruct (Nat.eq_dec j i) as [->|Hji].
        -- rewrite Hi1. apply HM; [exact Hdic|lia].
        -- rewrite Hk1; [now apply HM|exact Hji|].
           intros ->. apply Hcj. constructor.
  - match goal with
    | H : (largest =? i) = false |- _ => apply Nat.eqb_neq in H
    end.
    destruct (largest_of_spec arr n i Hn) as (lg & E & Hc & _).
    rewrite Hl in E. inversion E; subst lg.
    destruct (swap_spec arr i largest ltac:(lia) ltac:(lia))
      as (arr1 & Hsw & _). congruence.
Qed.

(** *** The two loops of [heap_sort] *)

Lemma build_heap_spec n count : forall arr,
  n <= List.length arr -> count <= n ->
  (forall j, count <= j < n -> heap_at arr n j) ->
  exists arr',
    build_heap count n arr = Some arr'
    /\ List.length arr' = List.length arr
    /\ Permutation arr arr'
    /\ (forall j, j < n -> heap_at arr' n j).
Proof.
  induction count as [|i IH]; intros arr Hn Hc Hheap; simpl.
  - exists arr. split; [reflexivity|]. split; [reflexivity|].
    split; [reflexivity|]. intros j Hj. apply Hheap. lia.
  - destruct (heapify_spec arr n i Hn) as (arr1 & -> & Hlen & Hp & _ & _ & Hh & _).
    { intros j Hj. apply Hheap. lia. }
    destruct (IH arr1 ltac:(lia) ltac:(lia)) as (arr2 & -> & Hlen2 & Hp2 & Hh2).
    { intros j Hj. apply Hh. lia. }
    exists arr2. split; [reflexivity|]. split; [congruence|].
    split; [now rewrite Hp|exact Hh2].
Qed.

Lemma extract_all_spec i : forall arr,
  i < List.length arr ->
  (forall j, j < S i -> heap_at arr (S i) j) ->
  (forall j k, i < j -> j <= k -> k < List.length arr ->
               (item arr j <= item arr k)%Z) ->
  (forall j k, j <= i -> i < k -> k < List.length arr ->
               (item arr j <= item arr k)%Z) ->
  exists arr',
    extract_all i arr = Some arr'
    /\ List.length arr' = List.length arr
    /\ Permutation arr arr'
    /\ (forall j k, j <= k -> k < List.length arr' ->
                    (item arr' j <= item arr' k)%Z).
Proof.
  induction i as [|i IH]; intros arr Hi Hheap Hsuf Hpre.
  - exists arr. simpl. split; [reflexivity|]. split; [reflexivity|].
    split; [reflexivity|]. intros j k Hjk Hk.
    destruct (Nat.eq_dec j k) as [->|Hne]; [lia|].
    destruct j as [|j]; [apply Hpre|apply Hsuf]; lia.
  - cbn [extract_all].
    destruct (swap_spec arr (S i) 0 Hi ltac:(lia))
      as (arr1 & -> & Hlen1 & Hi1 & H01 & Hk1 & Hp1).
    assert (Hmax : forall j, j < S (S i) -> (item arr j <= item arr 0)%Z).
    { intros j Hj. apply heap_root_max with (n := S (S i)); auto.
      apply desc_zero. }
    destruct (heapify_spec arr1 (S i) 0 ltac:(lia))
      as (arr2 & -> & Hlen2 & Hp2 & _ & Hout & Hh & Hbound).
    { intros j Hj. destruct (Hheap j ltac:(lia)) as [Ha Hb].
      unfold heap_at.
      split; intros Hk; rewrite !Hk1 by lia; [apply Ha|apply Hb]; lia. }
    assert (Hle : forall j, j < S i -> (item arr2 j <= item arr 0)%Z).
    { intros j Hj. apply Hbound; auto using desc_zero.
      intros j' _ Hj'. destruct j' as [|j'].
      - rewrite H01. apply Hmax. lia.
      - rewrite Hk1 by lia. apply Hmax. lia. }
    assert (Hge : forall k, S i <= k -> k < List.length arr ->
                            (item arr 0 <= item arr2 k)%Z).
    { intros k Hk Hk'. rewrite Hout by lia.
      destruct (Nat.eq_dec k (S i)) as [->|Hne]; [rewrite Hi1; lia|].
      rewrite Hk1 by lia. apply Hpre; lia. }
    destruct (IH arr2 ltac:(lia)) as (arr3 & -> & Hlen3 & Hp3 & Hs3).
    + intros j Hj. apply Hh. lia.
    + intros j k Hj Hjk Hk. rewrite Hlen2, Hlen1 in Hk.
      destruct (Nat.eq_dec j k) as [->|Hne]; [lia|].
      destruct (Nat.eq_dec j (S i)) as [->|Hne'].
      * rewrite (Hout (S i)) by lia. rewrite Hi1. apply Hge; lia.
      * rewrite !Hout by lia. rewrite !Hk1 by lia. apply Hsuf; lia.
    + intros j k Hj Hk Hk'. rewrite Hlen2, Hlen1 in Hk'.
      specialize (Hle j ltac:(lia)). specialize (Hge k ltac:(lia) Hk'). lia.
    + exists arr3. split; [reflexivity|]. split; [congruence|].
      split; [now rewrite Hp1, Hp2|exact Hs3].
Qed.

Lemma sorted_of_items arr :
  (forall j k, j <= k -> k < List.length arr ->
               (item arr j <= item arr k)%Z) ->
  Sorted Z.le arr.
Proof.
  induction arr as [|x arr IH]; intros H; constructor.
  - apply IH. intros j k Hjk Hk.
    apply (H (S j) (S k)); simpl; lia.
  - destruct arr as [|y arr]; constructor.
    apply (H 0 1); simpl; lia.
Qed.

Lemma heap_sort_spec arr :
  exists arr',
    heap_sort arr = Some arr' /\ Permutation arr arr' /\ Sorted Z.le arr'.
Proof.
  unfold heap_sort. set (n := List.length arr).
  destruct (build_heap_spec n (n / 2) arr (Nat.le_refl _))
    as (arr1 & -> & Hlen1 & Hp1 & Hh1).
  { apply Nat.Div0.div_le_upper_bound. lia. }
  { intros j Hj. unfold heap_at.
    assert (n <= 2 * j + 1).
    { pose proof (Nat.div_mod_eq n 2).
      pose proof (Nat.mod_upper_bound n 2). lia. }
    split; intros; lia. }
  destruct (Nat.eq_dec n 0) as [E|E].
  - rewrite E. simpl. exists arr1. split; [reflexivity|]. split; auto.
    destruct arr1; [constructor|]. simpl in Hlen1. fold n in Hlen1. lia.
  - destruct (extract_all_spec (n - 1) arr1) as (arr2 & -> & Hlen2 & Hp2 & Hs).
    + lia.
    + intros j Hj. replace (S (n - 1)) with n by lia. apply Hh1. lia.
    + intros j k Hj Hjk Hk. lia.
    + intros j k Hj Hjk Hk. lia.
    + exists arr2. split; [reflexivity|]. split; [now rewrite Hp1|].
      now apply sorted_of_items.
Qed.

(** C10.  [heap_sort(arr)] returns the list object it was given, and the
    contents of that object after the call are the contents before the
    call rearranged in non-decreasing order; no other list is touched. *)
Theorem heap_sort_sorts (lists : ref -> list Z) (arr : ref) :
  exists lists',
    heap_sort_call lists arr = Some (arr, lists')
    /\ Sorted Z.le (lists' arr)
    /\ Permutation (lists arr) (lists' arr)
    /\ (forall r, r <> arr -> lists' r = lists r).
Proof.
  unfold heap_sort_call.
  destruct (heap_sort_spec (lists arr)) as (l & -> & Hp & Hs).
  eexists. split; [reflexivity|]. cbv beta. rewrite Nat.eqb_refl.
  split; [exact Hs|]. split; [exact Hp|].
  intros r Hr. apply Nat.eqb_neq in Hr. now rewrite Hr.
Qed.

(** ** Part XV.  Further properties of heap sort *)

Lemma sorted_perm_unique (l : list Z) : forall l',
  Sorted Z.le l -> Sorted Z.le l' -> Permutation l l' -> l = l'.
Proof.
  induction l as [|x l IH]; intros l' Hs Hs' Hp.
  - apply Permutation_nil in Hp. now subst.
  - destruct l' as [|y l'].
    { apply Permutation_sym, Permutation_nil in Hp. discriminate. }
    apply Sorted_StronglySorted in Hs; [|intros a b c; apply Z.le_trans].
    apply Sorted_StronglySorted in Hs'; [|intros a b c; apply Z.le_trans].
    inversion Hs as [|? ? Hs1 Hx]; subst.
    inversion Hs' as [|? ? Hs1' Hy]; subst.
    assert (E : x = y).
    { assert (Hin : In x (y :: l')).
      { eapply Permutation_in; [exact Hp|now left]. }
      assert (Hin' : In y (x :: l)).
      { eapply Permutation_in; [symmetry; exact Hp|now left]. }
      rewrite Forall_forall in Hx, Hy.
      destruct Hin as [->|Hin]; [reflexivity|].
      destruct Hin' as [->|Hin']; [reflexivity|].
      specialize (Hx _ Hin'). specialize (Hy _ Hin). lia. }
    subst y. f_equal. apply IH.
    + now apply StronglySorted_Sorted.
    + now apply StronglySorted_Sorted.
    + now apply Permutation_cons_inv in Hp.
Qed.

Lemma largest_of_heap arr n i :
  n <= List.length arr -> heap_at arr n i -> largest_of arr n i = Some i.
Proof.
  intros Hn [H1 H2]. unfold largest_of, pick.
  destruct (Nat.ltb_spec (2 * i + 1) n) as [L1|L1].
  - rewrite (nth_error_item arr i ltac:(lia)),
      (nth_error_item arr (2 * i + 1) ltac:(lia)).
    specialize (H1 L1).
    destruct (Z.ltb_spec (item arr i) (item arr (2 * i + 1))); [lia|].
    destruct (Nat.ltb_spec (2 * i + 2) n) as [L2|L2]; [|reflexivity].
    rewrite (nth_error_item arr i ltac:(lia)),
      (nth_error_item arr (2 * i + 2) ltac:(lia)).
    specialize (H2 L2).
    destruct (Z.ltb_spec (item arr i) (item arr (2 * i + 2))); [lia|].
    reflexivity.
  - destruct (Nat.ltb_spec (2 * i + 2) n) as [L2|L2]; [lia|reflexivity].
Qed.

Lemma heapify_of_largest arr n i :
  largest_of arr n i = Some i -> heapify arr n i = Some arr.
Proof.
  intros H. funelim (heapify arr n i);
    repeat match goal with
      | H : sigmaI _ _ _ = sigmaI _ _ _ |- _ => clear H
      | H : _ = heapify _ _ _ |- _ => clear H
      end; try congruence;
    match goal with
    | H1 : largest_of ?a ?n ?i = Some ?l, H2 : largest_of ?a ?n ?i = Some ?i,
      H3 : (?l =? ?i) = false |- _ =>
        rewrite H1 in H2; inversion H2; subst;
        rewrite Nat.eqb_refl in H3; discriminate
    end.
Qed.

Lemma heapify_of_none arr n i :
  largest_of arr n i = None -> heapify arr n i = None.
Proof.
  intros H. funelim (heapify arr n i);
    repeat match goal with
      | H : sigmaI _ _ _ = sigmaI _ _ _ |- _ => clear H
      | H : _ = heapify _ _ _ |- _ => clear H
      end; congruence.
Qed.

(** X1.  [heapify(arr, n, i)] with a heap size [n] that does not exceed
    [len(arr)] raises no [IndexError], whatever the contents of the list:
    it returns, the list has the length it had, its contents are those it
    had in another order, and the items before index [i] and from index
    [n] on are not touched. *)
Theorem heapify_in_bounds (arr : list Z) (n i : nat) :
  n <= List.length arr ->
  exists arr',
    heapify arr n i = Some arr'
    /\ List.length arr' = List.length arr
    /\ Permutation arr arr'
    /\ (forall j, j < i \/ n <= j -> nth_error arr' j = nth_error arr j).
Proof.
  funelim (heapify arr n i); intros Hn;
    repeat match goal with
      | H : sigmaI _ _ _ = sigmaI _ _ _ |- _ => clear H
      | H : _ = heapify _ _ _ |- _ => clear H
      end.
  - destruct (largest_of_spec arr n i Hn) as (lg & E & _). congruence.
  - exists arr. repeat split; auto.
  - match goal with
    | H : (largest =? i) = false |- _ => apply Nat.eqb_neq in H
    end.
    match goal with
    | H : _ -> exists _, _ |- _ => rename H into IH
    end.
    match goal with
    | H : swap _ _ _ = Some _ |- _ => rename H into Heq
    end.
    rename largest into c.
    destruct (largest_of_spec arr n i Hn) as (lg & E & Hc & _).
    rewrite Hl in E. inversion E; subst lg. clear E.
    assert (Hic : i < c < n) by lia.
    destruct (swap_spec arr i c ltac:(lia) ltac:(lia))
      as (arr1 & Hsw & Hlen1 & Hi1 & Hc1 & Hk1 & Hp1).
    rewrite Heq in Hsw. inversion Hsw; subst arr1. clear Hsw.
    destruct (IH ltac:(lia)) as (arr2 & Hh & Hlen2 & Hp2 & Hfr).
    exists arr2. split; [exact Hh|]. split; [congruence|].
    split; [now rewrite Hp1|].
    intros j Hj. rewrite Hfr by lia.
    destruct (Nat.lt_ge_cases j (List.length arr)) as [Hlt|Hge].
    + rewrite !nth_error_item by lia. f_equal. apply Hk1; lia.
    + rewrite !nth_error_none_item by lia. reflexivity.
  - match goal with
    | H : (largest =? i) = false |- _ => apply Nat.eqb_neq in H
    end.
    destruct (largest_of_spec arr n i Hn) as (lg & E & Hc & _).
    rewrite Hl in E. inversion E; subst lg.
    destruct (swap_spec arr i largest ltac:(lia) ltac:(lia))
      as (arr1 & Hsw & _). congruence.
Qed.

Lemma heapify_in_bounds_witness :
  exists arr',
    heapify [1; 5; 3; 9]%Z 3 0 = Some arr'
    /\ List.length arr' = 4
    /\ Permutation [1; 5; 3; 9]%Z arr'
    /\ (forall j, j < 0 \/ 3 <= j ->
                  nth_error arr' j = nth_error [1; 5; 3; 9]%Z j).
Proof. apply (heapify_in_bounds [1; 5; 3; 9]%Z 3 0). simpl. lia. Defined.

(** X2.  [heapify(arr, n, i)] raises [IndexError] when a child index of
    [i] ([2 * i + 1] or [2 * i + 2]) is below the heap size [n] and outside
    the list: the comparison reads [arr[child]] as soon as [child < n]. *)
Theorem heapify_index_error (arr : list Z) (n i c : nat) :
  c = 2 * i + 1 \/ c = 2 * i + 2 ->
  c < n -> List.length arr <= c ->
  heapify arr n i = None.
Proof.
  intros Hc Hn Hlen. apply heapify_of_none. unfold largest_of, pick.
  destruct (Nat.ltb_spec (2 * i + 1) n) as [_|]; [|lia].
  destruct (nth_error arr i) as [x|]; [|reflexivity].
  destruct (nth_error arr (2 * i + 1)) as [y|] eqn:E1; [|reflexivity].
  assert (H1 : 2 * i + 1 < List.length arr).
  { apply nth_error_Some. congruence. }
  destruct Hc as [->| ->]; [lia|].
  destruct (Nat.ltb_spec (2 * i + 2) n) as [_|]; [|lia].
  rewrite (nth_error_none_item arr (2 * i + 2) Hlen).
  now destruct (nth_error arr (if (x <? y)%Z then 2 * i + 1 else i)).
Qed.

Lemma heapify_index_error_witness :
  heapify [4; 2]%Z 3 0 = None /\ heapify [4; 2]%Z 4 1 = None.
Proof.
  split.
  - apply (heapify_index_error [4; 2]%Z 3 0 2); simpl; lia.
  - apply (heapify_index_error [4; 2]%Z 4 1 3); simpl; lia.
Defined.

(** X3.  Sifting down: when [n] does not exceed [len(arr)] and the heap
    condition holds at every index after [i] and below [n],
    [heapify(arr, n, i)] returns with the heap condition at every index
    from [i] on and below [n]; the list is rearranged, and only at [i] and
    its descendants in the implicit tree. *)
Theorem heapify_sifts_down (arr : list Z) (n i : nat) :
  n <= List.length arr ->
  (forall j, i < j < n -> heap_at arr n j) ->
  exists arr',
    heapify arr n i = Some arr'
    /\ Permutation arr arr'
    /\ (forall j, i <= j < n -> heap_at arr' n j)
    /\ (forall j, ~ desc i j -> item arr' j = item arr j).
Proof.
  intros Hn Hh.
  destruct (heapify_spec arr n i Hn Hh)
    as (arr' & E & _ & Hp & Hfr & _ & Hheap & _).
  exists arr'. auto.
Qed.

Lemma heapify_sifts_down_witness :
  exists arr',
    heapify [1; 9; 7; 4; 8]%Z 5 0 = Some arr'
    /\ Permutation [1; 9; 7; 4; 8]%Z arr'
    /\ (forall j, 0 <= j < 5 -> heap_at arr' 5 j)
    /\ (forall j, ~ desc 0 j ->
                  item arr' j = item [1; 9; 7; 4; 8]%Z j).
Proof.
  apply (heapify_sifts_down [1; 9; 7; 4; 8]%Z 5 0).
  - simpl. lia.
  - intros j Hj. unfold heap_at.
    assert (E : j = 1 \/ j = 2 \/ j = 3 \/ j = 4) by lia.
    destruct E as [->|[->|[->| ->]]]; simpl; split; intros; try lia;
      unfold item; simpl; lia.
Defined.

(** X4.  Under the same conditions a second call [heapify(arr, n, i)]
    changes nothing: the first call has made the item at [i] at least as
    large as its children, and the second finds [largest == i]. *)
Theorem heapify_idempotent (arr : list Z) (n i : nat) :
  n <= List.length arr ->
  (forall j, i < j < n -> heap_at arr n j) ->
  exists arr',
    heapify arr n i = Some arr' /\ heapify arr' n i = Some arr'.
Proof.
  intros Hn Hh.
  destruct (heapify_spec arr n i Hn Hh)
    as (arr' & E & Hlen & _ & _ & _ & Hheap & _).
  exists arr'. split; [exact E|].
  destruct (Nat.lt_ge_cases i n) as [Hi|Hi].
  - apply heapify_of_largest, largest_of_heap; [lia|]. apply Hheap. lia.
  - apply heapify_of_largest, largest_of_heap; [lia|].
    unfold heap_at. split; intros; lia.
Qed.

Lemma heapify_idempotent_witness :
  exists arr',
    heapify [1; 9; 7; 4; 8]%Z 5 0 = Some arr'
    /\ heapify arr' 5 0 = Some arr'.
Proof.
  apply (heapify_idempotent [1; 9; 7; 4; 8]%Z 5 0).
  - simpl. lia.
  - intros j Hj. unfold heap_at.
    assert (E : j = 1 \/ j = 2 \/ j = 3 \/ j = 4) by lia.
    destruct E as [->|[->|[->| ->]]]; simpl; split; intros; try lia;
      unfold item; simpl; lia.
Defined.

(** X5.  The first loop of [heap_sort], [heapify(arr, n, i)] for [i]
    from [n // 2 - 1] down to 0, raises nothing and turns any list into a
    max-heap: a rearrangement of the list in which no item is smaller than
    its children, so that the largest item is at index 0. *)
Theorem first_loop_builds_max_heap (arr : list Z) :
  exists arr',
    build_heap (List.length arr / 2) (List.length arr) arr = Some arr'
    /\ Permutation arr arr'
    /\ (forall j, j < List.length arr -> heap_at arr' (List.length arr) j)
    /\ (forall j, j < List.length arr -> (item arr' j <= item arr' 0)%Z).
Proof.
  set (n := List.length arr).
  destruct (build_heap_spec n (n / 2) arr (Nat.le_refl _))
    as (arr1 & E & Hlen1 & Hp1 & Hh1).
  { apply Nat.Div0.div_le_upper_bound. lia. }
  { intros j Hj. unfold heap_at.
    assert (n <= 2 * j + 1).
    { pose proof (Nat.div_mod_eq n 2).
      pose proof (Nat.mod_upper_bound n 2). lia. }
    split; intros; lia. }
  exists arr1. split; [exact E|]. split; [exact Hp1|]. split; [exact Hh1|].
  intros j Hj. apply heap_root_max with (n := n); auto.
  apply desc_zero.
Qed.

(** X6.  [heap_sort] returns a list that is already in non-decreasing
    order with the contents it had. *)
Theorem heap_sort_keeps_sorted (arr : list Z) :
  Sorted Z.le arr -> heap_sort arr = Some arr.
Proof.
  intros Hs. destruct (heap_sort_spec arr) as (arr' & E & Hp & Hs').
  rewrite E. f_equal. symmetry. now apply sorted_perm_unique.
Qed.

Lemma heap_sort_keeps_sorted_witness :
  heap_sort [1; 2; 2; 5]%Z = Some [1; 2; 2; 5]%Z.
Proof.
  apply (heap_sort_keeps_sorted [1; 2; 2; 5]%Z).
  repeat constructor; lia.
Defined.

(** X7.  The result of [heap_sort] depends on the items of the list and
    not on their order: two lists that are rearrangements of each other
    are sorted into the same list. *)
Theorem heap_sort_of_permutation (arr arr2 : list Z) :
  Permutation arr arr2 -> heap_sort arr = heap_sort arr2.
Proof.
  intros Hp. destruct (heap_sort_spec arr) as (l & E & Hp1 & Hs1).
  destruct (heap_sort_spec arr2) as (l2 & E2 & Hp2 & Hs2).
  rewrite E, E2. f_equal. apply sorted_perm_unique; auto.
  now rewrite <- Hp1, Hp.
Qed.

Lemma heap_sort_of_permutation_witness :
  heap_sort [3; 1; 2]%Z = heap_sort [2; 3; 1]%Z.
Proof.
  apply (heap_sort_of_permutation [3; 1; 2]%Z [2; 3; 1]%Z).
  apply Permutation_sym, (Permutation_cons_append [3; 1]%Z 2%Z).
Defined.

(** ** Part XVI.  Further properties of the red-black tree *)

(** *** Queries do not write *)

Lemma ro_bind {A B} (m : M A) (f : A -> M B) :
  read_only m -> (forall a, read_only (f a)) -> read_only (bind m f).
Proof.
  unfold read_only, bind. intros Hm Hf s b s'.
  destruct (m s) as [[a s1]| |] eqn:E; try discriminate.
  intros H. rewrite (Hf a s1 b s' H). apply (Hm s a s1 E).
Qed.

Lemma ro_getattr {A} (f : RBNode -> A) v : read_only (getattr f v).
Proof.
  unfold read_only, getattr. intros s a s'. destruct v; try discriminate.
  intros H. now inversion H.
Qed.

Lemma ro_ret {A} (a : A) : read_only (ret a).
Proof. unfold read_only, ret. intros s b s' H. now inversion H. Qed.

Lemma ro_self_NIL : read_only self_NIL.
Proof. unfold read_only, self_NIL. intros s b s' H. now inversion H. Qed.

Lemma ro_self_root : read_only self_root.
Proof. unfold read_only, self_root. intros s b s' H. now inversion H. Qed.

Lemma ro_py_lt x y : read_only (py_lt x y).
Proof.
  unfold read_only, py_lt. intros s b s'.
  destruct x, y; try discriminate. apply ro_ret.
Qed.

Lemma ro_timeout {A} : read_only (@timeout A).
Proof. unfold read_only, timeout. discriminate. Qed.

Lemma ro_if {A} (b : bool) (m1 m2 : M A) :
  read_only m1 -> read_only m2 -> read_only (if b then m1 else m2).
Proof. now destruct b. Qed.

Ltac ro :=
  repeat first
    [ apply ro_timeout
    | apply ro_getattr
    | apply ro_ret
    | apply ro_self_NIL
    | apply ro_self_root
    | apply ro_py_lt
    | assumption
    | apply ro_bind; [|intros ?]
    | apply ro_if
    | match goal with |- read_only (match ?v with _ => _ end) => destruct v end ].

Lemma ro_search_helper fuel : forall node k,
  read_only (_search_helper fuel node k).
Proof.
  induction fuel as [|fuel IH]; intros node k; cbn [_search_helper]; ro;
    apply IH.
Qed.

Lemma ro_inorder_helper fuel : forall node acc,
  read_only (_inorder_helper fuel node acc).
Proof.
  induction fuel as [|fuel IH]; intros node acc; cbn [_inorder_helper]; ro;
    apply IH.
Qed.

Lemma ro_get_black_height fuel : forall node,
  read_only (get_black_height fuel node).
Proof.
  induction fuel as [|fuel IH]; intros node; cbn [get_black_height]; ro;
    apply IH.
Qed.

Lemma ro_validate_helper fuel : forall node bc ex,
  read_only (validate_helper fuel node bc ex).
Proof.
  induction fuel as [|fuel IH]; intros node bc ex; cbn [validate_helper]; ro;
    apply IH.
Qed.

(** X8.  [search], [inorder_traversal], [get_black_height] and
    [validate_rb_properties] write nothing: whenever one of them returns,
    on any state at all, the state is the one the call started from. *)
Theorem queries_never_write
    (fuel : nat) (k : Z) (node : val) (s : RedBlackTree) :
  match search fuel k s with Ok (_, s') => s' = s | _ => True end
  /\ match inorder_traversal fuel s with Ok (_, s') => s' = s | _ => True end
  /\ match get_black_height fuel node s with
     | Ok (_, s') => s' = s
     | _ => True
     end
  /\ match validate_rb_properties fuel s with
     | Ok (_, s') => s' = s
     | _ => True
     end.
Proof.
  assert (R : forall A (m : M A), read_only m ->
            match m s with Ok (_, s') => s' = s | _ => True end).
  { intros A m Hm. destruct (m s) as [[r s']| |] eqn:E; auto.
    apply (Hm s r s' E). }
  split; [|split; [|split]]; apply R.
  - unfold search. ro. apply ro_search_helper.
  - unfold inorder_traversal. ro. apply ro_inorder_helper.
  - apply ro_get_black_height.
  - unfold validate_rb_properties. ro.
    + apply ro_get_black_height.
    + apply ro_validate_helper.
Qed.

(** *** [insert] writes no key *)

Lemma kd_bind {A B} (m : M A) (f : A -> M B) :
  keeps_data m -> (forall a, keeps_data (f a)) -> keeps_data (bind m f).
Proof.
  unfold keeps_data, bind. intros Hm Hf s b s'.
  destruct (m s) as [[a s1]| |] eqn:E; try discriminate.
  intros H. destruct (Hm s a s1 E) as (H1 & H2 & H3).
  destruct (Hf a s1 b s' H) as (H4 & H5 & H6).
  split; [congruence|]. split; [congruence|].
  intros x. now rewrite H6.
Qed.

Lemma kd_read {A} (m : M A) : read_only m -> keeps_data m.
Proof.
  intros Hm s a s' H. rewrite (Hm s a s' H). auto.
Qed.

Lemma kd_set_root v : keeps_data (set_root v).
Proof.
  unfold keeps_data, set_root. intros s b s' H. inversion H. auto.
Qed.

Lemma kd_setattr f v :
  (forall n, data (f n) = data n) -> keeps_data (setattr f v).
Proof.
  unfold keeps_data, setattr. intros Hf s a s'. destruct v; try discriminate.
  intros H. inversion H; subst. simpl. split; [reflexivity|].
  split; [reflexivity|]. intros x. unfold upd.
  destruct (Nat.eqb_spec x r); subst; auto.
Qed.

Lemma kd_if {A} (b : bool) (m1 m2 : M A) :
  keeps_data m1 -> keeps_data m2 -> keeps_data (if b then m1 else m2).
Proof. now destruct b. Qed.

Ltac kd :=
  repeat first
    [ assumption
    | apply kd_read; solve [ro]
    | apply kd_set_root
    | apply kd_setattr; reflexivity
    | apply kd_bind; [|intros ?]
    | apply kd_if ].

Lemma kd_left_rotate x : keeps_data (_left_rotate x).
Proof. unfold _left_rotate. kd. Qed.

Lemma kd_right_rotate x : keeps_data (_right_rotate x).
Proof. unfold _right_rotate. kd. Qed.

Lemma kd_fix_body node : keeps_data (fix_body node).
Proof.
  pose proof kd_left_rotate. pose proof kd_right_rotate.
  unfold fix_body. kd; auto.
Qed.

Lemma kd_fix_loop fuel : forall node, keeps_data (fix_loop fuel node).
Proof.
  induction fuel as [|fuel IH]; intros node; cbn [fix_loop].
  - apply kd_read, ro_timeout.
  - unfold fix_guard. pose proof (kd_fix_body node). kd. apply IH.
Qed.

Lemma kd_fix_insert fuel node : keeps_data (_fix_insert fuel node).
Proof. unfold _fix_insert. pose proof (kd_fix_loop fuel node). kd. Qed.

Lemma ro_descend fuel : forall new_node par current,
  read_only (descend fuel new_node par current).
Proof.
  induction fuel as [|fuel IH]; intros nn par cur; cbn [descend]; ro;
    apply IH.
Qed.

Lemma insert_data fuel k s s' :
  insert fuel k s = Ok (tt, s') ->
  NIL s' = NIL s
  /\ next_id s' = S (next_id s)
  /\ data (objs s' (next_id s)) = Some k
  /\ (forall x, x <> next_id s -> data (objs s' x) = data (objs s x)).
Proof.
  unfold insert, bst_attach. rewrite bind_bind, bind_self_NIL, bind_bind, bind_alloc.
  set (s0 := alloc_state s _).
  intros H.
  assert (K : keeps_data
    (bind (bind self_root (fun r =>
       bind (descend fuel (Some (next_id s)) (Some (NIL s)) r) (fun par =>
       bind (setattr (set_parent par) (Some (next_id s))) (fun _ =>
       bind self_NIL (fun nil =>
       bind (if val_eqb par nil then set_root (Some (next_id s))
             else
               bind (getattr data (Some (next_id s))) (fun nd =>
               bind (getattr data par) (fun pd =>
               bind (py_lt nd pd) (fun lt =>
               if lt then setattr (set_left (Some (next_id s))) par
               else setattr (set_right (Some (next_id s))) par))))
         (fun _ => ret (Some (next_id s))))))))
       (fun new_node => _fix_insert fuel new_node))).
  { kd; first [apply kd_fix_loop | apply kd_read, ro_descend]. }
  destruct (K s0 tt s') as (H1 & H2 & H3).
  { exact H. }
  subst s0. simpl in *. split; [exact H1|]. split; [exact H2|].
  split.
  - rewrite H3. unfold upd. now rewrite Nat.eqb_refl.
  - intros x Hx. rewrite H3. unfold upd.
    destruct (Nat.eqb_spec x (next_id s)); [contradiction|reflexivity].
Qed.

(** X9.  Whenever [insert(k)] returns, on any state at all, it has
    allocated exactly one object, whose key is [k], it has kept the
    sentinel, and it has changed the key of no other object: the repair
    moves and recolours nodes and never copies a key from one node to
    another. *)
Theorem insert_writes_no_key
    (fuel : nat) (k : Z) (s s' : RedBlackTree) :
  insert fuel k s = Ok (tt, s') ->
  NIL s' = NIL s
  /\ next_id s' = S (next_id s)
  /\ data (objs s' (next_id s)) = Some k
  /\ (forall x, x <> next_id s -> data (objs s' x) = data (objs s x)).
Proof. apply insert_data. Qed.

Lemma insert_writes_no_key_witness :
  NIL state_12 = NIL (state_after 5 [1]%Z new_tree)
  /\ next_id state_12 = S (next_id (state_after 5 [1]%Z new_tree))
  /\ data (objs state_12 (next_id (state_after 5 [1]%Z new_tree))) = Some 2%Z
  /\ (forall x, x <> next_id (state_after 5 [1]%Z new_tree) ->
        data (objs state_12 x)
        = data (objs (state_after 5 [1]%Z new_tree) x)).
Proof.
  apply (insert_writes_no_key 5 2%Z (state_after 5 [1]%Z new_tree) state_12).
  reflexivity.
Defined.

(** X10.  In a tree built by insertions the key inserted by the
    [i]-th call (counted from 0) is the key of the object allocated by that
    call, object [i + 1], whatever insertions came after it. *)
Theorem keys_stay_in_their_nodes
    (ks : list Z) (s : RedBlackTree) (i : nat) (k : Z) :
  built ks s -> nth_error ks i = Some k ->
  data (objs s (S i)) = Some k.
Proof.
  intros Hb. revert i k.
  induction Hb as [|ks s k0 s' Hb IH Hret]; intros i k Hi.
  - destruct i; discriminate.
  - destruct (built_inv Hb) as (_ & _ & Hnx & _).
    destruct Hret as [f0 Hret]. specialize (Hret 0).
    apply insert_data in Hret. destruct Hret as (_ & _ & Hnew & Hold).
    destruct (Nat.lt_ge_cases i (List.length ks)) as [Hlt|Hge].
    + rewrite nth_error_app1 in Hi by exact Hlt.
      rewrite Hold by lia. now apply IH.
    + rewrite nth_error_app2 in Hi by exact Hge.
      destruct (i - List.length ks) as [|d] eqn:E.
      * simpl in Hi. inversion Hi; subst k0.
        replace (S i) with (next_id s) by lia. exact Hnew.
      * destruct d; discriminate.
Qed.

Lemma keys_stay_in_their_nodes_witness :
  data (objs demo_state 5) = Some 5%Z.
Proof.
  apply (keys_stay_in_their_nodes demo_keys demo_state 4 5%Z built_demo).
  reflexivity.
Defined.

(** *** Height *)

Lemma rb_size t : forall n, rb t n -> 2 ^ n <= S (List.length (keys t)).
Proof.
  induction t as [|c l IHl a k r IHr]; intros n H; simpl in *.
  - subst n. simpl. lia.
  - rewrite length_app. simpl. destruct c.
    + destruct H as (_ & _ & Hl & _). specialize (IHl _ Hl). lia.
    + destruct n as [|m]; [contradiction|]. destruct H as [Hl Hr].
      specialize (IHl _ Hl). specialize (IHr _ Hr).
      rewrite Nat.pow_succ_r'. lia.
Qed.

Lemma rb_height t : forall n,
  rb t n -> height t <= 2 * n + (if is_red t then 1 else 0).
Proof.
  induction t as [|c l IHl a k r IHr]; intros n H; simpl in *.
  - lia.
  - destruct c; unfold is_red in *; cbn [root_color Color_eqb].
    + destruct H as (Hcl & Hcr & Hl & Hr).
      specialize (IHl _ Hl). specialize (IHr _ Hr).
      rewrite Hcl, Hcr in *. simpl in *. lia.
    + destruct n as [|m]; [contradiction|]. destruct H as [Hl Hr].
      specialize (IHl _ Hl). specialize (IHr _ Hr).
      destruct (Color_eqb (root_color l) RED),
        (Color_eqb (root_color r) RED); lia.
Qed.

Lemma built_height ks s :
  built ks s -> height (tree_of ks) <= 2 * Nat.log2 (S (List.length ks)).
Proof.
  intros Hb. destruct (built_inv Hb) as (_ & _ & _ & [Hc [n Hn]] & _ & Hp).
  pose proof (rb_height _ _ Hn) as Hh. pose proof (rb_size _ _ Hn) as Hs.
  unfold is_red in Hh. rewrite Hc in Hh. simpl in Hh.
  rewrite (Permutation_length Hp) in Hs.
  apply Nat.log2_le_pow2 in Hs; lia.
Qed.

(** X11.  On a tree built by [n] insertions the recursions of the
    queries are at most [2 * log2(n + 1) + 1] calls deep: with that many
    nested calls allowed, [search], [inorder_traversal],
    [get_black_height] and [validate_rb_properties] return, the last one
    [True]. *)
Theorem queries_depth_logarithmic
    (ks : list Z) (s : RedBlackTree) (k : Z) (fuel : nat) :
  built ks s ->
  2 * Nat.log2 (List.length ks + 1) < fuel ->
  (exists v, search fuel k s = Ok (v, s))
  /\ (exists l, inorder_traversal fuel s = Ok (l, s))
  /\ (exists h, get_black_height fuel None s = Ok (h, s))
  /\ validate_rb_properties fuel s = Ok (true, s).
Proof.
  intros Hb Hf. pose proof (built_height ks s Hb) as Hh.
  rewrite Nat.add_1_r in Hf.
  destruct (built_inv Hb) as (Hrep & _ & _ & Hrb & _).
  assert (Hlt : height (tree_of ks) < fuel) by lia.
  split; [|split; [|split]].
  - eexists. apply (@search_spec k s (tree_of ks) fuel Hlt Hrep).
  - eexists. apply (@inorder_spec s (tree_of ks) fuel Hlt Hrep).
  - eexists. apply (@get_black_height_spec s (tree_of ks) fuel Hlt Hrep).
  - rewrite (@validate_spec s (tree_of ks) fuel Hlt Hrep).
    now rewrite red_black_fvalidate.
Qed.

Lemma queries_depth_logarithmic_witness :
  (exists v, search 7 17%Z demo_state = Ok (v, demo_state))
  /\ (exists l, inorder_traversal 7 demo_state = Ok (l, demo_state))
  /\ (exists h, get_black_height 7 None demo_state = Ok (h, demo_state))
  /\ validate_rb_properties 7 demo_state = Ok (true, demo_state).
Proof.
  apply (queries_depth_logarithmic demo_keys demo_state 17%Z 7 built_demo).
  vm_compute. lia.
Defined.

(** X12.  On a tree built by [n] insertions [insert(k)] returns when each
    of its two loops, the descent and the repair, is allowed
    [2 * log2(n + 1) + 1] evaluations of its test. *)
Theorem insert_passes_logarithmic
    (ks : list Z) (s : RedBlackTree) (k : Z) (fuel : nat) :
  built ks s ->
  2 * Nat.log2 (List.length ks + 1) < fuel ->
  exists s', insert fuel k s = Ok (tt, s').
Proof.
  intros Hb Hf. pose proof (built_height ks s Hb) as Hh.
  rewrite Nat.add_1_r in Hf.
  destruct (built_inv Hb) as (Hrep & _ & _ & Hrb & _).
  destruct (@insert_spec fuel k s (tree_of ks) Hrep (proj1 Hrb) ltac:(lia))
    as (s' & Hins & _).
  now exists s'.
Qed.

Lemma insert_passes_logarithmic_witness :
  exists s', insert 7 40%Z demo_state = Ok (tt, s').
Proof.
  apply (insert_passes_logarithmic demo_keys demo_state 40%Z 7 built_demo).
  vm_compute. lia.
Defined.

(** X13.  After any [n] insertions [get_black_height()] returns a number
    [h] with [2 ^ h <= n + 1]. *)
Theorem black_height_logarithmic (ks : list Z) (s : RedBlackTree) :
  built ks s ->
  exists h,
    returns (fun fuel => get_black_height fuel None s) (h, s)
    /\ (0 <= h)%Z
    /\ (2 ^ h <= Z.of_nat (List.length ks) + 1)%Z.
Proof.
  intros Hb. destruct (built_inv Hb) as (Hrep & _ & _ & [Hc [n Hn]] & _ & Hp).
  exists (fbh (tree_of ks)). split; [|split].
  - apply returns_read with (f0 := height (tree_of ks)). intros f Hf.
    apply (@get_black_height_spec s (tree_of ks) f Hf Hrep).
  - rewrite (@rb_fbh _ _ Hn). lia.
  - rewrite (@rb_fbh _ _ Hn). pose proof (rb_size _ _ Hn) as Hs.
    rewrite (Permutation_length Hp) in Hs.
    apply Nat2Z.inj_le in Hs. rewrite Nat2Z.inj_pow in Hs. simpl in Hs. lia.
Qed.

Lemma black_height_logarithmic_witness :
  exists h,
    returns (fun fuel => get_black_height fuel None demo_state)
            (h, demo_state)
    /\ (0 <= h)%Z
    /\ (2 ^ h <= Z.of_nat (List.length demo_keys) + 1)%Z.
Proof. apply (black_height_logarithmic demo_keys demo_state built_demo). Defined.

(** X14.  On the tree that [RedBlackTree()] builds, [search(k)] returns
    the sentinel, [inorder_traversal()] the empty list,
    [get_black_height()] 0 and [validate_rb_properties()] [True]. *)
Theorem queries_on_new_tree (k : Z) :
  returns (fun fuel => search fuel k new_tree) (Some (NIL new_tree), new_tree)
  /\ returns (fun fuel => inorder_traversal fuel new_tree) ([], new_tree)
  /\ returns (fun fuel => get_black_height fuel None new_tree)
             (0%Z, new_tree)
  /\ returns (fun fuel => validate_rb_properties fuel new_tree)
             (true, new_tree).
Proof.
  split; [|split; [|split]]; exists 1; intros d; reflexivity.
Qed.

(** *** Rotations and the traversal *)

Lemma items_plug cx : forall t t',
  items t = items t' -> items (plug t cx) = items (plug t' cx).
Proof.
  induction cx as [|c a k r up IH|c l a k up IH]; intros t t' H; simpl.
  - exact H.
  - apply IH. simpl. now rewrite H.
  - apply IH. simpl. now rewrite H.
Qed.

Lemma inorder_returns s t :
  Rep s t -> returns (fun fuel => inorder_traversal fuel s) (items t, s).
Proof.
  intros H. apply returns_read with (f0 := height t). intros f Hf.
  apply (@inorder_spec s t f Hf H).
Qed.

(** X15.  A rotation does not change what [inorder_traversal()]
    returns: after [_left_rotate(a)] on a node whose right child is not the
    sentinel, and after [_right_rotate(a)] on a node whose left child is
    not the sentinel, the traversal returns the same list of (key, colour
    name) pairs as before. *)
Theorem rotations_keep_traversal (s : RedBlackTree) (cx : ctx)
    (c1 c2 : Color) (a b : ref) (k1 k2 : Z) (t1 t2 t3 : tree) :
  (RepZ s (T c1 t1 a k1 (T c2 t2 b k2 t3)) cx ->
   exists s1 l,
     _left_rotate (Some a) s = Ok (tt, s1)
     /\ returns (fun fuel => inorder_traversal fuel s) (l, s)
     /\ returns (fun fuel => inorder_traversal fuel s1) (l, s1))
  /\ (RepZ s (T c1 (T c2 t1 b k2 t2) a k1 t3) cx ->
      exists s1 l,
        _right_rotate (Some a) s = Ok (tt, s1)
        /\ returns (fun fuel => inorder_traversal fuel s) (l, s)
        /\ returns (fun fuel => inorder_traversal fuel s1) (l, s1)).
Proof.
  split; intros H.
  - destruct (left_rotate_spec H) as (s1 & Hrot & H1 & _).
    exists s1, (items (plug (T c1 t1 a k1 (T c2 t2 b k2 t3)) cx)).
    split; [exact Hrot|]. split.
    + apply inorder_returns. now apply Rep_plug.
    + rewrite (items_plug cx _ (T c2 (T c1 t1 a k1 t2) b k2 t3)).
      * apply inorder_returns. now apply Rep_plug.
      * simpl. now rewrite <- app_assoc.
  - destruct (right_rotate_spec H) as (s1 & Hrot & H1 & _).
    exists s1, (items (plug (T c1 (T c2 t1 b k2 t2) a k1 t3) cx)).
    split; [exact Hrot|]. split.
    + apply inorder_returns. now apply Rep_plug.
    + rewrite (items_plug cx _ (T c2 t1 b k2 (T c1 t2 a k1 t3))).
      * apply inorder_returns. now apply Rep_plug.
      * simpl. now rewrite <- app_assoc.
Qed.

Lemma rotations_keep_traversal_witness :
  (exists s1 l,
     _left_rotate (Some 1) state_12 = Ok (tt, s1)
     /\ returns (fun fuel => inorder_traversal fuel state_12) (l, state_12)
     /\ returns (fun fuel => inorder_traversal fuel s1) (l, s1))
  /\ (exists s1 l,
        _right_rotate (Some 1) state_21 = Ok (tt, s1)
        /\ returns (fun fuel => inorder_traversal fuel state_21)
                   (l, state_21)
        /\ returns (fun fuel => inorder_traversal fuel s1) (l, s1)).
Proof.
  split.
  - apply (proj1 (rotations_keep_traversal state_12 Top BLACK RED 1 2
                    1%Z 2%Z E E E)).
    apply RepZ_Top. exact Rep_12.
  - apply (proj2 (rotations_keep_traversal state_21 Top BLACK RED 1 2
                    2%Z 1%Z E E E)).
    apply RepZ_Top. exact Rep_21.
Defined.

(** X16.  [_left_rotate(a)] on a node whose right child is the sentinel
    raises [AttributeError], and so does [_right_rotate(a)] on a node whose
    left child is the sentinel: the child of the sentinel that the rotation
    reads is [None], it differs from the sentinel, and its [parent] is
    assigned. *)
Theorem rotation_without_child_raises (s : RedBlackTree) (cx : ctx)
    (c : Color) (a : ref) (k : Z) (t : tree) :
  (RepZ s (T c t a k E) cx -> _left_rotate (Some a) s = Raise AttributeError)
  /\ (RepZ s (T c E a k t) cx ->
      _right_rotate (Some a) s = Raise AttributeError).
Proof.
  split; intros H; pose proof (RepZ_node H) as [Ha HaN];
    pose proof (RepZ_nil H) as Hnil.
  - unfold _left_rotate. msimp. reflexivity.
  - unfold _right_rotate. msimp. reflexivity.
Qed.

Lemma rotation_without_child_raises_witness :
  _left_rotate (Some 2) state_12 = Raise AttributeError
  /\ _right_rotate (Some 2) state_12 = Raise AttributeError.
Proof.
  split.
  - apply (proj1 (rotation_without_child_raises state_12
                    (CR BLACK E 1 1%Z Top) RED 2 2%Z E)).
    apply RepZ_down_R, RepZ_Top. exact Rep_12.
  - apply (proj2 (rotation_without_child_raises state_12
                    (CR BLACK E 1 1%Z Top) RED 2 2%Z E)).
    apply RepZ_down_R, RepZ_Top. exact Rep_12.
Defined.

(** *** The black height of any tree *)

Lemma fbh_max t : Forall (fun p => (p <= fbh t)%Z) (path_blacks t).
Proof.
  induction t as [|c l IHl a k r IHr]; simpl.
  - constructor; [lia|constructor].
  - rewrite Forall_map, Forall_app. split.
    + eapply Forall_impl; [|exact IHl]. simpl. intros. lia.
    + eapply Forall_impl; [|exact IHr]. simpl. intros. lia.
Qed.

(** X17.  On any tree, red-black or not, [get_black_height()] returns
    the largest number of black nodes found on a path from the root down
    to a sentinel (the sentinel not counted): it takes the [max] over the
    two subtrees and does not compare them. *)
Theorem black_height_is_largest_count (s : RedBlackTree) (t : tree) :
  Rep s t ->
  exists h,
    returns (fun fuel => get_black_height fuel None s) (h, s)
    /\ In h (path_blacks t)
    /\ Forall (fun p => (p <= h)%Z) (path_blacks t).
Proof.
  intros H. exists (fbh t). split; [|split].
  - apply returns_read with (f0 := height t). intros f Hf.
    apply (@get_black_height_spec s t f Hf H).
  - apply fbh_is_path.
  - apply fbh_max.
Qed.

(** *** Links *)

Lemma in_addrs_plug x t : forall cx0,
  In x (addrs t) ->
  exists c l k r cx, plug t cx0 = plug (T c l x k r) cx.
Proof.
  induction t as [|c l IHl a k r IHr]; intros cx0 Hin; simpl in Hin.
  - contradiction.
  - apply in_app_or in Hin. destruct Hin as [Hin|[->|Hin]].
    + apply (IHl (CL c a k r cx0) Hin).
    + now exists c, l, k, r, cx0.
    + apply (IHr (CR c l a k cx0) Hin).
Qed.

Lemma addrs_length t : List.length (addrs t) = List.length (keys t).
Proof.
  induction t as [|c l IHl a k r IHr]; simpl; auto.
  rewrite !length_app. simpl. lia.
Qed.

Lemma built_addrs ks s x :
  built ks s -> 1 <= x <= List.length ks -> In x (addrs (tree_of ks)).
Proof.
  intros Hb Hx.
  destruct (built_inv Hb) as (Hrep & HN & Hnx & _ & _ & Hp).
  destruct Hrep as (_ & _ & _ & Hnd & Hlt).
  apply NoDup_cons_iff in Hnd. destruct Hnd as [Hnil Hnd].
  apply Forall_cons_iff in Hlt. destruct Hlt as [_ Hlt].
  rewrite Forall_forall in Hlt.
  assert (Hincl : incl (addrs (tree_of ks)) (seq 1 (List.length ks))).
  { intros y Hy. apply in_seq. specialize (Hlt y Hy).
    assert (y <> 0) by (intros ->; apply Hnil; now rewrite HN). lia. }
  apply (NoDup_length_incl Hnd) in Hincl.
  - apply Hincl, in_seq. lia.
  - rewrite length_seq, addrs_length, (Permutation_length Hp). lia.
Qed.

Lemma repr_child h nil t p :
  repr h nil t p -> addr nil t <> nil -> parent (h (addr nil t)) = Some p.
Proof.
  destruct t as [|c l a k r]; simpl.
  - intros _ H. contradiction.
  - intros [E _] _. now rewrite E.
Qed.

(** X18.  In a tree built by insertions the links agree with each other:
    every node has a parent, a left and a right link, none of them [None];
    a child that is not the sentinel has the node as its parent; the node
    whose parent is the sentinel is the root; and any other node is the
    left or the right child of its parent. *)
Theorem links_are_mutual (ks : list Z) (s : RedBlackTree) (x : ref) :
  built ks s -> 1 <= x <= List.length ks ->
  exists p l r,
    parent (objs s x) = Some p
    /\ left (objs s x) = Some l
    /\ right (objs s x) = Some r
    /\ (l <> NIL s -> parent (objs s l) = Some x)
    /\ (r <> NIL s -> parent (objs s r) = Some x)
    /\ (p = NIL s -> root s = Some x)
    /\ (p <> NIL s ->
        left (objs s p) = Some x \/ right (objs s p) = Some x).
Proof.
  intros Hb Hx. pose proof (built_addrs ks s x Hb Hx) as Hin.
  destruct (built_inv Hb) as (Hrep & _).
  destruct (in_addrs_plug x (tree_of ks) Top Hin)
    as (c & l & k & r & cx & E).
  simpl in E. rewrite E in Hrep. apply Rep_plug in Hrep.
  pose proof (RepZ_node Hrep) as [Ha HaN].
  destruct Hrep as (Hnil & Hroot & Hr & Hcx & Hnd & _).
  simpl in Hr. destruct Hr as (_ & Hl & Hr).
  exists (caddr (NIL s) cx), (addr (NIL s) l), (addr (NIL s) r).
  rewrite Ha. cbn [parent left right].
  split; [reflexivity|]. split; [reflexivity|]. split; [reflexivity|].
  split; [now apply repr_child|]. split; [now apply repr_child|].
  destruct cx as [|c' a' k' r' up|c' l' a' k' up]; simpl in *.
  - split; [intros _; exact Hroot|]. intros Hne. contradiction.
  - destruct Hcx as (Ea & _). rewrite Ea. cbn [left right].
    split; [|auto]. intros Ep. exfalso. nd_facts. congruence.
  - destruct Hcx as (Ea & _). rewrite Ea. cbn [left right].
    split; [|auto]. intros Ep. exfalso. nd_facts. congruence.
Qed.

Lemma links_are_mutual_witness :
  exists p l r,
    parent (objs demo_state 4) = Some p
    /\ left (objs demo_state 4) = Some l
    /\ right (objs demo_state 4) = Some r
    /\ (l <> NIL demo_state -> parent (objs demo_state l) = Some 4)
    /\ (r <> NIL demo_state -> parent (objs demo_state r) = Some 4)
    /\ (p = NIL demo_state -> root demo_state = Some 4)
    /\ (p <> NIL demo_state ->
        left (objs demo_state p) = Some 4
        \/ right (objs demo_state p) = Some 4).
Proof.
  apply (links_are_mutual demo_keys demo_state 4 built_demo).
  simpl. lia.
Defined.

Lemma Rep_lopsided :
  Rep lopsided_state (T BLACK E 1 1%Z (T BLACK E 2 2%Z E)).
Proof.
  apply RepZ_Top, RepZ_up_R. unfold lopsided_state.
  apply RepZ_set_color with (c := RED).
  apply RepZ_down_R, RepZ_Top. exact Rep_12.
Qed.

Lemma black_height_is_largest_count_witness :
  exists h,
    returns (fun fuel => get_black_height fuel None lopsided_state)
            (h, lopsided_state)
    /\ In h (path_blacks (T BLACK E 1 1%Z (T BLACK E 2 2%Z E)))
    /\ Forall (fun p => (p <= h)%Z)
              (path_blacks (T BLACK E 1 1%Z (T BLACK E 2 2%Z E))).
Proof.
  apply (black_height_is_largest_count lopsided_state
           (T BLACK E 1 1%Z (T BLACK E 2 2%Z E)) Rep_lopsided).
Defined.

(** *** Order of insertion *)

Lemma map_Some_inj (l l' : list Z) : map Some l = map Some l' -> l = l'.
Proof.
  revert l'. induction l as [|x l IH]; intros [|y l'] H;
    try discriminate; auto.
  simpl in H. inversion H. f_equal. now apply IH.
Qed.

(** X19.  The keys that [inorder_traversal()] returns do not depend on
    the order of the insertions: two trees built from the same keys
    inserted in different orders give the same list of keys. *)
Theorem traversal_ignores_insertion_order
    (ks ks2 : list Z) (s s2 : RedBlackTree) :
  built ks s -> built ks2 s2 -> Permutation ks ks2 ->
  exists l l2,
    returns (fun fuel => inorder_traversal fuel s) (l, s)
    /\ returns (fun fuel => inorder_traversal fuel s2) (l2, s2)
    /\ map fst l = map fst l2.
Proof.
  intros Hb Hb2 Hp.
  destruct (built_inv Hb) as (Hrep & _ & _ & _ & Hord & Hperm).
  destruct (built_inv Hb2) as (Hrep2 & _ & _ & _ & Hord2 & Hperm2).
  exists (items (tree_of ks)), (items (tree_of ks2)).
  split; [now apply inorder_returns|]. split; [now apply inorder_returns|].
  rewrite !items_keys. f_equal. apply sorted_perm_unique.
  - now apply StronglySorted_Sorted.
  - now apply StronglySorted_Sorted.
  - now rewrite Hperm, Hp, Hperm2.
Qed.

Lemma traversal_ignores_insertion_order_witness :
  exists l l2,
    returns (fun fuel => inorder_traversal fuel state_12) (l, state_12)
    /\ returns (fun fuel => inorder_traversal fuel state_21) (l2, state_21)
    /\ map fst l = map fst l2.
Proof.
  apply (traversal_ignores_insertion_order [1; 2]%Z [2; 1]%Z
           state_12 state_21 built_12 built_21).
  apply perm_swap.
Defined.

(** X20.  The two programs sort alike: the keys returned by
    [inorder_traversal()] on the tree built by inserting the items of a
    list, one by one, are the list that [heap_sort] returns for it. *)
Theorem traversal_agrees_with_heap_sort (ks : list Z) (s : RedBlackTree) :
  built ks s ->
  exists l sorted,
    returns (fun fuel => inorder_traversal fuel s) (l, s)
    /\ heap_sort ks = Some sorted
    /\ map fst l = map Some sorted.
Proof.
  intros Hb.
  destruct (built_inv Hb) as (Hrep & _ & _ & _ & Hord & Hperm).
  destruct (heap_sort_spec ks) as (sorted & E & Hp & Hs).
  exists (items (tree_of ks)), sorted.
  split; [now apply inorder_returns|]. split; [exact E|].
  rewrite items_keys. f_equal. apply sorted_perm_unique; auto.
  - now apply StronglySorted_Sorted.
  - now rewrite Hperm.
Qed.

Lemma traversal_agrees_with_heap_sort_witness :
  exists l sorted,
    returns (fun fuel => inorder_traversal fuel demo_state) (l, demo_state)
    /\ heap_sort demo_keys = Some sorted
    /\ map fst l = map Some sorted.
Proof.
  apply (traversal_agrees_with_heap_sort demo_keys demo_state built_demo).
Defined.

(** X21.  [_inorder_helper(node, result)] on a node of a tree returns
    with [result] followed by the (key, colour name) pairs of the subtree
    of [node] in symmetric order; what [result] held is kept in front. *)
Theorem inorder_helper_appends (s : RedBlackTree) (t : tree) (cx : ctx)
    (result : list (option Z * string)) :
  RepZ s t cx ->
  returns (fun fuel =>
             _inorder_helper fuel (Some (addr (NIL s) t)) result s)
          (result ++ items t, s).
Proof.
  intros H. apply returns_read with (f0 := height t). intros f Hf.
  apply (@inorder_helper_spec s t cx f result Hf H).
Qed.

Lemma inorder_helper_appends_witness :
  returns (fun fuel =>
             _inorder_helper fuel (Some 2) [(Some 0%Z, "RED"%string)]
                             state_12)
          ([(Some 0%Z, "RED"%string)] ++ items (T RED E 2 2%Z E), state_12).
Proof.
  apply (inorder_helper_appends state_12 (T RED E 2 2%Z E)
           (CR BLACK E 1 1%Z Top) [(Some 0%Z, "RED"%string)]).
  apply RepZ_down_R, RepZ_Top. exact Rep_12.
Defined.
